(** * subseekr2: a shallow embedding of [main.go] and its properties

    The program enumerates sub-domains of a domain with a pool of
    goroutines.  Each worker resolves a candidate host, picks its first
    IPv4 address, samples the connect latency on port 80, probes the
    requested ports, sends one [Result] and bumps a shared counter.

    The development follows the source function by function:
    - Go's [strings] helpers used by [parsePorts];
    - [net.IP], [net.JoinHostPort] and a network oracle with a call trace;
    - [measureLatency], [isPortOpen] and the body of [worker];
    - the pool of [main] as an interleaving transition system;
    - [saveResults] over a file store;
    - [readSubdomains] over the content of the candidate file, [main] from
      its inputs to the result file, and the [worker] of the first program. *)

From Stdlib Require Import List String Ascii Bool Arith ZArith NArith QArith Lia.
From Stdlib Require Import Permutation DecimalString.
Import ListNotations.

Local Open Scope string_scope.
Local Open Scope Z_scope.

(* ===================================================================== *)
(** ** Go strings: bytes, UTF-8 decoding, [strings.Split], [strings.TrimSpace] *)
(* ===================================================================== *)

(** A Go string is a sequence of bytes; [ascii] is the byte type here. *)
Definition byteZ (c : ascii) : Z := Z.of_N (N_of_ascii c).

Fixpoint drop (n : nat) (s : string) : string :=
  match n, s with
  | O, _ => s
  | S n', String _ t => drop n' t
  | S _, EmptyString => EmptyString
  end.

Fixpoint take (n : nat) (s : string) : string :=
  match n, s with
  | O, _ => EmptyString
  | S n', String c t => String c (take n' t)
  | S _, EmptyString => EmptyString
  end.

(** [utf8.RuneError] and [utf8.RuneSelf]. *)
Definition RuneError : Z := 0xFFFD.
Definition RuneSelf : Z := 0x80.

(** The [first] table of package [utf8] joined with [acceptRanges]:
    for a leading byte, the length of the sequence and the range allowed
    for the second byte; [None] for the bytes marked invalid. *)
Definition first (s0 : Z) : option (nat * Z * Z) :=
  if s0 <? 0xC2 then None
  else if s0 <=? 0xDF then Some (2%nat, 0x80, 0xBF)
  else if s0 =? 0xE0 then Some (3%nat, 0xA0, 0xBF)
  else if s0 <=? 0xEC then Some (3%nat, 0x80, 0xBF)
  else if s0 =? 0xED then Some (3%nat, 0x80, 0x9F)
  else if s0 <=? 0xEF then Some (3%nat, 0x80, 0xBF)
  else if s0 =? 0xF0 then Some (4%nat, 0x90, 0xBF)
  else if s0 <=? 0xF3 then Some (4%nat, 0x80, 0xBF)
  else if s0 =? 0xF4 then Some (4%nat, 0x80, 0x8F)
  else None.

Definition continuation (x : Z) : bool := (0x80 <=? x) && (x <=? 0xBF).

(** [utf8.DecodeRuneInString]: the first rune of [s] and its width. *)
Definition DecodeRuneInString (s : string) : Z * nat :=
  match s with
  | EmptyString => (RuneError, 0%nat)
  | String c0 t0 =>
      let s0 := byteZ c0 in
      if s0 <? RuneSelf then (s0, 1%nat)
      else
        match first s0 with
        | None => (RuneError, 1%nat)
        | Some (sz, lo, hi) =>
            if (String.length s <? sz)%nat then (RuneError, 1%nat)
            else
              match t0 with
              | EmptyString => (RuneError, 1%nat)
              | String c1 t1 =>
                  let s1 := byteZ c1 in
                  if (s1 <? lo) || (hi <? s1) then (RuneError, 1%nat)
                  else if (sz <=? 2)%nat then
                    (Z.lor (Z.shiftl (Z.land s0 0x1F) 6) (Z.land s1 0x3F), 2%nat)
                  else
                    match t1 with
                    | EmptyString => (RuneError, 1%nat)
                    | String c2 t2 =>
                        let s2 := byteZ c2 in
                        if negb (continuation s2) then (RuneError, 1%nat)
                        else if (sz <=? 3)%nat then
                          (Z.lor (Z.lor (Z.shiftl (Z.land s0 0x0F) 12)
                                        (Z.shiftl (Z.land s1 0x3F) 6))
                                 (Z.land s2 0x3F), 3%nat)
                        else
                          match t2 with
                          | EmptyString => (RuneError, 1%nat)
                          | String c3 _ =>
                              let s3 := byteZ c3 in
                              if negb (continuation s3) then (RuneError, 1%nat)
                              else
                                (Z.lor (Z.lor (Z.lor (Z.shiftl (Z.land s0 0x07) 18)
                                                     (Z.shiftl (Z.land s1 0x3F) 12))
                                              (Z.shiftl (Z.land s2 0x3F) 6))
                                       (Z.land s3 0x3F), 4%nat)
                          end
                    end
              end
        end
  end.

(** [utf8.RuneStart]: not a continuation byte. *)
Definition RuneStart (x : Z) : bool := negb (Z.land x 0xC0 =? 0x80).

Definition byteAt (s : string) (i : Z) : Z :=
  match String.get (Z.to_nat i) s with
  | Some c => byteZ c
  | None => 0
  end.

(** The backwards scan of [utf8.DecodeLastRuneInString]:
    [for start--; start >= lim; start-- { if RuneStart(s[start]) { break } }],
    entered after the first decrement. *)
Fixpoint scanStart (fuel : nat) (s : string) (start lim : Z) : Z :=
  match fuel with
  | O => start
  | S fuel' =>
      if start <? lim then start
      else if RuneStart (byteAt s start) then start
      else scanStart fuel' s (start - 1) lim
  end.

(** [utf8.DecodeLastRuneInString]. *)
Definition DecodeLastRuneInString (s : string) : Z * nat :=
  let stop := Z.of_nat (String.length s) in
  if stop =? 0 then (RuneError, 0%nat)
  else
    let r := byteAt s (stop - 1) in
    if r <? RuneSelf then (r, 1%nat)
    else
      let lim := Z.max 0 (stop - 4) in
      let start := scanStart 5 s (stop - 2) lim in
      let start := Z.max 0 start in
      let '(r, size) := DecodeRuneInString (drop (Z.to_nat start) s) in
      if start + Z.of_nat size =? stop then (r, size) else (RuneError, 1%nat).

(** [unicode.IsSpace]: the Latin-1 cases and the White_Space table. *)
Definition IsSpace (r : Z) : bool :=
  if r <=? 0xFF then
    (r =? 9) || (r =? 10) || (r =? 11) || (r =? 12) || (r =? 13) || (r =? 32)
    || (r =? 0x85) || (r =? 0xA0)
  else
    (r =? 0x1680) || ((0x2000 <=? r) && (r <=? 0x200A))
    || (r =? 0x2028) || (r =? 0x2029) || (r =? 0x202F) || (r =? 0x205F)
    || (r =? 0x3000).

(** [strings.TrimLeftFunc(s, unicode.IsSpace)]: drop leading runes while
    they are spaces.  Every decoded rune of a non-empty string is at least
    one byte wide, so [length s] rounds are enough. *)
Fixpoint trimLeftSpace (fuel : nat) (s : string) : string :=
  match fuel with
  | O => s
  | S fuel' =>
      match s with
      | EmptyString => EmptyString
      | String _ _ =>
          let '(r, size) := DecodeRuneInString s in
          if IsSpace r then trimLeftSpace fuel' (drop size s) else s
      end
  end.

Definition TrimLeftSpace (s : string) : string :=
  trimLeftSpace (String.length s) s.

(** [lastIndexFunc(s, unicode.IsSpace, false)]: the index where the last
    non-space rune starts, [-1] when there is none; [i] is the length of
    the prefix still to scan. *)
Fixpoint lastIndexNotSpace (fuel : nat) (s : string) (i : nat) : Z :=
  match fuel with
  | O => -1
  | S fuel' =>
      match i with
      | O => -1
      | S _ =>
          let '(r, size) := DecodeLastRuneInString (take i s) in
          let i' := (i - size)%nat in
          if IsSpace r then lastIndexNotSpace fuel' s i' else Z.of_nat i'
      end
  end.

(** [strings.TrimRightFunc(s, unicode.IsSpace)]. *)
Definition TrimRightSpace (s : string) : string :=
  let i := lastIndexNotSpace (String.length s) s (String.length s) in
  let stop :=
    if (0 <=? i) && (RuneSelf <=? byteAt s i) then
      i + Z.of_nat (snd (DecodeRuneInString (drop (Z.to_nat i) s)))
    else i + 1 in
  take (Z.to_nat stop) s.

(** [strings.TrimSpace]: its ASCII fast path is an optimisation of
    [TrimFunc(s, unicode.IsSpace)], which is what is embedded. *)
Definition TrimSpace (s : string) : string :=
  TrimRightSpace (TrimLeftSpace s).

(** [strings.Split(s, sep)] for a separator of one byte: all the
    substrings between separators, [[""]] for the empty string. *)
Fixpoint Split (s : string) (sep : ascii) : list string :=
  match s with
  | EmptyString => [EmptyString]
  | String c t =>
      if Ascii.eqb c sep then EmptyString :: Split t sep
      else
        match Split t sep with
        | h :: rest => String c h :: rest
        | [] => [String c EmptyString]
        end
  end.

(* ===================================================================== *)
(** ** [parsePorts] *)
(* ===================================================================== *)

(** The loop of [parsePorts] (lines 346-351): [ports] is the slice built
    so far. *)
Fixpoint parsePorts_loop (parts : list string) (ports : list string) : list string :=
  match parts with
  | [] => ports
  | p :: rest =>
      let trimmed := TrimSpace p in
      if String.eqb trimmed "" then parsePorts_loop rest ports
      else parsePorts_loop rest (ports ++ [trimmed])
  end.

(** [parsePorts] (lines 340-353). *)
Definition parsePorts (input : string) : list string :=
  if String.eqb input "" then []
  else
    let parts := Split input "," in
    parsePorts_loop parts [].

(** What the description of [parsePorts] says, as one pipeline: split at
    the commas, trim every segment, keep the non-empty ones. *)
Definition trimmed_segments (input : string) : list string :=
  filter (fun p => negb (String.eqb p ""))
         (map TrimSpace (Split input ",")).

(** "The input consists only of commas and whitespace", read rune by rune
    as [for _, r := range input] does: every rune is the byte [","] or
    satisfies [unicode.IsSpace]. *)
Fixpoint blankRunes (fuel : nat) (s : string) : bool :=
  match s with
  | EmptyString => true
  | String c t =>
      match fuel with
      | O => false
      | S fuel' =>
          if Ascii.eqb c "," then blankRunes fuel' t
          else
            let '(r, size) := DecodeRuneInString s in
            IsSpace r && blankRunes fuel' (drop size s)
      end
  end.

Definition onlyCommasAndSpace (s : string) : bool :=
  blankRunes (String.length s) s.

(* ===================================================================== *)
(** ** The network: [net.IP], [net.JoinHostPort], lookups and dials *)
(* ===================================================================== *)

(** [net.IP] is a byte slice; [nil] results are [None]. *)
Definition IP : Type := list Byte.byte.

Definition IPv4len : nat := 4.
Definition IPv6len : nat := 16.

Definition isZeros (p : list Byte.byte) : bool :=
  forallb (fun b => Byte.eqb b Byte.x00) p.

(** [ip.To4()]: the 4-byte form of an IPv4 address, also when it is
    stored in 16 bytes under the prefix [::ffff:]. *)
Definition To4 (ip : IP) : option IP :=
  if (List.length ip =? IPv4len)%nat then Some ip
  else if (List.length ip =? IPv6len)%nat
          && isZeros (firstn 10 ip)
          && Byte.eqb (nth 10 ip Byte.x00) Byte.xff
          && Byte.eqb (nth 11 ip Byte.x00) Byte.xff
       then Some (firstn 4 (skipn 12 ip))
       else None.

Definition decimal (n : N) : string := NilEmpty.string_of_uint (N.to_uint n).

(** [ip.String()] where [ip.To4()] is not nil, the only place the worker
    calls it: the four bytes of [To4] in dotted decimal. *)
Definition IPv4_String (p4 : IP) : string :=
  String.concat "." (map (fun b => decimal (Byte.to_N b)) p4).

Fixpoint containsByte (c : ascii) (s : string) : bool :=
  match s with
  | EmptyString => false
  | String a t => Ascii.eqb a c || containsByte c t
  end.

(** [net.JoinHostPort]: a host with a colon is put in brackets. *)
Definition JoinHostPort (host port : string) : string :=
  if containsByte ":" host then "[" ++ host ++ "]:" ++ port
  else host ++ ":" ++ port.

(** [time.Duration] is an [int64] count of nanoseconds. *)
Definition wrap64 (z : Z) : Z := (z + 2 ^ 63) mod 2 ^ 64 - 2 ^ 63.

Definition Second : Z := 1000000000.

(** [d.Milliseconds()]: integer division, truncated toward zero. *)
Definition Milliseconds (d : Z) : Z := Z.quot d 1000000.

(** The constants of the program. *)
Definition resultFile : string := "SDresults.json".
Definition maxWorkers : nat := 200.
Definition timeout : Z := 2 * Second.
Definition pingCount : nat := 2.

(** What a [net.DialTimeout] call answers: whether the connection was
    established ([err == nil]), and the time the call took, which is what
    [time.Since(start)] reads right after it. *)
Record DialAnswer := mkDial { connected : bool; took : Z }.

(** The calls the program makes to package [net], with their outcome. *)
Inductive Event :=
| EvLookupIP (host : string) (answer : option (list IP))
| EvDial (network address : string) (limit : Z) (answer : DialAnswer).

(** The network as the program sees it: an oracle that answers the
    [tick]-th call, and the trace of the calls made so far.  [None] for a
    lookup is [err != nil]. *)
Record World := mkWorld {
  lookup_answer : nat -> string -> option (list IP);
  dial_answer : nat -> string -> DialAnswer;
  tick : nat;
  trace : list Event
}.

(** Code that talks to the network threads the world through. *)
Definition Net (A : Type) : Type := World -> A * World.

Definition ret {A} (a : A) : Net A := fun w => (a, w).

Definition bind {A B} (m : Net A) (k : A -> Net B) : Net B :=
  fun w => let '(a, w') := m w in k a w'.

Notation "x <- m ;; k" := (bind m (fun x => k))
  (at level 61, m at next level, right associativity).

Definition record (e : Event) (w : World) : World :=
  mkWorld (lookup_answer w) (dial_answer w) (S (tick w)) (trace w ++ [e]).

Definition LookupIP (host : string) : Net (option (list IP)) :=
  fun w => let a := lookup_answer w (tick w) host in
           (a, record (EvLookupIP host a) w).

Definition DialTimeout (network address : string) (limit : Z) : Net DialAnswer :=
  fun w => let a := dial_answer w (tick w) address in
           (a, record (EvDial network address limit a) w).

(* ===================================================================== *)
(** ** [Result], [measureLatency], [isPortOpen] and the body of [worker] *)
(* ===================================================================== *)

(** [AvgResponseMs] is a [float64].  It only ever holds
    [float64(ms) / float64(success)] with [ms] an integer below [2^53] in
    absolute value (an [int64] of nanoseconds divided by [10^6]) and
    [success] equal to 1 or 2, a division that binary64 performs without
    rounding; the rational is that value. *)
Record Result := mkResult {
  Host : string;
  IPAddress : string;
  AvgResponseMs : Q;
  Reachable : bool;
  OpenPorts : list string
}.

(** The loop of [measureLatency] (lines 311-319); [n] is the number of
    rounds left.  [success] counts at most [pingCount] attempts. *)
Fixpoint measureLatency_loop (n : nat) (ip : string) (total success : Z)
  : Net (Z * Z) :=
  match n with
  | O => ret (total, success)
  | S n' =>
      a <- DialTimeout "tcp" (JoinHostPort ip "80") timeout ;;
      if connected a
      then measureLatency_loop n' ip (wrap64 (total + took a)) (success + 1)
      else measureLatency_loop n' ip total success
  end.

(** [measureLatency] (lines 307-324). *)
Definition measureLatency (ip : string) : Net Q :=
  ts <- measureLatency_loop pingCount ip 0 0 ;;
  let '(total, success) := ts in
  if success =? 0 then ret 0%Q
  else ret (inject_Z (Milliseconds total) / inject_Z success)%Q.

(** [isPortOpen] (lines 331-338). *)
Definition isPortOpen (host port : string) : Net bool :=
  a <- DialTimeout "tcp" (JoinHostPort host port) timeout ;;
  if connected a then ret true else ret false.

(** The loop that selects [ipv4Addr] (lines 274-280): the text of the
    first address with a non-nil [To4], the empty string when there is
    none. *)
Fixpoint firstIPv4 (ipAddrs : list IP) : string :=
  match ipAddrs with
  | [] => ""
  | ip :: rest =>
      match To4 ip with
      | Some p4 => IPv4_String p4
      | None => firstIPv4 rest
      end
  end.

(** The loop over [ports] (lines 295-299); [open] is [result.OpenPorts]
    so far. *)
Fixpoint probePorts (fullHost : string) (ports : list string) (open : list string)
  : Net (list string) :=
  match ports with
  | [] => ret open
  | port :: rest =>
      ok <- isPortOpen fullHost port ;;
      if ok then probePorts fullHost rest (open ++ [port])
      else probePorts fullHost rest open
  end.

(** One round of the loop of [worker] (lines 267-300), from
    [fullHost := ...] to the value sent on [results]; [None] is a round
    that reaches [continue]. *)
Definition scanJob (domain : string) (ports : list string) (sub : string)
  : Net (option Result) :=
  let fullHost := sub ++ "." ++ domain in
  answer <- LookupIP fullHost ;;
  match answer with
  | None => ret None
  | Some ipAddrs =>
      if (List.length ipAddrs =? 0)%nat then ret None
      else
        let ipv4Addr := firstIPv4 ipAddrs in
        if String.eqb ipv4Addr "" then ret None
        else
          avgTime <- measureLatency ipv4Addr ;;
          open <- (if (0 <? List.length ports)%nat
                   then probePorts fullHost ports []
                   else ret []) ;;
          ret (Some (mkResult fullHost ipv4Addr avgTime true open))
  end.

(** *** Reading the trace of a round *)

(** The events of dialling [addrs] one after the other, from call [k] on. *)
Fixpoint dial_events (w : World) (k : nat) (addrs : list string) : list Event :=
  match addrs with
  | [] => []
  | a :: rest =>
      EvDial "tcp" a timeout (dial_answer w k a) :: dial_events w (S k) rest
  end.

(** The world after the calls [evs]. *)
Definition after (w : World) (evs : list Event) : World :=
  mkWorld (lookup_answer w) (dial_answer w) (tick w + List.length evs)%nat
          (trace w ++ evs).

(** The elapsed times of the attempts that succeed among [n] dials of
    [addr] from call [k] on. *)
Fixpoint successes (w : World) (k : nat) (addr : string) (n : nat) : list Z :=
  match n with
  | O => []
  | S n' =>
      let a := dial_answer w k addr in
      (if connected a then [took a] else []) ++ successes w (S k) addr n'
  end.

Definition sum (l : list Z) : Z := fold_right Z.add 0 l.

(** The arithmetic mean, in milliseconds, of elapsed times in nanoseconds. *)
Definition mean_ms (es : list Z) : Q :=
  (inject_Z (sum es) / inject_Z (1000000 * Z.of_nat (List.length es)))%Q.

(** The ports of [ports] whose dial, from call [k] on, connects. *)
Fixpoint open_ports (w : World) (k : nat) (host : string) (ports : list string)
  : list string :=
  match ports with
  | [] => []
  | port :: rest =>
      if connected (dial_answer w k (JoinHostPort host port))
      then port :: open_ports w (S k) host rest
      else open_ports w (S k) host rest
  end.

(** The answers to the dials of [addrs] from call [k] on. *)
Fixpoint dial_answers (w : World) (k : nat) (addrs : list string) : list DialAnswer :=
  match addrs with
  | [] => []
  | a :: rest => dial_answer w k a :: dial_answers w (S k) rest
  end.

(** The family of an address is IPv4 when [To4] is not nil. *)
Definition isIPv4 (ip : IP) : bool :=
  match To4 ip with Some _ => true | None => false end.

(** The job is resolved for the scanner: the lookup answers [addrs]
    without an error and [ipv4] is the text of its first IPv4 address. *)
Definition resolved_to (w : World) (host : string) (addrs : list IP) (ipv4 : string)
  : Prop :=
  lookup_answer w (tick w) host = Some addrs
  /\ firstIPv4 addrs = ipv4 /\ ipv4 <> "".

(* ===================================================================== *)
(** ** The pool of [main]: goroutines, channels, wait group, counter *)
(* ===================================================================== *)

(** What [main] read before it starts the pool. *)
Record Config := mkConfig {
  domain : string;
  ports : list string;
  subdomains : list string
}.

(** Where a [worker] goroutine stands. *)
Inductive WorkerPC :=
| AtRange                                  (* [for sub := range jobs] *)
| AtLookup (sub : string)                  (* a job in hand, network calls ahead *)
| AtSend (sub : string) (result : Result)  (* [results <- result] *)
| AtProgress (sub : string)                (* [updateProgress(total)] *)
| AtDone                                   (* loop left, deferred [wg.Done()] ahead *)
| Returned.

(** Where [main] stands. *)
Inductive MainPC :=
| MSpawn (i : nat)                    (* [for i := 0; i < maxWorkers; i++] *)
| MFeed (rest : list string)          (* [for _, sub := range subdomains] *)
| MCloseJobs                          (* [close(jobs)] *)
| MWait                               (* [wg.Wait()] *)
| MCloseResults                       (* [close(results)] *)
| MDrain (allResults : list Result)   (* [for res := range results] *)
| MSave (allResults : list Result).   (* [saveResults(allResults)] *)

(** The shared state.  [progressed] is a ghost list: the jobs for which
    [updateProgress] has run, in the order of the increments. *)
Record Pool := mkPool {
  jobs : list string;
  jobs_closed : bool;
  results : list Result;
  results_closed : bool;
  wg : Z;
  totalScanned : Z;
  workers : list WorkerPC;
  mainpc : MainPC;
  progressed : list string;
  panicked : bool
}.

Definition init : Pool :=
  mkPool [] false [] false 0 0 [] (MSpawn 0) [] false.

(** [atomic.AddUint32(&totalScanned, 1)] of [updateProgress] (lines
    326-329): the counter is a [uint32]. *)
Definition AddUint32 (x delta : Z) : Z := (x + delta) mod 2 ^ 32.

Definition set_main (pc : MainPC) (p : Pool) : Pool :=
  mkPool (jobs p) (jobs_closed p) (results p) (results_closed p) (wg p)
         (totalScanned p) (workers p) pc (progressed p) (panicked p).

Definition panic (p : Pool) : Pool :=
  mkPool (jobs p) (jobs_closed p) (results p) (results_closed p) (wg p)
         (totalScanned p) (workers p) (mainpc p) (progressed p) true.

(** One step of [main] (lines 219-243); [None] when it is blocked or has
    nothing left to do in the pool.  Both channels are made with capacity
    [len(subdomains)]; a send blocks while the buffer is full. *)
Definition main_step (cfg : Config) (p : Pool) : option Pool :=
  let cap := List.length (subdomains cfg) in
  match mainpc p with
  | MSpawn i =>
      if (i <? maxWorkers)%nat then
        Some (mkPool (jobs p) (jobs_closed p) (results p) (results_closed p)
                     (wg p + 1) (totalScanned p) (workers p ++ [AtRange])
                     (MSpawn (S i)) (progressed p) (panicked p))
      else Some (set_main (MFeed (subdomains cfg)) p)
  | MFeed [] => Some (set_main MCloseJobs p)
  | MFeed (sub :: rest) =>
      if jobs_closed p then Some (panic p)
      else if (List.length (jobs p) <? cap)%nat then
        Some (mkPool (jobs p ++ [sub]) (jobs_closed p) (results p) (results_closed p)
                     (wg p) (totalScanned p) (workers p) (MFeed rest)
                     (progressed p) (panicked p))
      else None
  | MCloseJobs =>
      if jobs_closed p then Some (panic p)
      else Some (mkPool (jobs p) true (results p) (results_closed p)
                        (wg p) (totalScanned p) (workers p) MWait
                        (progressed p) (panicked p))
  | MWait =>
      if wg p =? 0 then Some (set_main MCloseResults p) else None
  | MCloseResults =>
      if results_closed p then Some (panic p)
      else Some (mkPool (jobs p) (jobs_closed p) (results p) true
                        (wg p) (totalScanned p) (workers p) (MDrain [])
                        (progressed p) (panicked p))
  | MDrain allResults =>
      match results p with
      | res :: rest =>
          Some (mkPool (jobs p) (jobs_closed p) rest (results_closed p)
                       (wg p) (totalScanned p) (workers p)
                       (MDrain (if Reachable res then allResults ++ [res]
                                else allResults))
                       (progressed p) (panicked p))
      | [] => if results_closed p then Some (set_main (MSave allResults) p)
              else None
      end
  | MSave _ => None
  end.

Fixpoint set_nth {A} (i : nat) (x : A) (l : list A) : list A :=
  match l, i with
  | [], _ => []
  | _ :: t, O => x :: t
  | a :: t, S i' => a :: set_nth i' x t
  end.

Definition set_worker (i : nat) (pc : WorkerPC) (p : Pool) : Pool :=
  mkPool (jobs p) (jobs_closed p) (results p) (results_closed p) (wg p)
         (totalScanned p) (set_nth i pc (workers p)) (mainpc p)
         (progressed p) (panicked p).

(** One step of the [i]-th worker (lines 264-305).  The network calls of
    a round are one step, against a network [w] that the scheduler
    picks: the answers a round gets are not constrained by what the
    other workers do.  Sending on a closed channel and a negative
    wait-group counter panic. *)
Definition worker_step (cfg : Config) (i : nat) (w : World) (p : Pool)
  : option Pool :=
  let cap := List.length (subdomains cfg) in
  match nth_error (workers p) i with
  | None => None
  | Some AtRange =>
      match jobs p with
      | sub :: rest =>
          Some (mkPool rest (jobs_closed p) (results p) (results_closed p)
                       (wg p) (totalScanned p)
                       (set_nth i (AtLookup sub) (workers p)) (mainpc p)
                       (progressed p) (panicked p))
      | [] => if jobs_closed p then Some (set_worker i AtDone p) else None
      end
  | Some (AtLookup sub) =>
      match fst (scanJob (domain cfg) (ports cfg) sub w) with
      | None => Some (set_worker i (AtProgress sub) p)
      | Some result => Some (set_worker i (AtSend sub result) p)
      end
  | Some (AtSend sub result) =>
      if results_closed p then Some (panic p)
      else if (List.length (results p) <? cap)%nat then
        Some (mkPool (jobs p) (jobs_closed p) (results p ++ [result])
                     (results_closed p) (wg p) (totalScanned p)
                     (set_nth i (AtProgress sub) (workers p)) (mainpc p)
                     (progressed p) (panicked p))
      else None
  | Some (AtProgress sub) =>
      Some (mkPool (jobs p) (jobs_closed p) (results p) (results_closed p)
                   (wg p) (AddUint32 (totalScanned p) 1)
                   (set_nth i AtRange (workers p)) (mainpc p)
                   (progressed p ++ [sub]) (panicked p))
  | Some AtDone =>
      if wg p - 1 <? 0 then Some (panic p)
      else Some (mkPool (jobs p) (jobs_closed p) (results p) (results_closed p)
                        (wg p - 1) (totalScanned p)
                        (set_nth i Returned (workers p)) (mainpc p)
                        (progressed p) (panicked p))
  | Some Returned => None
  end.

(** The scheduler picks who moves; a panic stops the program. *)
Inductive Choice :=
| RunMain
| RunWorker (i : nat) (w : World).

Definition step (cfg : Config) (c : Choice) (p : Pool) : option Pool :=
  if panicked p then None
  else
    match c with
    | RunMain => main_step cfg p
    | RunWorker i w => worker_step cfg i w p
    end.

Fixpoint run (cfg : Config) (cs : list Choice) (p : Pool) : option Pool :=
  match cs with
  | [] => Some p
  | c :: rest =>
      match step cfg c p with
      | Some p' => run cfg rest p'
      | None => None
      end
  end.

Inductive reachable (cfg : Config) : Pool -> Prop :=
| reach_init : reachable cfg init
| reach_step : forall p c p',
    reachable cfg p -> step cfg c p = Some p' -> reachable cfg p'.

(** Pool shutdown: [main] is past [wg.Wait()]. *)
Definition shut_down (p : Pool) : bool :=
  match mainpc p with
  | MCloseResults | MDrain _ | MSave _ => true
  | _ => false
  end.

(** A worker that may still produce a result or touch the counter: any
    worker that has not run its deferred [wg.Done()]. *)
Definition returned (pc : WorkerPC) : bool :=
  match pc with Returned => true | _ => false end.

(** The aggregator is draining, or past it. *)
Definition draining (p : Pool) : bool :=
  match mainpc p with
  | MDrain _ | MSave _ => true
  | _ => false
  end.

(** *** Bookkeeping over pool states, used to state the invariants *)

(** The job a worker has taken from [jobs] and not yet counted. *)
Definition holding (pc : WorkerPC) : list string :=
  match pc with
  | AtLookup sub | AtSend sub _ | AtProgress sub => [sub]
  | _ => []
  end.

Definition alive_n (pc : WorkerPC) : nat :=
  if returned pc then 0 else 1.

Definition pending_n (pc : WorkerPC) : nat :=
  match pc with AtLookup _ | AtSend _ _ => 1 | _ => 0 end.

Definition at_progress_n (pc : WorkerPC) : nat :=
  match pc with AtProgress _ => 1 | _ => 0 end.

Definition exited (pc : WorkerPC) : bool :=
  match pc with AtDone | Returned => true | _ => false end.

Fixpoint total {A} (f : A -> nat) (l : list A) : nat :=
  match l with
  | [] => 0
  | a :: t => f a + total f t
  end.

(** The candidates [main] has not yet put on [jobs]. *)
Definition unfed (cfg : Config) (pc : MainPC) : list string :=
  match pc with
  | MSpawn _ => subdomains cfg
  | MFeed rest => rest
  | _ => []
  end.

Definition past_close (pc : MainPC) : bool :=
  match pc with
  | MSpawn _ | MFeed _ | MCloseJobs => false
  | _ => true
  end.

(** A bound on the number of steps left, for termination. *)
Definition main_weight (pc : MainPC) : nat :=
  match pc with
  | MSpawn i => 3 * (maxWorkers - i) + 6
  | MFeed _ => 5
  | MCloseJobs => 4
  | MWait => 3
  | MCloseResults => 2
  | MDrain _ => 1
  | MSave _ => 0
  end.

Definition worker_weight (pc : WorkerPC) : nat :=
  match pc with
  | AtLookup _ => 6
  | AtSend _ _ => 5
  | AtProgress _ => 3
  | AtRange => 2
  | AtDone => 1
  | Returned => 0
  end.

Definition steps_left (cfg : Config) (p : Pool) : nat :=
  if panicked p then 0
  else 1 + main_weight (mainpc p) + 6 * List.length (unfed cfg (mainpc p))
       + 5 * List.length (jobs p) + total worker_weight (workers p)
       + List.length (results p).

(** The pool after the [i]-th worker counted the job [sub]. *)
Definition counted (i : nat) (sub : string) (p : Pool) : Pool :=
  mkPool (jobs p) (jobs_closed p) (results p) (results_closed p) (wg p)
         (AddUint32 (totalScanned p) 1) (set_nth i AtRange (workers p))
         (mainpc p) (progressed p ++ [sub]) (panicked p).

(** The pool after the [i]-th worker sent [result] for the job [sub]. *)
Definition sent (i : nat) (sub : string) (result : Result) (p : Pool) : Pool :=
  mkPool (jobs p) (jobs_closed p) (results p ++ [result]) (results_closed p)
         (wg p) (totalScanned p) (set_nth i (AtProgress sub) (workers p))
         (mainpc p) (progressed p) (panicked p).

Definition occ (x : string) (l : list string) : nat := count_occ string_dec l x.

(** The invariant of the pool: no panic; the wait group counts the
    workers that have not returned; every candidate is in exactly one
    place (not yet fed, on [jobs], in a worker's hand, or counted); the
    counter is the number of counted jobs modulo [2^32]; [jobs] is closed
    once [main] has fed it all, and empty once a worker has left its loop;
    [results] is closed only while [main] drains; past [wg.Wait()] the
    wait group is at zero; and [results] never holds more than the jobs
    that are counted or about to be. *)
Record Inv (cfg : Config) (p : Pool) : Prop := {
  inv_panic : panicked p = false;
  inv_wg : wg p = Z.of_nat (total alive_n (workers p));
  inv_occ : forall x,
    (occ x (unfed cfg (mainpc p)) + occ x (jobs p)
     + total (fun pc => occ x (holding pc)) (workers p)
     + occ x (progressed p) = occ x (subdomains cfg))%nat;
  inv_len :
    (List.length (unfed cfg (mainpc p)) + List.length (jobs p)
     + total pending_n (workers p) + total at_progress_n (workers p)
     + List.length (progressed p) = List.length (subdomains cfg))%nat;
  inv_counter :
    totalScanned p = Z.of_nat (List.length (progressed p)) mod 2 ^ 32;
  inv_closed : jobs_closed p = past_close (mainpc p);
  inv_exited : forall pc, In pc (workers p) -> exited pc = true ->
                          jobs p = [] /\ jobs_closed p = true;
  inv_rclosed : results_closed p = draining p;
  inv_shut : shut_down p = true -> wg p = 0;
  inv_spawned : match mainpc p with
                | MSpawn i => List.length (workers p) = i /\ (i <= maxWorkers)%nat
                | _ => List.length (workers p) = maxWorkers
                end;
  inv_cap : (List.length (results p)
             <= total at_progress_n (workers p) + List.length (progressed p))%nat
}.

(** A network that answers nothing, to run a worker step against. *)
Definition silent : World :=
  mkWorld (fun _ _ => None) (fun _ _ => mkDial false 0) 0 [].

(** A small network and a run of the pool over it, for examples. *)
Definition ip_www : IP := [Byte.x5d; Byte.xb8; Byte.xd8; Byte.x22].
Definition ip_v6 : IP :=
  [Byte.x26; Byte.x06; Byte.x28; Byte.x00; Byte.x02; Byte.x20; Byte.x00; Byte.x01;
   Byte.x02; Byte.x48; Byte.x18; Byte.x93; Byte.x25; Byte.xc8; Byte.x19; Byte.x46].
Definition ip_mail : IP :=
  (repeat Byte.x00 10
   ++ [Byte.xff; Byte.xff; Byte.x0a; Byte.x00; Byte.x00; Byte.x07])%list.

Definition demo_world : World :=
  mkWorld
    (fun _ host =>
       if String.eqb host "www.example.com" then Some [ip_v6; ip_www]
       else if String.eqb host "mail.example.com" then Some [ip_mail]
       else if String.eqb host "v6.example.com" then Some [ip_v6]
       else if String.eqb host "empty.example.com" then Some []
       else None)
    (fun _ addr =>
       if String.eqb addr "93.184.216.34:80" then mkDial true 1700000
       else if String.eqb addr "www.example.com:80" then mkDial true 900000
       else mkDial false 2000000000)
    0 [].

Definition demo_config : Config :=
  mkConfig "example.com" ["80"; "443"] ["www"; "nope"; "mail"].

Definition demo_schedule : list Choice :=
  (repeat RunMain 206
   ++ map (fun i => RunWorker i demo_world) [0; 1; 2; 2; 1; 0; 1; 2; 0; 0; 2]%nat
   ++ flat_map (fun i => [RunWorker i silent; RunWorker i silent]) (seq 0 200)
   ++ repeat RunMain 5)%list.

Definition demo_final : Pool :=
  match run demo_config demo_schedule init with
  | Some p => p
  | None => init
  end.

(** A network on which every connection takes 0.7 ms. *)
Definition fast_world : World :=
  mkWorld (fun _ _ => None) (fun _ _ => mkDial true 700000) 0 [].

(** A candidate list as long as the range of the counter. *)
Definition wrap_config : Config :=
  mkConfig "example.com" [] (repeat "a" (Z.to_nat (2 ^ 32))).

(* ===================================================================== *)
(** ** [saveResults] over a file store *)
(* ===================================================================== *)

(** Files by name.  [os.ReadFile] fails on a missing file; the error of
    [os.WriteFile] is discarded by the program and a write that fails is
    outside the model. *)
Definition FS (Data : Type) : Type := string -> option Data.

Definition ReadFile {Data} (name : string) (fs : FS Data) : option Data := fs name.

Definition WriteFile {Data} (name : string) (data : Data) (fs : FS Data) : FS Data :=
  fun n => if String.eqb n name then Some data else fs n.

Section Persistence.

(** Package [encoding/json] is taken as given: [MarshalIndent] may fail,
    [Unmarshal] returns what it leaves in the target (which starts as
    nil) together with whether it reported an error. *)
Variable Data : Type.
Variable MarshalIndent : list Result -> option Data.
Variable Unmarshal : Data -> list Result * bool.

(** [saveResults] (lines 373-391). *)
Definition saveResults (newResults : list Result) (fs : FS Data) : FS Data :=
  let existingResults :=
    match ReadFile resultFile fs with
    | Some data => fst (Unmarshal data)
    | None => []
    end in
  let existingResults := (existingResults ++ newResults)%list in
  match MarshalIndent existingResults with
  | None => fs
  | Some data => WriteFile resultFile data fs
  end.

(** The result sequence a store holds: what a run reads back from it. *)
Definition stored (fs : FS Data) : list Result :=
  match ReadFile resultFile fs with
  | Some data => fst (Unmarshal data)
  | None => []
  end.

End Persistence.

(** The first program of the file (lines 1-170): the same pool without
    addresses and latency, and a [saveResults] that does not read. *)
Module Earlier.

Record Result := mkResult {
  Host : string;
  Reachable : bool;
  OpenPorts : list string
}.

Definition resultFile : string := "subdomain-results.json".

Section Persistence.
Variable Data : Type.
Variable MarshalIndent : list Result -> option Data.
Variable Unmarshal : Data -> list Result * bool.

(** [saveResults] (lines 163-170). *)
Definition saveResults (results : list Result) (fs : FS Data) : FS Data :=
  match MarshalIndent results with
  | None => fs
  | Some data => WriteFile resultFile data fs
  end.

Definition stored (fs : FS Data) : list Result :=
  match ReadFile resultFile fs with
  | Some data => fst (Unmarshal data)
  | None => []
  end.
End Persistence.

End Earlier.

(** A codec for examples: the data is the sequence itself. *)
Definition plain_marshal {R} (rs : list R) : option (list R) := Some rs.
Definition plain_unmarshal {R} (d : list R) : list R * bool := (d, false).

(** Stored results, for examples. *)
Definition demo_result (host : string) : Result :=
  mkResult host "10.0.0.7" 0 true [].
Definition earlier_a : Earlier.Result :=
  Earlier.mkResult "a.example.com" true [].
Definition earlier_b : Earlier.Result :=
  Earlier.mkResult "b.example.com" true ["80"].

(* ===================================================================== *)
(** ** The pool, step by step, and what it hands on *)
(* ===================================================================== *)

(** *** The moves of the pool, one constructor per statement reached *)

(** [Moves cfg c p p']: under the choice [c] the pool goes from [p] to
    [p'] without a panic. *)
Inductive Moves (cfg : Config) : Choice -> Pool -> Pool -> Prop :=
| Move_spawn : forall p i,
    mainpc p = MSpawn i -> (i < maxWorkers)%nat ->
    Moves cfg RunMain p
      (mkPool (jobs p) (jobs_closed p) (results p) (results_closed p)
              (wg p + 1) (totalScanned p) (workers p ++ [AtRange])
              (MSpawn (S i)) (progressed p) (panicked p))
| Move_spawned : forall p i,
    mainpc p = MSpawn i -> (maxWorkers <= i)%nat ->
    Moves cfg RunMain p (set_main (MFeed (subdomains cfg)) p)
| Move_feed : forall p sub rest,
    mainpc p = MFeed (sub :: rest) ->
    Moves cfg RunMain p
      (mkPool (jobs p ++ [sub]) (jobs_closed p) (results p) (results_closed p)
              (wg p) (totalScanned p) (workers p) (MFeed rest)
              (progressed p) (panicked p))
| Move_fed : forall p,
    mainpc p = MFeed [] ->
    Moves cfg RunMain p (set_main MCloseJobs p)
| Move_close_jobs : forall p,
    mainpc p = MCloseJobs ->
    Moves cfg RunMain p
      (mkPool (jobs p) true (results p) (results_closed p)
              (wg p) (totalScanned p) (workers p) MWait
              (progressed p) (panicked p))
| Move_wait : forall p,
    mainpc p = MWait -> wg p = 0 ->
    Moves cfg RunMain p (set_main MCloseResults p)
| Move_close_results : forall p,
    mainpc p = MCloseResults ->
    Moves cfg RunMain p
      (mkPool (jobs p) (jobs_closed p) (results p) true
              (wg p) (totalScanned p) (workers p) (MDrain [])
              (progressed p) (panicked p))
| Move_drain : forall p allResults res rest,
    mainpc p = MDrain allResults -> results p = res :: rest ->
    Moves cfg RunMain p
      (mkPool (jobs p) (jobs_closed p) rest (results_closed p)
              (wg p) (totalScanned p) (workers p)
              (MDrain (if Reachable res then allResults ++ [res] else allResults))
              (progressed p) (panicked p))
| Move_drained : forall p allResults,
    mainpc p = MDrain allResults -> results p = [] ->
    Moves cfg RunMain p (set_main (MSave allResults) p)
| Move_receive : forall p i w sub rest,
    nth_error (workers p) i = Some AtRange -> jobs p = sub :: rest ->
    Moves cfg (RunWorker i w) p
      (mkPool rest (jobs_closed p) (results p) (results_closed p)
              (wg p) (totalScanned p)
              (set_nth i (AtLookup sub) (workers p)) (mainpc p)
              (progressed p) (panicked p))
| Move_leave : forall p i w,
    nth_error (workers p) i = Some AtRange -> jobs p = [] ->
    jobs_closed p = true ->
    Moves cfg (RunWorker i w) p (set_worker i AtDone p)
| Move_unresolved : forall p i w sub,
    nth_error (workers p) i = Some (AtLookup sub) ->
    fst (scanJob (domain cfg) (ports cfg) sub w) = None ->
    Moves cfg (RunWorker i w) p (set_worker i (AtProgress sub) p)
| Move_resolved : forall p i w sub result,
    nth_error (workers p) i = Some (AtLookup sub) ->
    fst (scanJob (domain cfg) (ports cfg) sub w) = Some result ->
    Moves cfg (RunWorker i w) p (set_worker i (AtSend sub result) p)
| Move_send : forall p i w sub result,
    nth_error (workers p) i = Some (AtSend sub result) ->
    Moves cfg (RunWorker i w) p (sent i sub result p)
| Move_count : forall p i w sub,
    nth_error (workers p) i = Some (AtProgress sub) ->
    Moves cfg (RunWorker i w) p (counted i sub p)
| Move_done : forall p i w,
    nth_error (workers p) i = Some AtDone ->
    Moves cfg (RunWorker i w) p
      (mkPool (jobs p) (jobs_closed p) (results p) (results_closed p)
              (wg p - 1) (totalScanned p)
              (set_nth i Returned (workers p)) (mainpc p)
              (progressed p) (panicked p)).

(** *** What the pool hands to [saveResults] *)

(** The slice [allResults] of [main], empty before the drain. *)
Definition acc_of (pc : MainPC) : list Result :=
  match pc with
  | MDrain allResults | MSave allResults => allResults
  | _ => []
  end.

(** The result a worker is about to send. *)
Definition out_of (pc : WorkerPC) : list Result :=
  match pc with AtSend _ result => [result] | _ => [] end.

(** The job a worker has scanned and not yet counted. *)
Definition done_of (pc : WorkerPC) : list string :=
  match pc with AtSend sub _ | AtProgress sub => [sub] | _ => [] end.

(** A result as [worker] builds it for a candidate of the list. *)
Definition well_formed (cfg : Config) (r : Result) : Prop :=
  Reachable r = true
  /\ (exists sub, In sub (subdomains cfg) /\ Host r = sub ++ "." ++ domain cfg)
  /\ IPAddress r <> ""
  /\ incl (OpenPorts r) (ports cfg).

(** Results can be told apart, so they can be counted. *)
Definition Q_eq_dec (a b : Q) : {a = b} + {a <> b}.
Proof. decide equality; [apply Pos.eq_dec | apply Z.eq_dec]. Defined.

Definition Result_eq_dec (a b : Result) : {a = b} + {a <> b}.
Proof.
  decide equality;
    first [ apply string_dec | apply Q_eq_dec | apply bool_dec
          | apply (list_eq_dec string_dec) ].
Defined.

Definition occR (x : Result) (l : list Result) : nat :=
  count_occ Result_eq_dec l x.

(** A network whose answers depend on the host and the address only, not
    on when they are asked. *)
Definition steady (L : string -> option (list IP)) (D : string -> DialAnswer)
  (w : World) : Prop :=
  forall k x, lookup_answer w k x = L x /\ dial_answer w k x = D x.

(** A choice of the scheduler on such a network. *)
Definition calm (L : string -> option (list IP)) (D : string -> DialAnswer)
  (c : Choice) : Prop :=
  match c with
  | RunMain => True
  | RunWorker _ w => steady L D w
  end.

(** The result of a round on the steady network [L], [D]. *)
Definition scan (L : string -> option (list IP)) (D : string -> DialAnswer)
  (cfg : Config) (sub : string) : option Result :=
  fst (scanJob (domain cfg) (ports cfg) sub
         (mkWorld (fun _ => L) (fun _ => D) 0 [])).

(** The results of scanning the candidates one by one. *)
Definition expected (L : string -> option (list IP)) (D : string -> DialAnswer)
  (cfg : Config) (subs : list string) : list Result :=
  flat_map (fun sub => match scan L D cfg sub with
                       | Some r => [r]
                       | None => []
                       end) subs.

(** Every result is for the job it was made from, and the results made
    are never more than the jobs scanned, host by host and in all. *)
Record Tally (cfg : Config) (p : Pool) : Prop := {
  tally_send : forall pc sub r, In pc (workers p) -> pc = AtSend sub r ->
                                Host r = sub ++ "." ++ domain cfg;
  tally_hosts : forall h,
    (occ h (map Host (acc_of (mainpc p))) + occ h (map Host (results p))
     + total (fun pc => occ h (map Host (out_of pc))) (workers p)
     <= occ h (map (fun sub => sub ++ "." ++ domain cfg) (progressed p))
        + total (fun pc => occ h (map (fun sub => sub ++ "." ++ domain cfg)
                                      (done_of pc))) (workers p))%nat;
  tally_length :
    (List.length (acc_of (mainpc p)) + List.length (results p)
     + total (fun pc => List.length (out_of pc)) (workers p)
     <= List.length (progressed p)
        + total (fun pc => List.length (done_of pc)) (workers p))%nat
}.

(** Every result in the pool is one [worker] builds for a candidate. *)
Record Sound (cfg : Config) (p : Pool) : Prop := {
  sound_results : Forall (well_formed cfg) (results p);
  sound_acc : Forall (well_formed cfg) (acc_of (mainpc p));
  sound_send : forall pc sub r, In pc (workers p) -> pc = AtSend sub r ->
                                well_formed cfg r
}.

(** On a steady network the results made are those of the jobs scanned. *)
Record Faithful (L : string -> option (list IP)) (D : string -> DialAnswer)
  (cfg : Config) (p : Pool) : Prop := {
  faithful_send : forall pc sub r, In pc (workers p) -> pc = AtSend sub r ->
                                   scan L D cfg sub = Some r;
  faithful_count : forall x,
    (occR x (acc_of (mainpc p)) + occR x (results p)
     + total (fun pc => occR x (out_of pc)) (workers p)
     = occR x (expected L D cfg (progressed p))
       + total (fun pc => occR x (expected L D cfg (done_of pc))) (workers p))%nat
}.

(** The example run again, every round on the example network. *)
Definition calm_schedule : list Choice :=
  (repeat RunMain 206
   ++ map (fun i => RunWorker i demo_world) [0; 1; 2; 2; 1; 0; 1; 2; 0; 0; 2]%nat
   ++ flat_map (fun i => [RunWorker i demo_world; RunWorker i demo_world])
               (seq 0 200)
   ++ repeat RunMain 5)%list.

(** The example pool when [main] has fed the queue and waits. *)
Definition demo_waiting : Pool :=
  match run demo_config (repeat RunMain 206) init with
  | Some p => p
  | None => init
  end.

(** The pool at the end of that run. *)
Definition calm_final : Pool :=
  match run demo_config calm_schedule init with
  | Some p => p
  | None => init
  end.

(** The calls a round for [host] may make, given what it sends: the
    lookup of the host, and dials over TCP under the two-second limit to
    port 80 of the address it reports or to a requested port of the host. *)
Definition round_call (host : string) (ports : list string) (sent : option Result)
  (e : Event) : Prop :=
  match e with
  | EvLookupIP h _ => h = host
  | EvDial network address limit _ =>
      network = "tcp" /\ limit = timeout
      /\ ((exists r, sent = Some r /\ address = JoinHostPort (IPAddress r) "80")
          \/ exists port, In port ports /\ address = JoinHostPort host port)
  end.

(* ===================================================================== *)
(** ** [readSubdomains] *)
(* ===================================================================== *)

(** [bytes.IndexByte]: the index of the first [c], [-1] when there is none. *)
Fixpoint IndexByte (s : string) (c : ascii) : Z :=
  match s with
  | EmptyString => -1
  | String a t =>
      if Ascii.eqb a c then 0
      else let i := IndexByte t c in if i <? 0 then -1 else i + 1
  end.

(** [dropCR] of package [bufio]: drop a final carriage return. *)
Definition dropCR (data : string) : string :=
  let n := Z.of_nat (String.length data) in
  if (0 <? n) && (byteAt data (n - 1) =? 13)
  then take (Z.to_nat (n - 1)) data
  else data.

(** [bufio.MaxScanTokenSize], the size the buffer of a [Scanner] made by
    [NewScanner] grows to. *)
Definition MaxScanTokenSize : Z := 64 * 1024.

(** The errors of [readSubdomains]: the one of [os.Open] and the
    [bufio.ErrTooLong] of the scanner.  The file, once open, is taken to
    be read to its end without a read error. *)
Inductive ReadError := OpenError | ErrTooLong.

(** One call of [scanner.Scan()] with the split function [ScanLines];
    [rest] is the part of the file from the end of the last token.  The
    scanner finds the newline of a line when it is among the first
    [MaxScanTokenSize] bytes, and it takes what is left at the end of
    the file as a last line when the buffer still has room to see the
    end; otherwise it stops with [ErrTooLong]. *)
Inductive Scanned :=
| Token (text : string) (rest : string)
| Stop (err : option ReadError).

Definition Scan (rest : string) : Scanned :=
  if String.eqb rest "" then Stop None
  else
    let i := IndexByte rest "010" in
    if 0 <=? i then
      if i <? MaxScanTokenSize
      then Token (dropCR (take (Z.to_nat i) rest)) (drop (Z.to_nat (i + 1)) rest)
      else Stop (Some ErrTooLong)
    else
      if Z.of_nat (String.length rest) <? MaxScanTokenSize
      then Token (dropCR rest) ""
      else Stop (Some ErrTooLong).

(** The loop of [readSubdomains] (lines 363-368) with the value of
    [scanner.Err()] after it; every token is taken from a non-empty
    rest, so [length rest] rounds are enough. *)
Fixpoint readSubdomains_loop (fuel : nat) (rest : string) (subs : list string)
  : list string * option ReadError :=
  match fuel with
  | O => (subs, None)
  | S fuel' =>
      match Scan rest with
      | Stop err => (subs, err)
      | Token text rest' =>
          let line := TrimSpace text in
          if String.eqb line ""
          then readSubdomains_loop fuel' rest' subs
          else readSubdomains_loop fuel' rest' (subs ++ [line])
      end
  end.

(** [readSubdomains] (lines 355-371); [None] is a file [os.Open] fails
    on, [Some content] one it opens. *)
Definition readSubdomains (file : option string) : list string * option ReadError :=
  match file with
  | None => ([], Some OpenError)
  | Some content => readSubdomains_loop (S (String.length content)) content []
  end.

(** A line fits the buffer of the scanner. *)
Definition fits (line : string) : bool :=
  Z.of_nat (String.length line) <? MaxScanTokenSize.

(** The lines of a file the scanner delivers, cut at the first one that
    does not fit: what is between two newlines, and what follows the
    last one when it is not empty. *)
Fixpoint lines_read (segments : list string) : list string * option ReadError :=
  match segments with
  | [] => ([], None)
  | [final] =>
      if String.eqb final "" then ([], None)
      else if fits final then ([final], None) else ([], Some ErrTooLong)
  | line :: more =>
      if fits line
      then let '(ls, err) := lines_read more in (line :: ls, err)
      else ([], Some ErrTooLong)
  end.

(** The entries [readSubdomains] keeps of the lines. *)
Definition entries (ls : list string) : list string :=
  filter (fun p => negb (String.eqb p "")) (map TrimSpace ls).

(** A line of [n] bytes, for examples. *)
Fixpoint replicate (n : nat) (c : ascii) : string :=
  match n with
  | O => EmptyString
  | S n' => String c (replicate n' c)
  end.

(** The newline and the carriage return. *)
Definition nl : string := String "010" "".
Definition cr : string := String "013" "".

(** A line that does not fit the scanner. *)
Definition long_line : string := replicate (Z.to_nat MaxScanTokenSize) "a".

(* ===================================================================== *)
(** ** [main]: from the inputs to the result file *)
(* ===================================================================== *)

Section Program.

Variable Data : Type.
Variable MarshalIndent : list Result -> option Data.
Variable Unmarshal : Data -> list Result * bool.

(** [main] (lines 203-243) without what it prints: [domain] and
    [portInput] are what [fmt.Scanln] read, [wordlist] is the content of
    the candidate file, [None] when it cannot be opened, and [cs] is the
    schedule of the goroutines of the pool.  The value is the file store
    [main] leaves; [None] stands for a schedule that does not take the
    pool to [saveResults]. *)
Definition main (domain portInput : string) (wordlist : option string)
  (cs : list Choice) (fs : FS Data) : option (FS Data) :=
  let ports := parsePorts portInput in
  let '(subdomains, err) := readSubdomains wordlist in
  match err with
  | Some _ => Some fs
  | None =>
      match run (mkConfig domain ports subdomains) cs init with
      | Some p =>
          match mainpc p with
          | MSave allResults =>
              Some (saveResults Data MarshalIndent Unmarshal allResults fs)
          | _ => None
          end
      | None => None
      end
  end.

End Program.

(** The inputs of the example run. *)
Definition demo_wordlist : string :=
  "www" ++ cr ++ nl ++ "nope" ++ nl ++ nl ++ " mail" ++ nl.

(* ===================================================================== *)
(** ** The [worker] of the first program (lines 91-114) *)
(* ===================================================================== *)

(** The first program resolves with [net.LookupHost], which answers with
    the texts of the addresses, keeps no address and samples no latency. *)
Module EarlierWorker.

Inductive Event :=
| EvLookupHost (host : string) (answer : option (list string))
| EvDial (network address : string) (limit : Z) (answer : DialAnswer).

Record World := mkWorld {
  host_answer : nat -> string -> option (list string);
  dial_answer : nat -> string -> DialAnswer;
  tick : nat;
  trace : list Event
}.

Definition record (e : Event) (w : World) : World :=
  mkWorld (host_answer w) (dial_answer w) (S (tick w)) (trace w ++ [e]).

Definition LookupHost (host : string) (w : World) : option (list string) * World :=
  let a := host_answer w (tick w) host in (a, record (EvLookupHost host a) w).

Definition DialTimeout (network address : string) (limit : Z) (w : World)
  : DialAnswer * World :=
  let a := dial_answer w (tick w) address in
  (a, record (EvDial network address limit a) w).

(** [isPortOpen] (lines 121-128). *)
Definition isPortOpen (host port : string) (w : World) : bool * World :=
  let '(a, w') := DialTimeout "tcp" (JoinHostPort host port) timeout w in
  if connected a then (true, w') else (false, w').

(** The loop over [ports] (lines 103-107). *)
Fixpoint probePorts (fullHost : string) (ports : list string) (open : list string)
  (w : World) : list string * World :=
  match ports with
  | [] => (open, w)
  | port :: rest =>
      let '(ok, w') := isPortOpen fullHost port w in
      if ok then probePorts fullHost rest (open ++ [port]) w'
      else probePorts fullHost rest open w'
  end.

(** One round of the loop of [worker] (lines 93-110), up to the value
    sent on [results]; [None] is a round that reaches [continue]. *)
Definition scanJob (domain : string) (ports : list string) (sub : string)
  (w : World) : option Earlier.Result * World :=
  let fullHost := sub ++ "." ++ domain in
  let '(answer, w1) := LookupHost fullHost w in
  match answer with
  | None => (None, w1)
  | Some ipAddrs =>
      if (List.length ipAddrs =? 0)%nat then (None, w1)
      else
        let '(open, w2) :=
          if (0 <? List.length ports)%nat
          then probePorts fullHost ports [] w1
          else ([], w1) in
        (Some (Earlier.mkResult fullHost true open), w2)
  end.

(** The ports that answer, and the dials made, from call [k] on. *)
Fixpoint open_ports (w : World) (k : nat) (host : string) (ports : list string)
  : list string :=
  match ports with
  | [] => []
  | port :: rest =>
      if connected (dial_answer w k (JoinHostPort host port))
      then port :: open_ports w (S k) host rest
      else open_ports w (S k) host rest
  end.

Fixpoint dial_events (w : World) (k : nat) (host : string) (ports : list string)
  : list Event :=
  match ports with
  | [] => []
  | port :: rest =>
      EvDial "tcp" (JoinHostPort host port) timeout
             (dial_answer w k (JoinHostPort host port))
      :: dial_events w (S k) host rest
  end.

Definition after (w : World) (evs : list Event) : World :=
  mkWorld (host_answer w) (dial_answer w) (tick w + List.length evs)%nat
          (trace w ++ evs).

End EarlierWorker.

(* ===================================================================== *)
(** * Properties *)
(* ===================================================================== *)

(** ** [parsePorts] *)

Lemma Split_cons : forall s sep, exists h tl, Split s sep = h :: tl.
Proof.
  induction s as [|c t IH]; intros sep; simpl.
  - now exists "", [].
  - destruct (Ascii.eqb c sep).
    + now exists "", (Split t sep).
    + destruct (IH sep) as (h & tl & E). rewrite E. now exists (String c h), tl.
Qed.

Lemma first_range : forall s0 sz lo hi,
  first s0 = Some (sz, lo, hi) ->
  (sz = 2 \/ sz = 3 \/ sz = 4)%nat /\ 0x80 <= lo /\ hi <= 0xBF.
Proof.
  intros s0 sz lo hi. unfold first.
  repeat match goal with
         | |- context [if ?b then _ else _] => destruct b
         end; intros H; inversion H; subst; lia.
Qed.

Lemma byteZ_comma : byteZ "," = 44.
Proof. reflexivity. Qed.

Lemma high_byte_not_comma : forall c, 0x80 <= byteZ c -> Ascii.eqb c "," = false.
Proof.
  intros c H. destruct (Ascii.eqb_spec c ","); [subst; rewrite byteZ_comma in H; lia | reflexivity].
Qed.

Ltac shape_split :=
  split; [reflexivity|]; split; [eexists; reflexivity|];
  split; [reflexivity|]; split; [|split; [intros; reflexivity|]].

(** A white-space rune at the head of a string: its bytes hold no comma,
    and they decode alike whatever follows them. *)
Lemma decode_space_shape : forall c t r size,
  DecodeRuneInString (String c t) = (r, size) ->
  IsSpace r = true ->
  exists pre,
    String c t = pre ++ drop size (String c t)
    /\ (exists p', pre = String c p')
    /\ String.length pre = size
    /\ (forall x, DecodeRuneInString (pre ++ x) = (r, size))
    /\ (forall x, drop size (pre ++ x) = x)
    /\ (forall x h tl, Split x "," = h :: tl -> Split (pre ++ x) "," = (pre ++ h) :: tl).
Proof.
  intros c t r size D Sp.
  unfold DecodeRuneInString in D.
  destruct (byteZ c <? RuneSelf) eqn:A.
  - inversion D; subst r size; clear D.
    exists (String c "").
    assert (NC : Ascii.eqb c "," = false).
    { destruct (Ascii.eqb_spec c ","); [subst; discriminate Sp | reflexivity]. }
    shape_split.
    + intros x. simpl. unfold DecodeRuneInString. now rewrite A.
    + intros x h tl E. simpl. now rewrite NC, E.
  - destruct (first (byteZ c)) as [[[sz lo] hi]|] eqn:F;
      [| inversion D; subst; discriminate Sp].
    destruct (first_range _ _ _ _ F) as (Hsz & Hlo & Hhi).
    destruct (String.length (String c t) <? sz)%nat eqn:L;
      [inversion D; subst; discriminate Sp|].
    destruct t as [|c1 t1]; [inversion D; subst; discriminate Sp|].
    destruct ((byteZ c1 <? lo) || (hi <? byteZ c1)) eqn:R1;
      [inversion D; subst; discriminate Sp|].
    apply orb_false_elim in R1. destruct R1 as [R1a R1b].
    apply Z.ltb_ge in R1a, R1b.
    assert (N0 : Ascii.eqb c "," = false).
    { apply high_byte_not_comma. apply Z.ltb_ge in A. exact A. }
    assert (N1 : Ascii.eqb c1 "," = false) by (apply high_byte_not_comma; lia).
    destruct (sz <=? 2)%nat eqn:S2.
    { inversion D; subst r size; clear D.
      exists (String c (String c1 "")). shape_split.
      - intros x. cbn [append]. unfold DecodeRuneInString.
        rewrite A, F.
        replace (String.length (String c (String c1 x)) <? sz)%nat with false
          by (symmetry; apply Nat.ltb_ge; apply Nat.leb_le in S2; simpl; lia).
        replace ((byteZ c1 <? lo) || (hi <? byteZ c1)) with false
          by (symmetry; apply orb_false_intro; apply Z.ltb_ge; lia).
        now rewrite S2.
      - intros x h tl E. cbn [append Split]. now rewrite N0, N1, E. }
    destruct t1 as [|c2 t2]; [inversion D; subst; discriminate Sp|].
    destruct (continuation (byteZ c2)) eqn:C2; cbn [negb] in D;
      [|inversion D; subst; discriminate Sp].
    assert (N2 : Ascii.eqb c2 "," = false).
    { apply high_byte_not_comma. unfold continuation in C2.
      apply andb_prop in C2. destruct C2 as [C2 _]. apply Z.leb_le in C2. exact C2. }
    destruct (sz <=? 3)%nat eqn:S3.
    { inversion D; subst r size; clear D.
      exists (String c (String c1 (String c2 ""))). shape_split.
      - intros x. cbn [append]. unfold DecodeRuneInString.
        rewrite A, F.
        replace (String.length (String c (String c1 (String c2 x))) <? sz)%nat with false
          by (symmetry; apply Nat.ltb_ge; apply Nat.leb_le in S3; simpl; lia).
        replace ((byteZ c1 <? lo) || (hi <? byteZ c1)) with false
          by (symmetry; apply orb_false_intro; apply Z.ltb_ge; lia).
        now rewrite S2, C2, S3.
      - intros x h tl E. cbn [append Split]. now rewrite N0, N1, N2, E. }
    destruct t2 as [|c3 t3]; [inversion D; subst; discriminate Sp|].
    destruct (continuation (byteZ c3)) eqn:C3; cbn [negb] in D;
      [|inversion D; subst; discriminate Sp].
    assert (N3 : Ascii.eqb c3 "," = false).
    { apply high_byte_not_comma. unfold continuation in C3.
      apply andb_prop in C3. destruct C3 as [C3 _]. apply Z.leb_le in C3. exact C3. }
    inversion D; subst r size; clear D.
    exists (String c (String c1 (String c2 (String c3 "")))). shape_split.
    + intros x. cbn [append]. unfold DecodeRuneInString.
      rewrite A, F.
      replace (String.length (String c (String c1 (String c2 (String c3 x)))) <? sz)%nat with false
        by (symmetry; apply Nat.ltb_ge; simpl; lia).
      replace ((byteZ c1 <? lo) || (hi <? byteZ c1)) with false
        by (symmetry; apply orb_false_intro; apply Z.ltb_ge; lia).
      now rewrite S2, C2, S3, C3.
    + intros x h tl E. cbn [append Split]. now rewrite N0, N1, N2, N3, E.
Qed.

Lemma length_append : forall a b, String.length (a ++ b) = (String.length a + String.length b)%nat.
Proof. induction a as [|c a IH]; intros b; simpl; [reflexivity | now rewrite IH]. Qed.

Lemma trimLeftSpace_empty : forall n, trimLeftSpace n "" = "".
Proof. destruct n; reflexivity. Qed.

Lemma TrimSpace_of_blank : forall h,
  (forall n, (String.length h <= n)%nat -> trimLeftSpace n h = "") ->
  TrimSpace h = "".
Proof.
  intros h H. unfold TrimSpace, TrimLeftSpace. rewrite H by lia. reflexivity.
Qed.

(** Split at the commas, a string of commas and white space has only
    segments that trim to the empty string. *)
Lemma blankRunes_Split : forall fuel s,
  blankRunes fuel s = true ->
  exists h tl,
    Split s "," = h :: tl
    /\ (forall n, (String.length h <= n)%nat -> trimLeftSpace n h = "")
    /\ Forall (fun seg => TrimSpace seg = "") tl.
Proof.
  induction fuel as [|fuel IH]; intros s B.
  - destruct s; [|discriminate B].
    exists "", []. repeat split; auto. intros; apply trimLeftSpace_empty.
  - destruct s as [|c t].
    { exists "", []. repeat split; auto. intros; apply trimLeftSpace_empty. }
    cbn [blankRunes] in B.
    destruct (Ascii.eqb c ",") eqn:E.
    + destruct (IH _ B) as (h & tl & Sp & Hh & Htl).
      exists "", (h :: tl). cbn [Split]. rewrite E, Sp.
      repeat split.
      * intros; apply trimLeftSpace_empty.
      * constructor; [apply TrimSpace_of_blank; exact Hh | exact Htl].
    + destruct (DecodeRuneInString (String c t)) as [r size] eqn:D.
      apply andb_prop in B. destruct B as [Sp B].
      destruct (decode_space_shape _ _ _ _ D Sp)
        as (pre & Eq & (p' & Epre) & Len & Dec & Dr & Spl).
      destruct (IH _ B) as (h & tl & Sph & Hh & Htl).
      exists (pre ++ h), tl. rewrite Eq at 1.
      rewrite (Spl _ _ _ Sph). repeat split; [|exact Htl].
      intros n Hn. rewrite length_append in Hn.
      destruct n as [|n]; [subst pre; simpl in Hn; lia|].
      cbn [trimLeftSpace]. rewrite Dec, Sp, Dr.
      replace (pre ++ h) with (String c (p' ++ h)) by (subst pre; reflexivity).
      apply Hh. subst pre. simpl in Hn. lia.
Qed.

Lemma parsePorts_loop_filter : forall parts acc,
  parsePorts_loop parts acc =
  (acc ++ filter (fun p => negb (String.eqb p "")) (map TrimSpace parts))%list.
Proof.
  induction parts as [|p rest IH]; intros acc; simpl.
  - now rewrite app_nil_r.
  - destruct (String.eqb (TrimSpace p) ""); simpl; rewrite IH; [reflexivity|].
    now rewrite <- app_assoc.
Qed.

Lemma filter_all_blank : forall parts,
  Forall (fun seg => TrimSpace seg = "") parts ->
  filter (fun p => negb (String.eqb p "")) (map TrimSpace parts) = [].
Proof.
  induction 1 as [|p parts Hp _ IH]; simpl; [reflexivity|].
  rewrite Hp. simpl. exact IH.
Qed.

Example TrimSpace_ascii : TrimSpace "  80  " = "80".
Proof. reflexivity. Qed.

(** U+00A0 and U+3000 are white space for [strings.TrimSpace]; a lone
    byte [0xA0] is not. *)
Example TrimSpace_unicode :
  TrimSpace (String (ascii_of_nat 194) (String (ascii_of_nat 160)
              ("80" ++ String (ascii_of_nat 227) (String (ascii_of_nat 128)
                         (String (ascii_of_nat 128) " "))))) = "80"
  /\ TrimSpace (String (ascii_of_nat 160) "80") = String (ascii_of_nat 160) "80".
Proof. split; reflexivity. Qed.

Example Split_sample : Split "a,,b," "," = ["a"; ""; "b"; ""].
Proof. reflexivity. Qed.

(** C10: [parsePorts] returns the comma-separated segments of its input,
    each trimmed of surrounding white space, the empty ones dropped, in
    their order; an input made only of commas and white space, the empty
    string among them, gives the empty list. *)
Theorem parsePorts_trimmed_segments : forall input,
  parsePorts input = trimmed_segments input
  /\ (onlyCommasAndSpace input = true -> parsePorts input = []).
Proof.
  intros input.
  assert (E : parsePorts input = trimmed_segments input).
  { unfold parsePorts, trimmed_segments.
    destruct (String.eqb_spec input ""); [subst; reflexivity|].
    apply parsePorts_loop_filter. }
  split; [exact E|].
  intros B. rewrite E. unfold trimmed_segments.
  destruct (blankRunes_Split _ _ B) as (h & tl & Sp & Hh & Htl).
  rewrite Sp. apply filter_all_blank.
  constructor; [apply TrimSpace_of_blank; exact Hh | exact Htl].
Qed.

Lemma parsePorts_witness :
  parsePorts " , , ," = [] /\ parsePorts "80, 443 ,,8080" = ["80"; "443"; "8080"].
Proof.
  split.
  - exact (proj2 (parsePorts_trimmed_segments " , , ,") eq_refl).
  - rewrite (proj1 (parsePorts_trimmed_segments "80, 443 ,,8080")). reflexivity.
Defined.

(** ** The calls of one round of [worker] *)

Lemma after_nil : forall w, after w [] = w.
Proof.
  intros [l d t tr]. unfold after. simpl. now rewrite Nat.add_0_r, app_nil_r.
Qed.

Lemma after_cons_dial : forall w a evs lim,
  after (record (EvDial "tcp" a lim (dial_answer w (tick w) a)) w) evs
  = after w (EvDial "tcp" a lim (dial_answer w (tick w) a) :: evs).
Proof.
  intros w a evs lim. unfold after, record. simpl. rewrite <- app_assoc. simpl.
  f_equal. lia.
Qed.

(** The loop of [measureLatency] while the sum stays within [int64]. *)
Lemma measureLatency_loop_spec : forall n ip total success w,
  0 <= total ->
  Forall (fun e => 0 <= e) (successes w (tick w) (JoinHostPort ip "80") n) ->
  total + sum (successes w (tick w) (JoinHostPort ip "80") n) < 2 ^ 63 ->
  measureLatency_loop n ip total success w =
  ((total + sum (successes w (tick w) (JoinHostPort ip "80") n),
    success + Z.of_nat (List.length (successes w (tick w) (JoinHostPort ip "80") n))),
   after w (dial_events w (tick w) (repeat (JoinHostPort ip "80") n))).
Proof.
  induction n as [|n IH]; intros ip total success w T F B.
  - simpl. rewrite after_nil, !Z.add_0_r. reflexivity.
  - cbn [measureLatency_loop]. unfold bind, DialTimeout.
    cbn [successes repeat dial_events] in *.
    set (a := dial_answer w (tick w) (JoinHostPort ip "80")) in *.
    set (w1 := record (EvDial "tcp" (JoinHostPort ip "80") timeout a) w).
    assert (Tk : tick w1 = S (tick w)) by reflexivity.
    assert (Dw : dial_answer w1 = dial_answer w) by reflexivity.
    assert (S1 : forall m, successes w1 (tick w1) (JoinHostPort ip "80") m
                           = successes w (S (tick w)) (JoinHostPort ip "80") m).
    { rewrite Tk. generalize (S (tick w)). intros k m. revert k.
      induction m as [|m IHm]; intros k; simpl; [reflexivity|].
      now rewrite IHm. }
    assert (D1 : forall l, dial_events w1 (tick w1) l = dial_events w (S (tick w)) l).
    { rewrite Tk. generalize (S (tick w)). intros k l. revert k.
      induction l as [|x l IHl]; intros k; simpl; [reflexivity|].
      now rewrite IHl. }
    destruct (connected a) eqn:C.
    + cbn [app sum fold_right List.length] in *. inversion F as [|? ? Ha F']; subst.
      fold (sum (successes w (S (tick w)) (JoinHostPort ip "80") n)) in *.
      assert (Sn : 0 <= sum (successes w (S (tick w)) (JoinHostPort ip "80") n)).
      { clear - F'. induction F'; simpl; lia. }
      assert (W : wrap64 (total + took a) = total + took a).
      { unfold wrap64. rewrite Z.mod_small; lia. }
      rewrite W. rewrite IH; rewrite ?S1, ?D1; auto; try lia.
      subst w1 a. rewrite after_cons_dial. f_equal. f_equal; lia.
    + cbn [app] in *.
      rewrite IH; rewrite ?S1, ?D1; auto.
      subst w1 a. rewrite after_cons_dial. reflexivity.
Qed.

Lemma dial_events_record : forall w e k l,
  dial_events (record e w) k l = dial_events w k l.
Proof.
  intros w e k l. revert k.
  induction l as [|a l IH]; intros k; simpl; [reflexivity | now rewrite IH].
Qed.

Lemma dial_events_after : forall w evs k l,
  dial_events (after w evs) k l = dial_events w k l.
Proof.
  intros w evs k l. revert k.
  induction l as [|a l IH]; intros k; simpl; [reflexivity | now rewrite IH].
Qed.

Lemma open_ports_after : forall w evs k host l,
  open_ports (after w evs) k host l = open_ports w k host l.
Proof.
  intros w evs k host l. revert k.
  induction l as [|a l IH]; intros k; simpl; [reflexivity | now rewrite IH].
Qed.

Lemma open_ports_record : forall w e k host l,
  open_ports (record e w) k host l = open_ports w k host l.
Proof.
  intros w e k host l. revert k.
  induction l as [|a l IH]; intros k; simpl; [reflexivity | now rewrite IH].
Qed.

Lemma after_after : forall w e1 e2, after (after w e1) e2 = after w (e1 ++ e2).
Proof.
  intros. unfold after. simpl. rewrite length_app, app_assoc. f_equal. lia.
Qed.

Lemma dial_events_length : forall w k l,
  List.length (dial_events w k l) = List.length l.
Proof. intros w k l. revert k. induction l; intros k; simpl; auto. Qed.

Lemma measureLatency_loop_world : forall n ip total success w,
  snd (measureLatency_loop n ip total success w) =
  after w (dial_events w (tick w) (repeat (JoinHostPort ip "80") n)).
Proof.
  induction n as [|n IH]; intros ip total success w.
  - simpl. now rewrite after_nil.
  - cbn [measureLatency_loop repeat dial_events]. unfold bind, DialTimeout.
    destruct (connected (dial_answer w (tick w) (JoinHostPort ip "80")));
      rewrite IH, dial_events_record; cbn [tick record];
      apply after_cons_dial.
Qed.

Lemma measureLatency_world : forall ip w,
  snd (measureLatency ip w) =
  after w (dial_events w (tick w) (repeat (JoinHostPort ip "80") pingCount)).
Proof.
  intros ip w. unfold measureLatency, bind.
  rewrite <- (measureLatency_loop_world pingCount ip 0 0 w).
  destruct (measureLatency_loop pingCount ip 0 0 w) as [[total success] w'].
  destruct (success =? 0); reflexivity.
Qed.

Lemma probePorts_spec : forall host ports open w,
  probePorts host ports open w =
  ((open ++ open_ports w (tick w) host ports)%list,
   after w (dial_events w (tick w) (map (JoinHostPort host) ports))).
Proof.
  intros host ports. induction ports as [|port rest IH]; intros open w.
  - simpl. unfold ret. now rewrite after_nil, app_nil_r.
  - cbn [probePorts map dial_events open_ports].
    unfold bind, isPortOpen, DialTimeout, bind.
    destruct (connected (dial_answer w (tick w) (JoinHostPort host port))) eqn:C;
      unfold ret; rewrite IH; cbn [tick record dial_answer];
      rewrite dial_events_record, open_ports_record, after_cons_dial.
    + rewrite <- app_assoc. reflexivity.
    + reflexivity.
Qed.

(** A resolved round: the result and the calls made, in full. *)
Lemma scanJob_resolved : forall dom ports sub w addrs ipv4,
  resolved_to w (sub ++ "." ++ dom) addrs ipv4 ->
  let host := sub ++ "." ++ dom in
  let e0 := EvLookupIP host (Some addrs) in
  let e1 := dial_events w (S (tick w)) (repeat (JoinHostPort ipv4 "80") pingCount) in
  let e2 := dial_events w (S (tick w) + pingCount) (map (JoinHostPort host) ports) in
  scanJob dom ports sub w =
  (Some (mkResult host ipv4
                  (fst (measureLatency ipv4 (after w [e0])))
                  true (open_ports w (S (tick w) + pingCount) host ports)),
   after w (e0 :: e1 ++ e2)).
Proof.
  intros dom ports sub w addrs ipv4 (L & F & NE) host e0 e1 e2.
  change (sub ++ "." ++ dom) with host in L.
  unfold scanJob. fold host. unfold bind at 1. unfold LookupIP.
  rewrite L. fold e0.
  destruct addrs as [|ip0 more]; [simpl in F; congruence|].
  cbn [List.length Nat.eqb]. rewrite F.
  destruct (String.eqb_spec ipv4 ""); [contradiction|].
  replace (record e0 w) with (after w [e0]).
  2:{ unfold after, record; simpl. f_equal. lia. }
  unfold bind.
  pose proof (measureLatency_world ipv4 (after w [e0])) as MW.
  destruct (measureLatency ipv4 (after w [e0])) as [avg w2]. cbn [fst snd] in *.
  subst w2. rewrite dial_events_after in *. 
  replace (tick (after w [e0])) with (S (tick w)) by (simpl; lia).
  fold e1. rewrite after_after.
  assert (T2 : tick (after w ([e0] ++ e1)) = (S (tick w) + pingCount)%nat).
  { unfold after; cbn [tick]. rewrite length_app. subst e1.
    rewrite dial_events_length, repeat_length. simpl. lia. }
  destruct ports as [|p ps].
  - cbn [List.length Nat.ltb Nat.leb]. unfold ret. subst e2. simpl map.
    cbn [dial_events open_ports]. rewrite app_nil_r. reflexivity.
  - replace (0 <? List.length (p :: ps))%nat with true by reflexivity.
    rewrite probePorts_spec. unfold ret.
    rewrite T2, open_ports_after, dial_events_after, after_after.
    fold e2. reflexivity.
Qed.

(** An unresolved round: no result, and the lookup as the only call. *)
Lemma scanJob_unresolved : forall dom ports sub w,
  let host := sub ++ "." ++ dom in
  (lookup_answer w (tick w) host = None \/
   exists addrs, lookup_answer w (tick w) host = Some addrs /\ firstIPv4 addrs = "") ->
  scanJob dom ports sub w =
  (None, after w [EvLookupIP host (lookup_answer w (tick w) host)]).
Proof.
  intros dom ports sub w host H.
  assert (R : record (EvLookupIP host (lookup_answer w (tick w) host)) w
              = after w [EvLookupIP host (lookup_answer w (tick w) host)]).
  { unfold after, record; simpl. f_equal. lia. }
  unfold scanJob. fold host. unfold bind, LookupIP. rewrite R.
  destruct H as [H | (addrs & H & F)]; rewrite H; [reflexivity|].
  destruct (List.length addrs =? 0)%nat; [reflexivity|].
  rewrite F. reflexivity.
Qed.

(** ** The pool: invariant, termination, shutdown *)

Section Totals.
Context {A : Type} (f : A -> nat).

Lemma total_app : forall l a, total f (l ++ [a]) = (total f l + f a)%nat.
Proof. induction l as [|x l IH]; intros a; simpl; [lia | rewrite IH; lia]. Qed.

Lemma total_set_nth : forall l i a b,
  nth_error l i = Some a ->
  (total f (set_nth i b l) + f a = total f l + f b)%nat.
Proof.
  induction l as [|x l IH]; intros [|i] a b H; simpl in *; try discriminate.
  - inversion H; subst; lia.
  - specialize (IH _ _ b H). lia.
Qed.

Lemma total_nth_le : forall l i a,
  nth_error l i = Some a -> (f a <= total f l)%nat.
Proof.
  induction l as [|x l IH]; intros [|i] a H; simpl in *; try discriminate.
  - inversion H; subst; lia.
  - specialize (IH _ _ H). lia.
Qed.

Lemma total_pos_nth : forall l,
  (0 < total f l)%nat -> exists i a, nth_error l i = Some a /\ (0 < f a)%nat.
Proof.
  induction l as [|x l IH]; simpl; intros H; [lia|].
  destruct (f x) eqn:E.
  - destruct IH as (i & a & Hi & Ha); [lia|]. now exists (S i), a.
  - exists 0%nat, x. simpl. split; [reflexivity | lia].
Qed.

Lemma total_zero_all : forall l,
  total f l = 0%nat -> forall a, In a l -> f a = 0%nat.
Proof.
  induction l as [|x l IH]; simpl; intros H a Hin; [contradiction|].
  destruct Hin as [E | I]; subst; [lia | apply IH; [lia | exact I]].
Qed.
End Totals.

Lemma In_set_nth : forall {A} (l : list A) i b x,
  In x (set_nth i b l) -> x = b \/ In x l.
Proof.
  induction l as [|a l IH]; intros [|i] b x H; simpl in *; try tauto.
  - destruct H as [H | H]; auto.
  - destruct H as [H | H]; auto. destruct (IH _ _ _ H); auto.
Qed.

Lemma length_set_nth : forall {A} (l : list A) i b,
  List.length (set_nth i b l) = List.length l.
Proof.
  induction l as [|a l IH]; intros [|i] b; simpl; auto.
Qed.

Lemma occ_app : forall x l1 l2, occ x (l1 ++ l2) = (occ x l1 + occ x l2)%nat.
Proof. intros; apply count_occ_app. Qed.

Lemma Inv_init : forall cfg, Inv cfg init.
Proof.
  intros cfg. constructor; simpl; try reflexivity; try tauto; try lia.
  all: unfold unfed, maxWorkers; simpl; try discriminate; try lia.
Qed.

Lemma AddUint32_succ : forall n,
  AddUint32 (Z.of_nat n mod 2 ^ 32) 1 = Z.of_nat (S n) mod 2 ^ 32.
Proof.
  intros n. unfold AddUint32.
  rewrite Nat2Z.inj_succ, <- Z.add_1_r.
  rewrite Zplus_mod_idemp_l. reflexivity.
Qed.

Ltac pool_simpl :=
  cbn [jobs jobs_closed results results_closed wg totalScanned workers mainpc
       progressed panicked set_main set_worker panic
       holding alive_n pending_n at_progress_n exited returned
       Nat.add] in *.

Lemma occ_nil : forall x, occ x [] = 0%nat.
Proof. reflexivity. Qed.

Lemma occ_one : forall x y, occ x [y] = if string_dec y x then 1%nat else 0%nat.
Proof. intros. unfold occ. simpl. now destruct (string_dec y x). Qed.

Lemma occ_cons : forall x y l,
  occ x (y :: l) = ((if string_dec y x then 1 else 0) + occ x l)%nat.
Proof. intros. unfold occ. simpl. now destruct (string_dec y x). Qed.

Ltac inv_field :=
  intros;
  unfold unfed, draining, shut_down in *; pool_simpl;
  rewrite ?total_app, ?length_app, ?length_set_nth, ?occ_app in *;
  cbv beta in *;
  cbn [total List.length past_close] in *;
  pool_simpl;
  rewrite ?occ_nil, ?occ_one, ?occ_cons in *;
  try solve [ assumption | reflexivity | discriminate | lia | congruence
            | tauto | eauto ].

Ltac use_occ :=
  match goal with
  | H : forall x : string, _ = occ x (subdomains _) |- context [occ ?y _] =>
      specialize (H y); rewrite ?occ_app, ?occ_nil, ?occ_one, ?occ_cons in H
  end.

Lemma Inv_main_step : forall cfg p p',
  Inv cfg p -> main_step cfg p = Some p' -> Inv cfg p'.
Proof.
  intros cfg p p' I H. destruct I.
  unfold main_step in H. unfold unfed, draining, shut_down in *.
  destruct (mainpc p) as [i | [|sub rest] | | | | acc | acc] eqn:PC.
  - (* MSpawn *)
    destruct (i <? maxWorkers)%nat eqn:L; inversion H; subst p'; clear H;
      constructor; inv_field.
    + use_occ. lia.
    + match goal with H : In _ (_ ++ _) |- _ => apply in_app_or in H; destruct H as [H | [<- | []]] end;
        [eauto | discriminate].
    + apply Nat.ltb_lt in L. unfold maxWorkers in *. lia.
    + apply Nat.ltb_ge in L. unfold maxWorkers in *. lia.
  - (* MFeed [] *)
    inversion H; subst p'; clear H. constructor; inv_field.
  - (* MFeed cons *)
    rewrite inv_closed0 in H. cbn [past_close] in H.
    destruct (List.length (jobs p) <? List.length (subdomains cfg))%nat eqn:L;
      inversion H; subst p'; clear H.
    constructor; inv_field.
    + use_occ. destruct (string_dec sub x); lia.
    + match goal with Hin : In ?pc (workers p), He : exited ?pc = true |- _ =>
        destruct (inv_exited0 pc Hin He) as [_ C]; rewrite inv_closed0 in C;
        discriminate C end.
  - (* MCloseJobs *)
    rewrite inv_closed0 in H. cbn [past_close] in H.
    inversion H; subst p'; clear H. constructor; inv_field.
    match goal with Hin : In ?pc (workers p), He : exited ?pc = true |- _ =>
        destruct (inv_exited0 pc Hin He) as [_ C]; rewrite inv_closed0 in C;
        discriminate C end.
  - (* MWait *)
    destruct (wg p =? 0) eqn:W; inversion H; subst p'; clear H.
    apply Z.eqb_eq in W. constructor; inv_field.
  - (* MCloseResults *)
    rewrite inv_rclosed0 in H.
    inversion H; subst p'; clear H. constructor; inv_field.
  - (* MDrain *)
    destruct (results p) as [|res rest] eqn:R.
    + rewrite inv_rclosed0 in H.
      inversion H; subst p'; clear H. constructor; inv_field.
      rewrite R. cbn [List.length]. lia.
    + inversion H; subst p'; clear H. constructor; inv_field.
  - discriminate.
Qed.

Ltac pose_totals Hn b :=
  pose proof (total_set_nth alive_n _ _ _ b Hn);
  pose proof (total_set_nth pending_n _ _ _ b Hn);
  pose proof (total_set_nth at_progress_n _ _ _ b Hn);
  pose proof (total_nth_le alive_n _ _ _ Hn);
  pose proof (total_nth_le pending_n _ _ _ Hn);
  try match goal with
      | x : string |- _ =>
          pose proof (total_set_nth (fun pc => occ x (holding pc)) _ _ _ b Hn)
      end.

Ltac worker_field Hn b :=
  intros; pose_totals Hn b;
  unfold draining, shut_down in *; pool_simpl;
  try match goal with E : jobs ?p = _ |- context [jobs ?p] => rewrite E end;
  rewrite ?total_app, ?length_app, ?length_set_nth, ?occ_app in *;
  cbv beta in *;
  cbn [total List.length past_close] in *;
  pool_simpl;
  rewrite ?occ_nil, ?occ_one, ?occ_cons in *;
  try use_occ;
  try solve [ assumption | reflexivity | discriminate | lia | congruence
            | tauto | eauto ].

Ltac no_exit inv_exited0 :=
  match goal with
  | Hin : In ?pc (set_nth _ _ _), He : exited ?pc = true |- _ =>
      apply In_set_nth in Hin; destruct Hin as [-> | Hin];
      [ try discriminate He | try (destruct (inv_exited0 _ Hin He); split; congruence) ]
  end.

Lemma Inv_worker_step : forall cfg i w p p',
  Inv cfg p -> worker_step cfg i w p = Some p' -> Inv cfg p'.
Proof.
  intros cfg i w p p' I H. destruct I.
  unfold worker_step in H.
  destruct (nth_error (workers p) i) as [[ | sub | sub res | sub | | ]|] eqn:N;
    try discriminate.
  - (* AtRange *)
    destruct (jobs p) as [|sub rest] eqn:J.
    + destruct (jobs_closed p) eqn:C; inversion H; subst p'; clear H.
      constructor; worker_field N AtDone.
    + inversion H; subst p'; clear H.
      constructor; worker_field N (AtLookup sub).
      all: try no_exit inv_exited0.
  - (* AtLookup *)
    destruct (fst (scanJob (domain cfg) (ports cfg) sub w)) as [result|];
      inversion H; subst p'; clear H.
    + constructor; worker_field N (AtSend sub result).
      all: try no_exit inv_exited0.
    + constructor; worker_field N (AtProgress sub).
      all: try no_exit inv_exited0.
  - (* AtSend *)
    rewrite inv_rclosed0 in H.
    destruct (draining p) eqn:D.
    { (* the channel is closed only after every worker has returned *)
      exfalso. pose proof (total_nth_le alive_n _ _ _ N) as A.
      assert (S0 : wg p = 0).
      { apply inv_shut0. unfold draining in D. unfold shut_down.
        destruct (mainpc p); try discriminate; reflexivity. }
      cbn [alive_n returned] in A. lia. }
    destruct (List.length (results p) <? List.length (subdomains cfg))%nat eqn:L;
      inversion H; subst p'; clear H.
    constructor; worker_field N (AtProgress sub).
    all: try no_exit inv_exited0.
  - (* AtProgress *)
    inversion H; subst p'; clear H.
    constructor; worker_field N AtRange.
    all: try no_exit inv_exited0.
    rewrite inv_counter0, Nat.add_1_r. apply AddUint32_succ.
  - (* AtDone *)
    pose proof (total_nth_le alive_n _ _ _ N) as A. cbn [alive_n returned] in A.
    destruct (wg p - 1 <? 0) eqn:W; [apply Z.ltb_lt in W; lia|].
    inversion H; subst p'; clear H.
    constructor; worker_field N Returned.
    all: try no_exit inv_exited0.
    + eapply inv_exited0; [eapply nth_error_In; exact N | reflexivity].
    + match goal with Hs : _ = true |- _ => apply inv_shut0 in Hs; lia end.
Qed.

(** The invariant holds in every reachable state. *)
Theorem Inv_reachable : forall cfg p, reachable cfg p -> Inv cfg p.
Proof.
  intros cfg p R. induction R as [|p c p' R IH S].
  - apply Inv_init.
  - unfold step in S. destruct (panicked p); [discriminate|].
    destruct c as [|i w]; [eapply Inv_main_step | eapply Inv_worker_step]; eauto.
Qed.

(** Every step uses up some of [steps_left]: no schedule runs forever. *)
Lemma step_decreases : forall cfg c p p',
  step cfg c p = Some p' -> (steps_left cfg p' < steps_left cfg p)%nat.
Proof.
  intros cfg c p p' H. unfold step in H.
  destruct (panicked p) eqn:P; [discriminate|].
  unfold steps_left. rewrite P.
  destruct c as [|i w].
  - unfold main_step in H.
    destruct (mainpc p) as [i | [|sub rest] | | | | acc | acc] eqn:PC;
      repeat match type of H with
             | context [if ?b then _ else _] => destruct b eqn:?
             | context [match results p with _ => _ end] => destruct (results p) eqn:?
             end;
      inversion H; subst p'; clear H; pool_simpl;
      rewrite ?P, ?PC, ?total_app, ?length_app; 
      cbn [main_weight unfed worker_weight List.length]; unfold maxWorkers in *;
      try match goal with L : (_ <? _)%nat = true |- _ => apply Nat.ltb_lt in L end;
      try match goal with E : results p = _ |- _ => rewrite ?E; cbn [List.length] end;
      try lia.
  - unfold worker_step in H.
    destruct (nth_error (workers p) i) as [pc|] eqn:N; [|discriminate].
    destruct pc;
      repeat match type of H with
             | context [if ?b then _ else _] => destruct b eqn:?
             | context [match jobs p with _ => _ end] => destruct (jobs p) eqn:?
             | context [match fst ?x with _ => _ end] => destruct (fst x) eqn:?
             end;
      inversion H; subst p'; clear H; pool_simpl;
      rewrite ?P, ?length_app; cbn [List.length];
      try match goal with E : jobs p = _ |- _ => rewrite ?E; cbn [List.length] end;
      try match goal with
          | |- context [set_nth i ?b (workers p)] =>
              pose proof (total_set_nth worker_weight _ _ _ b N) as T;
              cbn [worker_weight] in T
          end;
      try lia.
Qed.

(** No deadlock: in a reachable state short of [saveResults] somebody can
    move. *)
Lemma can_step : forall cfg p,
  Inv cfg p -> (forall acc, mainpc p <> MSave acc) ->
  exists c p', step cfg c p = Some p'.
Proof.
  intros cfg p I NF. destruct I. unfold step. rewrite inv_panic0.
  destruct (mainpc p) as [i | [|sub rest] | | | | acc | acc] eqn:PC.
  - exists RunMain. unfold main_step. rewrite PC.
    destruct (i <? maxWorkers)%nat; eauto.
  - exists RunMain. unfold main_step. rewrite PC. eauto.
  - exists RunMain. unfold main_step. rewrite PC.
    rewrite inv_closed0. cbn [past_close].
    cbn [unfed List.length] in inv_len0.
    replace (List.length (jobs p) <? List.length (subdomains cfg))%nat with true
      by (symmetry; apply Nat.ltb_lt; lia).
    eauto.
  - exists RunMain. unfold main_step. rewrite PC.
    rewrite inv_closed0. cbn [past_close]. eauto.
  - (* wg.Wait(): either the counter is zero or a worker can move *)
    destruct (wg p =? 0) eqn:W.
    { exists RunMain. unfold main_step. rewrite PC, W. eauto. }
    apply Z.eqb_neq in W.
    destruct (total_pos_nth alive_n (workers p)) as (i & pc & N & A); [lia|].
    exists (RunWorker i silent). unfold worker_step. rewrite N.
    destruct pc as [ | sub | sub res | sub | | ]; cbn [alive_n returned] in A;
      try lia.
    + destruct (jobs p); [rewrite inv_closed0; cbn [past_close]|]; eauto.
    + destruct (fst (scanJob (domain cfg) (ports cfg) sub silent)); eauto.
    + rewrite inv_rclosed0. unfold draining. rewrite PC.
      pose proof (total_nth_le pending_n _ _ _ N) as Pn. cbn [pending_n] in Pn.
      replace (List.length (results p) <? List.length (subdomains cfg))%nat with true
        by (symmetry; apply Nat.ltb_lt; lia).
      eauto.
    + eauto.
    + pose proof (total_nth_le alive_n _ _ _ N) as An. cbn [alive_n returned] in An.
      replace (wg p - 1 <? 0) with false by (symmetry; apply Z.ltb_ge; lia).
      eauto.
  - exists RunMain. unfold main_step. rewrite PC.
    rewrite inv_rclosed0. unfold draining. rewrite PC. eauto.
  - exists RunMain. unfold main_step. rewrite PC.
    destruct (results p); [rewrite inv_rclosed0; unfold draining; rewrite PC|]; eauto.
  - exfalso. eapply NF; reflexivity.
Qed.

Lemma run_reachable : forall cfg cs p p',
  reachable cfg p -> run cfg cs p = Some p' -> reachable cfg p'.
Proof.
  induction cs as [|c cs IH]; intros p p' R H; simpl in H.
  - now inversion H; subst.
  - destruct (step cfg c p) as [q|] eqn:S; [|discriminate].
    eapply IH; [eapply reach_step; eauto | exact H].
Qed.

(** A schedule is never longer than [steps_left] of its first state. *)
Lemma run_bounded : forall cfg cs p p',
  run cfg cs p = Some p' ->
  (List.length cs + steps_left cfg p' <= steps_left cfg p)%nat.
Proof.
  induction cs as [|c cs IH]; intros p p' H; simpl in H.
  - inversion H; subst. simpl. lia.
  - destruct (step cfg c p) as [q|] eqn:S; [|discriminate].
    apply step_decreases in S. apply IH in H. simpl. lia.
Qed.

(** From every reachable state some schedule runs the pool to its end. *)
Lemma reaches_save : forall cfg n p,
  (steps_left cfg p <= n)%nat -> reachable cfg p ->
  exists cs p' acc, run cfg cs p = Some p' /\ mainpc p' = MSave acc.
Proof.
  intros cfg n. induction n as [|n IH]; intros p Hn R.
  - pose proof (Inv_reachable _ _ R) as I.
    unfold steps_left in Hn. rewrite (inv_panic _ _ I) in Hn. lia.
  - destruct (mainpc p) as [i | rest | | | | acc | acc] eqn:PC.
    7: { exists [], p, acc. split; [reflexivity | exact PC]. }
    all: destruct (can_step cfg p (Inv_reachable _ _ R)) as (c & q & S);
      [intros a0; rewrite PC; discriminate|];
      pose proof (step_decreases _ _ _ _ S) as D;
      destruct (IH q) as (cs & p' & a1 & Hr & Hf);
      [lia | eapply reach_step; eauto |];
      exists (c :: cs), p', a1; simpl; rewrite S; auto.
Qed.

Lemma all_returned_total : forall (f : WorkerPC -> nat) ws,
  (forall pc, In pc ws -> returned pc = true) ->
  (forall pc, returned pc = true -> f pc = 0%nat) ->
  total f ws = 0%nat.
Proof.
  induction ws as [|a ws IH]; intros Hr Hf; simpl; [reflexivity|].
  rewrite (Hf a), IH; auto.
  - intros pc Hin. apply Hr. now right.
  - apply Hr. now left.
Qed.

(** Past [wg.Wait()] every worker has returned. *)
Lemma shutdown_workers_returned : forall cfg p,
  reachable cfg p -> shut_down p = true ->
  List.length (workers p) = maxWorkers /\
  forall pc, In pc (workers p) -> returned pc = true.
Proof.
  intros cfg p R S. destruct (Inv_reachable _ _ R).
  split.
  - unfold shut_down in S. destruct (mainpc p); try discriminate; assumption.
  - intros pc Hin. specialize (inv_shut0 S).
    assert (Z0 : total alive_n (workers p) = 0%nat) by lia.
    pose proof (total_zero_all alive_n _ Z0 pc Hin) as A.
    unfold alive_n in A. destruct (returned pc); [reflexivity | discriminate].
Qed.

(** Past [wg.Wait()] the jobs counted are the candidates, each once. *)
Lemma shutdown_progressed : forall cfg p,
  reachable cfg p -> shut_down p = true ->
  Permutation (progressed p) (subdomains cfg).
Proof.
  intros cfg p R S.
  destruct (shutdown_workers_returned _ _ R S) as [Len Ret].
  destruct (Inv_reachable _ _ R).
  assert (U : unfed cfg (mainpc p) = []).
  { unfold shut_down in S. destruct (mainpc p); try discriminate; reflexivity. }
  assert (J : jobs p = []).
  { destruct (workers p) as [|pc ws]; [simpl in Len; discriminate Len|].
    assert (Rp : returned pc = true) by (apply Ret; now left).
    apply (inv_exited0 pc); [now left|].
    destruct pc; try discriminate; reflexivity. }
  apply (Permutation_count_occ string_dec). intros x.
  specialize (inv_occ0 x). rewrite U, J in inv_occ0.
  assert (T : total (fun pc => occ x (holding pc)) (workers p) = 0%nat).
  { apply all_returned_total; [exact Ret|].
    intros pc Hr. destruct pc; try discriminate; reflexivity. }
  rewrite T in inv_occ0. unfold occ in *. simpl in inv_occ0. lia.
Qed.

Lemma shutdown_counter : forall cfg p,
  reachable cfg p -> shut_down p = true ->
  totalScanned p = Z.of_nat (List.length (subdomains cfg)) mod 2 ^ 32.
Proof.
  intros cfg p R S.
  rewrite (inv_counter _ _ (Inv_reachable _ _ R)).
  now rewrite (Permutation_length (shutdown_progressed _ _ R S)).
Qed.

Lemma demo_run : run demo_config demo_schedule init = Some demo_final.
Proof. vm_compute. reflexivity. Qed.

Lemma demo_reachable : reachable demo_config demo_final.
Proof. exact (run_reachable _ _ _ _ (reach_init _) demo_run). Qed.

(** The run of the example: of three candidates two resolve, one with
    port 80 open; both results arrive, in the order of completion, and
    the counter stands at 3. *)
Example demo_outcome :
  mainpc demo_final
  = MSave [mkResult "mail.example.com" "10.0.0.7" 0 true [];
           mkResult "www.example.com" "93.184.216.34" (3 # 2) true ["80"]]
  /\ totalScanned demo_final = 3
  /\ progressed demo_final = ["nope"; "www"; "mail"].
Proof. repeat split. Qed.

(** C1: every job causes exactly one increment of the counter, resolved
    or not: once [main] is past [wg.Wait()] the jobs counted are the
    candidates, each once, and the counter holds their number modulo
    [2^32], the range of a [uint32]; it is exactly [N] when [N < 2^32].
    From every reachable state the pool can run on to the end. *)
Theorem progress_counter_after_shutdown : forall cfg p,
  reachable cfg p ->
  (exists cs p' allResults,
      run cfg cs p = Some p' /\ mainpc p' = MSave allResults)
  /\ (shut_down p = true ->
      Permutation (progressed p) (subdomains cfg)
      /\ totalScanned p = Z.of_nat (List.length (subdomains cfg)) mod 2 ^ 32
      /\ (Z.of_nat (List.length (subdomains cfg)) < 2 ^ 32 ->
          totalScanned p = Z.of_nat (List.length (subdomains cfg)))).
Proof.
  intros cfg p R. split.
  - exact (reaches_save cfg (steps_left cfg p) p (le_n _) R).
  - intros SD. split; [exact (shutdown_progressed _ _ R SD)|].
    pose proof (shutdown_counter _ _ R SD) as C. split; [exact C|].
    intros B. rewrite C. apply Z.mod_small. lia.
Qed.

Lemma progress_counter_witness :
  Permutation (progressed demo_final) ["www"; "nope"; "mail"]
  /\ totalScanned demo_final = 3.
Proof.
  destruct (progress_counter_after_shutdown demo_config demo_final demo_reachable)
    as [_ H].
  destruct (H eq_refl) as (P & _ & C).
  split; [exact P | apply C; reflexivity].
Defined.

(** The counter does not reach [N] for a list of [N = 2^32] candidates:
    after shutdown it is back at 0. *)
Lemma progress_counter_wraps :
  Z.of_nat (List.length (subdomains wrap_config)) = 2 ^ 32
  /\ exists p,
       reachable wrap_config p /\ shut_down p = true /\ totalScanned p = 0.
Proof.
  assert (L : Z.of_nat (List.length (subdomains wrap_config)) = 2 ^ 32).
  { unfold wrap_config. cbn [subdomains]. rewrite repeat_length.
    apply Z2Nat.id. discriminate. }
  split; [exact L|].
  destruct (reaches_save wrap_config (steps_left wrap_config init) init (le_n _)
              (reach_init _)) as (cs & p & acc & Hr & Hf).
  assert (R : reachable wrap_config p)
    by exact (run_reachable _ _ _ _ (reach_init _) Hr).
  assert (SD : shut_down p = true) by (unfold shut_down; now rewrite Hf).
  exists p. split; [exact R|]. split; [exact SD|].
  rewrite (shutdown_counter _ _ R SD), L. apply Z.mod_same. discriminate.
Qed.

(** C2: in every reachable state where the result channel is closed, or
    [main] is draining it, all [maxWorkers] workers have run their
    deferred [wg.Done()] and none can take a step any more, so no result
    can still arrive; and no send ever met a closed channel. *)
Theorem results_closed_after_workers_returned : forall cfg p,
  reachable cfg p ->
  panicked p = false
  /\ (results_closed p = true \/ draining p = true ->
      List.length (workers p) = maxWorkers
      /\ (forall pc, In pc (workers p) -> returned pc = true)
      /\ (forall i w, worker_step cfg i w p = None)).
Proof.
  intros cfg p R. pose proof (Inv_reachable _ _ R) as I.
  split; [exact (inv_panic _ _ I)|].
  intros H.
  assert (D : draining p = true).
  { destruct H as [H | H]; [now rewrite <- (inv_rclosed _ _ I) | exact H]. }
  assert (SD : shut_down p = true).
  { unfold draining in D. unfold shut_down.
    destruct (mainpc p); try discriminate; reflexivity. }
  destruct (shutdown_workers_returned _ _ R SD) as [Len Ret].
  split; [exact Len|]. split; [exact Ret|].
  intros i w. unfold worker_step.
  destruct (nth_error (workers p) i) as [pc|] eqn:N; [|reflexivity].
  specialize (Ret pc (nth_error_In _ _ N)).
  destruct pc; try discriminate; reflexivity.
Qed.

Lemma results_closed_witness :
  results_closed demo_final = true
  /\ List.length (workers demo_final) = 200%nat
  /\ forall pc, In pc (workers demo_final) -> returned pc = true.
Proof.
  destruct (results_closed_after_workers_returned demo_config demo_final
              demo_reachable) as [_ H].
  destruct (H (or_introl eq_refl)) as (L & Ret & _).
  split; [reflexivity|]. split; [exact L | exact Ret].
Defined.

(** ** Rounds of a worker in the pool *)

Lemma To4_length : forall ip p4, To4 ip = Some p4 -> List.length p4 = 4%nat.
Proof.
  intros ip p4. unfold To4, IPv4len, IPv6len.
  destruct (List.length ip =? 4)%nat eqn:L4.
  - intros H; injection H as <-. now apply Nat.eqb_eq.
  - destruct (List.length ip =? 16)%nat eqn:L16; cbn [andb]; [|discriminate].
    match goal with |- (if ?b then _ else _) = _ -> _ => destruct b end;
      [|discriminate].
    intros H. assert (E : p4 = firstn 4 (skipn 12 ip)) by congruence.
    apply Nat.eqb_eq in L16. rewrite E, length_firstn, length_skipn. lia.
Qed.

Lemma append_nonempty : forall a c b, a ++ String c b <> "".
Proof. intros [|x a] c b; discriminate. Qed.

Lemma IPv4_String_nonempty : forall p4,
  List.length p4 = 4%nat -> IPv4_String p4 <> "".
Proof.
  intros [|a [|b [|c [|d [|e p]]]]] L; try discriminate L.
  unfold IPv4_String. cbn [map String.concat]. apply append_nonempty.
Qed.

Lemma firstIPv4_first : forall pre ip post p4,
  Forall (fun a => isIPv4 a = false) pre ->
  To4 ip = Some p4 ->
  firstIPv4 (pre ++ ip :: post) = IPv4_String p4.
Proof.
  intros pre ip post p4 F T. induction F as [|a pre Ha _ IH]; simpl.
  - now rewrite T.
  - unfold isIPv4 in Ha. destruct (To4 a); [discriminate | exact IH].
Qed.

Lemma firstIPv4_none : forall addrs,
  Forall (fun a => isIPv4 a = false) addrs -> firstIPv4 addrs = "".
Proof.
  induction 1 as [|a l Ha _ IH]; simpl; [reflexivity|].
  unfold isIPv4 in Ha. destruct (To4 a); [discriminate | exact IH].
Qed.

Lemma nth_error_set_nth_eq : forall {A} (l : list A) i a b,
  nth_error l i = Some a -> nth_error (set_nth i b l) i = Some b.
Proof.
  induction l as [|x l IH]; intros [|i] a b H; simpl in *; try discriminate; eauto.
Qed.

Lemma nth_error_set_nth_ne : forall {A} (l : list A) i j b,
  i <> j -> nth_error (set_nth i b l) j = nth_error l j.
Proof.
  induction l as [|x l IH]; intros [|i] [|j] b H; simpl; try reflexivity;
    try congruence.
  apply IH. congruence.
Qed.

Lemma set_nth_set_nth : forall {A} (l : list A) i a b,
  set_nth i b (set_nth i a l) = set_nth i b l.
Proof.
  induction l as [|x l IH]; intros [|i] a b; simpl; try reflexivity.
  now rewrite IH.
Qed.

(** A round whose job is not resolved: the worker goes from the lookup to
    the increment and back to the head of its loop. *)
Lemma unresolved_round : forall cfg i w w' p sub,
  nth_error (workers p) i = Some (AtLookup sub) ->
  fst (scanJob (domain cfg) (ports cfg) sub w) = None ->
  worker_step cfg i w p = Some (set_worker i (AtProgress sub) p)
  /\ worker_step cfg i w' (set_worker i (AtProgress sub) p) = Some (counted i sub p).
Proof.
  intros cfg i w w' p sub N S. split.
  - unfold worker_step. now rewrite N, S.
  - unfold worker_step, set_worker. cbn [workers].
    rewrite (nth_error_set_nth_eq _ _ _ _ N).
    unfold counted. cbn. now rewrite set_nth_set_nth.
Qed.

(** What counting a job changes: the counter, by one increment, and the
    worker, back at the head of its loop; the result channel and the
    other workers stay as they are. *)
Lemma counted_effect : forall i sub p pc,
  nth_error (workers p) i = Some pc ->
  results (counted i sub p) = results p
  /\ totalScanned (counted i sub p) = AddUint32 (totalScanned p) 1
  /\ nth_error (workers (counted i sub p)) i = Some AtRange
  /\ forall j, j <> i ->
       nth_error (workers (counted i sub p)) j = nth_error (workers p) j.
Proof.
  intros i sub p pc N. unfold counted. cbn [results totalScanned workers].
  split; [reflexivity|]. split; [reflexivity|]. split.
  - eapply nth_error_set_nth_eq; eauto.
  - intros j H. apply nth_error_set_nth_ne. congruence.
Qed.

(** A round whose job is resolved, in a reachable pool: the worker sends
    the result, which the channel takes, then counts the job. *)
Lemma resolved_round : forall cfg i w w' w'' p sub result,
  reachable cfg p ->
  nth_error (workers p) i = Some (AtLookup sub) ->
  fst (scanJob (domain cfg) (ports cfg) sub w) = Some result ->
  worker_step cfg i w p = Some (set_worker i (AtSend sub result) p)
  /\ worker_step cfg i w' (set_worker i (AtSend sub result) p)
     = Some (sent i sub result p)
  /\ worker_step cfg i w'' (sent i sub result p)
     = Some (counted i sub (sent i sub result p)).
Proof.
  intros cfg i w w' w'' p sub result R N S.
  assert (S1 : worker_step cfg i w p = Some (set_worker i (AtSend sub result) p)).
  { unfold worker_step. now rewrite N, S. }
  assert (P0 : panicked p = false) by (apply (inv_panic cfg), Inv_reachable, R).
  assert (R1 : reachable cfg (set_worker i (AtSend sub result) p)).
  { eapply reach_step; [exact R|]. unfold step. rewrite P0.
    instantiate (1 := RunWorker i w). exact S1. }
  pose proof (Inv_reachable _ _ R1) as I1.
  split; [exact S1|]. split.
  - unfold worker_step, set_worker, sent. cbn [workers results results_closed].
    rewrite (nth_error_set_nth_eq _ _ _ _ N).
    pose proof (inv_rclosed _ _ I1) as RC. pose proof (inv_shut _ _ I1) as SH.
    pose proof (inv_wg _ _ I1) as WG. pose proof (inv_len _ _ I1) as LEN.
    pose proof (inv_cap _ _ I1) as CAP.
    unfold set_worker, draining, shut_down in *.
    cbn [workers results results_closed mainpc wg jobs progressed] in *.
    pose proof (total_nth_le alive_n _ _ _ (nth_error_set_nth_eq _ _ _ (AtSend sub result) N)) as A.
    pose proof (total_nth_le pending_n _ _ _ (nth_error_set_nth_eq _ _ _ (AtSend sub result) N)) as Pn.
    cbn [alive_n returned pending_n] in A, Pn.
    destruct (results_closed p).
    { exfalso. destruct (mainpc p); cbn iota in RC, SH; try discriminate RC;
        specialize (SH eq_refl); lia. }
    replace (List.length (results p) <? List.length (subdomains cfg))%nat with true
      by (symmetry; apply Nat.ltb_lt; lia).
    now rewrite set_nth_set_nth.
  - unfold worker_step, sent. cbn [workers].
    rewrite (nth_error_set_nth_eq _ _ _ _ N).
    unfold counted. cbn. reflexivity.
Qed.

Lemma containsByte_append : forall c a b,
  containsByte c (a ++ b) = containsByte c a || containsByte c b.
Proof.
  induction a as [|x a IH]; intros b; simpl; [reflexivity|].
  rewrite IH. now rewrite orb_assoc.
Qed.

Lemma decimal_no_colon : forall b, containsByte ":" (decimal (Byte.to_N b)) = false.
Proof. intros b. destruct b; reflexivity. Qed.

Lemma IPv4_String_no_colon : forall p4,
  List.length p4 = 4%nat -> containsByte ":" (IPv4_String p4) = false.
Proof.
  intros [|a [|b [|c [|d [|e p]]]]] L; try discriminate L.
  unfold IPv4_String. cbn [map String.concat].
  rewrite !containsByte_append, !decimal_no_colon. reflexivity.
Qed.

Lemma firstIPv4_cases : forall addrs,
  firstIPv4 addrs = ""
  \/ exists ip p4, In ip addrs /\ To4 ip = Some p4 /\ firstIPv4 addrs = IPv4_String p4.
Proof.
  induction addrs as [|a l IH]; simpl; [now left|].
  destruct (To4 a) as [p4|] eqn:T.
  - right. exists a, p4. auto.
  - destruct IH as [E | (ip & p4 & I & T' & E)]; [now left|].
    right. exists ip, p4. auto.
Qed.

Lemma firstIPv4_probe_address : forall addrs,
  JoinHostPort (firstIPv4 addrs) "80" = firstIPv4 addrs ++ ":80".
Proof.
  intros addrs. unfold JoinHostPort.
  destruct (firstIPv4_cases addrs) as [E | (ip & p4 & _ & T & E)]; rewrite E.
  - reflexivity.
  - now rewrite (IPv4_String_no_colon _ (To4_length _ _ T)).
Qed.

Lemma firstIPv4_blank_iff : forall addrs,
  firstIPv4 addrs = "" <-> Forall (fun a => isIPv4 a = false) addrs.
Proof.
  intros addrs. split; [|apply firstIPv4_none].
  induction addrs as [|a l IH]; simpl; intros H; [constructor|].
  unfold isIPv4 at 1.
  destruct (To4 a) as [p4|] eqn:T.
  - exfalso. exact (IPv4_String_nonempty _ (To4_length _ _ T) H).
  - constructor; [unfold isIPv4; now rewrite T | auto].
Qed.

Lemma scanJob_some_resolved : forall dom ps sub w r w',
  scanJob dom ps sub w = (Some r, w') ->
  exists addrs ipv4, resolved_to w (sub ++ "." ++ dom) addrs ipv4.
Proof.
  intros dom ps sub w r w' H.
  destruct (lookup_answer w (tick w) (sub ++ "." ++ dom)) as [addrs|] eqn:L.
  - destruct (String.eqb_spec (firstIPv4 addrs) "") as [E | NE].
    + rewrite scanJob_unresolved in H; [discriminate H|].
      right. exists addrs. auto.
    + exists addrs, (firstIPv4 addrs). repeat split; auto.
  - rewrite scanJob_unresolved in H; [discriminate H | now left].
Qed.

Lemma open_ports_filter : forall w k host ps,
  open_ports w k host ps =
  map fst (filter (fun pa => connected (snd pa))
                  (combine ps (dial_answers w k (map (JoinHostPort host) ps)))).
Proof.
  intros w k host ps. revert k.
  induction ps as [|p ps IH]; intros k; simpl; [reflexivity|].
  destruct (connected (dial_answer w k (JoinHostPort host p))); simpl;
    now rewrite IH.
Qed.

Lemma dial_events_combine : forall w k host ps,
  dial_events w k (map (JoinHostPort host) ps) =
  map (fun pa => EvDial "tcp" (JoinHostPort host (fst pa)) timeout (snd pa))
      (combine ps (dial_answers w k (map (JoinHostPort host) ps))).
Proof.
  intros w k host ps. revert k.
  induction ps as [|p ps IH]; intros k; simpl; [reflexivity|].
  now rewrite IH.
Qed.

Lemma dial_answers_length : forall w k l,
  List.length (dial_answers w k l) = List.length l.
Proof. intros w k l. revert k. induction l; intros k; simpl; auto. Qed.

Lemma open_ports_nonempty : forall w k host ps,
  open_ports w k host ps <> [] -> ps <> [].
Proof. intros w k host [|p ps] H; [contradiction | discriminate]. Qed.

Lemma isPortOpen_connected : forall host port w,
  fst (isPortOpen host port w)
  = connected (dial_answer w (tick w) (JoinHostPort host port)).
Proof.
  intros host port w. unfold isPortOpen, bind, DialTimeout.
  destruct (connected (dial_answer w (tick w) (JoinHostPort host port))); reflexivity.
Qed.

(** C3: a job whose resolution fails (the lookup reports an error or
    returns no address; likewise when it returns no IPv4 address) yields
    no result and makes no call besides the lookup, so no latency sample
    and no port probe; in the pool the worker goes straight to the
    increment of the counter, leaves the result channel as it is, and is
    back at the head of its loop for the next job, the other workers
    untouched. *)
Theorem failed_resolution_is_local : forall cfg sub w,
  lookup_answer w (tick w) (sub ++ "." ++ domain cfg) = None
  \/ lookup_answer w (tick w) (sub ++ "." ++ domain cfg) = Some []
  \/ (exists addrs,
        lookup_answer w (tick w) (sub ++ "." ++ domain cfg) = Some addrs
        /\ Forall (fun a => isIPv4 a = false) addrs) ->
  scanJob (domain cfg) (ports cfg) sub w
  = (None, after w [EvLookupIP (sub ++ "." ++ domain cfg)
                               (lookup_answer w (tick w) (sub ++ "." ++ domain cfg))])
  /\ forall i p w',
       nth_error (workers p) i = Some (AtLookup sub) ->
       worker_step cfg i w p = Some (set_worker i (AtProgress sub) p)
       /\ worker_step cfg i w' (set_worker i (AtProgress sub) p)
          = Some (counted i sub p)
       /\ results (counted i sub p) = results p
       /\ totalScanned (counted i sub p) = AddUint32 (totalScanned p) 1
       /\ nth_error (workers (counted i sub p)) i = Some AtRange
       /\ forall j, j <> i ->
            nth_error (workers (counted i sub p)) j = nth_error (workers p) j.
Proof.
  intros cfg sub w H.
  assert (S : scanJob (domain cfg) (ports cfg) sub w
              = (None, after w [EvLookupIP (sub ++ "." ++ domain cfg)
                     (lookup_answer w (tick w) (sub ++ "." ++ domain cfg))])).
  { apply scanJob_unresolved. destruct H as [H | [H | (addrs & H & F)]].
    - now left.
    - right. exists []. auto.
    - right. exists addrs. split; [exact H | now apply firstIPv4_none]. }
  split; [exact S|].
  intros i p w' N.
  destruct (unresolved_round cfg i w w' p sub N) as [S1 S2]; [now rewrite S|].
  split; [exact S1|]. split; [exact S2|]. eapply counted_effect; eauto.
Qed.

Lemma failed_resolution_witness :
  scanJob "example.com" ["80"; "443"] "nope" demo_world
  = (None, after demo_world [EvLookupIP "nope.example.com" None]).
Proof.
  exact (proj1 (failed_resolution_is_local demo_config "nope" demo_world
                  (or_introl eq_refl))).
Defined.

(** C5: when the lookup returns a non-empty list, the address of the
    result is the text of the first address of the list whose family is
    IPv4; when the list has no IPv4 address the round ends like an
    unresolved one: no result, no call besides the lookup, and in the
    pool only the increment of the counter. *)
Theorem first_IPv4_address_selected : forall cfg sub w addrs,
  lookup_answer w (tick w) (sub ++ "." ++ domain cfg) = Some addrs ->
  addrs <> [] ->
  (forall pre ip post p4,
      addrs = (pre ++ ip :: post)%list ->
      Forall (fun a => isIPv4 a = false) pre ->
      To4 ip = Some p4 ->
      exists r w',
        scanJob (domain cfg) (ports cfg) sub w = (Some r, w')
        /\ IPAddress r = IPv4_String p4)
  /\ (Forall (fun a => isIPv4 a = false) addrs ->
      scanJob (domain cfg) (ports cfg) sub w
      = (None, after w [EvLookupIP (sub ++ "." ++ domain cfg) (Some addrs)])
      /\ forall i p w',
           nth_error (workers p) i = Some (AtLookup sub) ->
           worker_step cfg i w p = Some (set_worker i (AtProgress sub) p)
           /\ worker_step cfg i w' (set_worker i (AtProgress sub) p)
              = Some (counted i sub p)
           /\ results (counted i sub p) = results p
           /\ totalScanned (counted i sub p) = AddUint32 (totalScanned p) 1).
Proof.
  intros cfg sub w addrs L NE. split.
  - intros pre ip post p4 E F T.
    assert (R : resolved_to w (sub ++ "." ++ domain cfg) addrs (IPv4_String p4)).
    { repeat split; [exact L | subst addrs; now apply firstIPv4_first |].
      apply IPv4_String_nonempty. eapply To4_length; eauto. }
    pose proof (scanJob_resolved _ (ports cfg) _ _ _ _ R) as S. cbv zeta in S.
    rewrite S. eexists _, _. split; reflexivity.
  - intros F.
    assert (S : scanJob (domain cfg) (ports cfg) sub w
                = (None, after w [EvLookupIP (sub ++ "." ++ domain cfg) (Some addrs)])).
    { rewrite scanJob_unresolved; [now rewrite L|].
      right. exists addrs. split; [exact L | now apply firstIPv4_none]. }
    split; [exact S|].
    intros i p w' N.
    destruct (unresolved_round cfg i w w' p sub N) as [S1 S2]; [now rewrite S|].
    split; [exact S1|]. split; [exact S2|]. split; reflexivity.
Qed.

Lemma first_IPv4_witness :
  exists r w',
    scanJob "example.com" ["80"; "443"] "www" demo_world = (Some r, w')
    /\ IPAddress r = "93.184.216.34".
Proof.
  refine (proj1 (first_IPv4_address_selected demo_config "www" demo_world
                   [ip_v6; ip_www] eq_refl _) [ip_v6] ip_www [] ip_www eq_refl _ eq_refl).
  - discriminate.
  - repeat constructor.
Defined.

Lemma trace_after : forall w evs, trace (after w evs) = (trace w ++ evs)%list.
Proof. reflexivity. Qed.

(** C6: for a resolved job and a non-empty port list, the calls after the
    latency dials are one dial per requested port, in the order of the
    list, each to [JoinHostPort fullHost port] under [timeout]; the open
    ports of the result are the ports whose dial connected, in that
    order; and [isPortOpen] returns whether its one dial connected. *)
Theorem ports_probed_once_in_order : forall cfg sub w addrs ipv4,
  resolved_to w (sub ++ "." ++ domain cfg) addrs ipv4 ->
  ports cfg <> [] ->
  exists r w' answers,
    scanJob (domain cfg) (ports cfg) sub w = (Some r, w')
    /\ List.length answers = List.length (ports cfg)
    /\ trace w' =
       (trace w
        ++ EvLookupIP (sub ++ "." ++ domain cfg) (Some addrs)
           :: dial_events w (S (tick w)) (repeat (JoinHostPort ipv4 "80") pingCount)
        ++ map (fun pa => EvDial "tcp"
                            (JoinHostPort (sub ++ "." ++ domain cfg) (fst pa))
                            timeout (snd pa))
               (combine (ports cfg) answers))%list
    /\ OpenPorts r =
       map fst (filter (fun pa => connected (snd pa)) (combine (ports cfg) answers))
    /\ forall port w0,
         fst (isPortOpen (sub ++ "." ++ domain cfg) port w0)
         = connected (dial_answer w0 (tick w0)
                        (JoinHostPort (sub ++ "." ++ domain cfg) port)).
Proof.
  intros cfg sub w addrs ipv4 R NE.
  pose proof (scanJob_resolved _ (ports cfg) _ _ _ _ R) as SJ. cbv zeta in SJ.
  rewrite SJ.
  eexists _, _, (dial_answers w (S (tick w) + pingCount)
                   (map (JoinHostPort (sub ++ "." ++ domain cfg)) (ports cfg))).
  split; [reflexivity|]. split.
  { now rewrite dial_answers_length, length_map. }
  split.
  { rewrite trace_after, dial_events_combine. reflexivity. }
  split.
  { cbn [OpenPorts]. apply open_ports_filter. }
  intros port w0. apply isPortOpen_connected.
Qed.

Lemma ports_probed_witness :
  exists r w' answers,
    scanJob "example.com" ["80"; "443"] "www" demo_world = (Some r, w')
    /\ List.length answers = 2%nat
    /\ trace w' =
       (EvLookupIP "www.example.com" (Some [ip_v6; ip_www])
        :: dial_events demo_world 1 ["93.184.216.34:80"; "93.184.216.34:80"]
        ++ map (fun pa => EvDial "tcp" (JoinHostPort "www.example.com" (fst pa))
                                 timeout (snd pa))
               (combine ["80"; "443"] answers))%list
    /\ OpenPorts r =
       map fst (filter (fun pa => connected (snd pa)) (combine ["80"; "443"] answers))
    /\ forall port w0,
         fst (isPortOpen "www.example.com" port w0)
         = connected (dial_answer w0 (tick w0) (JoinHostPort "www.example.com" port)).
Proof.
  refine (ports_probed_once_in_order demo_config "www" demo_world
            [ip_v6; ip_www] "93.184.216.34" _ _).
  - repeat split. discriminate.
  - discriminate.
Defined.

(** C7: a resolved job with an empty port list yields a result that is
    reachable and has no open port, after the lookup and the latency
    dials only, and in a reachable pool the worker sends that result,
    which the channel takes, before it counts the job; whatever the
    list, a result with an open port needs a non-empty port list. *)
Theorem no_ports_requested_no_open_ports : forall cfg sub w,
  (forall addrs ipv4,
      resolved_to w (sub ++ "." ++ domain cfg) addrs ipv4 ->
      ports cfg = [] ->
      exists r w',
        scanJob (domain cfg) (ports cfg) sub w = (Some r, w')
        /\ OpenPorts r = [] /\ Reachable r = true
        /\ trace w' =
           (trace w
            ++ EvLookupIP (sub ++ "." ++ domain cfg) (Some addrs)
               :: dial_events w (S (tick w))
                    (repeat (JoinHostPort ipv4 "80") pingCount))%list
        /\ forall i p w1 w2,
             reachable cfg p ->
             nth_error (workers p) i = Some (AtLookup sub) ->
             worker_step cfg i w p = Some (set_worker i (AtSend sub r) p)
             /\ worker_step cfg i w1 (set_worker i (AtSend sub r) p)
                = Some (sent i sub r p)
             /\ worker_step cfg i w2 (sent i sub r p)
                = Some (counted i sub (sent i sub r p)))
  /\ (forall r w',
        scanJob (domain cfg) (ports cfg) sub w = (Some r, w') ->
        Reachable r = true /\ (OpenPorts r <> [] -> ports cfg <> [])).
Proof.
  intros cfg sub w. split.
  - intros addrs ipv4 R E.
    pose proof (scanJob_resolved _ (ports cfg) _ _ _ _ R) as SJ. cbv zeta in SJ.
    eexists _, _. split; [exact SJ|].
    rewrite E. cbn [OpenPorts Reachable open_ports map dial_events].
    split; [reflexivity|]. split; [reflexivity|]. split.
    { rewrite trace_after, app_nil_r. reflexivity. }
    intros i p w1 w2 Rp N. repeat split.
    + eapply resolved_round; eauto. rewrite SJ, E. reflexivity.
    + eapply (resolved_round cfg i w w1 w2); eauto. rewrite SJ, E. reflexivity.
    + eapply (resolved_round cfg i w w1 w2); eauto. rewrite SJ, E. reflexivity.
  - intros r w' H.
    destruct (scanJob_some_resolved _ _ _ _ _ _ H) as (addrs & ipv4 & R).
    pose proof (scanJob_resolved _ (ports cfg) _ _ _ _ R) as SJ. cbv zeta in SJ.
    rewrite SJ in H. injection H as <- _. cbn [Reachable OpenPorts].
    split; [reflexivity | apply open_ports_nonempty].
Qed.

Lemma no_ports_witness :
  exists r w',
    scanJob "example.com" [] "www" demo_world = (Some r, w')
    /\ OpenPorts r = [] /\ Reachable r = true.
Proof.
  destruct (proj1 (no_ports_requested_no_open_ports
                     (mkConfig "example.com" [] ["www"]) "www" demo_world)
                  [ip_v6; ip_www] "93.184.216.34")
    as (r & w' & E & O & Rb & _).
  - repeat split. discriminate.
  - reflexivity.
  - exists r, w'. auto.
Defined.

(** C9: for a resolved job the calls after the lookup start with exactly
    [pingCount], that is two, dials of the selected address on port 80,
    each under the two-second [timeout], whatever the requested ports;
    every later call is the probe of a requested port. *)
Theorem latency_sampler_dials_port_80 : forall cfg sub w addrs ipv4,
  resolved_to w (sub ++ "." ++ domain cfg) addrs ipv4 ->
  exists r w' a1 a2,
    scanJob (domain cfg) (ports cfg) sub w = (Some r, w')
    /\ IPAddress r = ipv4
    /\ trace w' =
       (trace w
        ++ [EvLookupIP (sub ++ "." ++ domain cfg) (Some addrs);
            EvDial "tcp" (ipv4 ++ ":80") (2 * 1000000000) a1;
            EvDial "tcp" (ipv4 ++ ":80") (2 * 1000000000) a2]
        ++ dial_events w (tick w + 3)
             (map (JoinHostPort (sub ++ "." ++ domain cfg)) (ports cfg)))%list
    /\ pingCount = 2%nat
    /\ forall ip w0,
         trace (snd (measureLatency ip w0)) =
         (trace w0
          ++ [EvDial "tcp" (JoinHostPort ip "80") timeout
                     (dial_answer w0 (tick w0) (JoinHostPort ip "80"));
              EvDial "tcp" (JoinHostPort ip "80") timeout
                     (dial_answer w0 (S (tick w0)) (JoinHostPort ip "80"))])%list.
Proof.
  intros cfg sub w addrs ipv4 R.
  pose proof (scanJob_resolved _ (ports cfg) _ _ _ _ R) as SJ. cbv zeta in SJ.
  destruct R as (L & F & NE).
  assert (J : JoinHostPort ipv4 "80" = ipv4 ++ ":80").
  { rewrite <- F. apply firstIPv4_probe_address. }
  rewrite SJ. eexists _, _, _, _.
  split; [reflexivity|]. split; [reflexivity|]. split.
  { rewrite trace_after. unfold pingCount. cbn [repeat dial_events].
    rewrite J. cbn [app]. unfold timeout, Second.
    replace (S (tick w) + 2)%nat with (tick w + 3)%nat by lia. reflexivity. }
  split; [reflexivity|].
  intros ip w0. rewrite measureLatency_world. reflexivity.
Qed.

Lemma latency_sampler_witness :
  exists r w' a1 a2,
    scanJob "example.com" ["80"; "443"] "mail" demo_world = (Some r, w')
    /\ IPAddress r = "10.0.0.7"
    /\ trace w' =
       ([EvLookupIP "mail.example.com" (Some [ip_mail]);
         EvDial "tcp" "10.0.0.7:80" 2000000000 a1;
         EvDial "tcp" "10.0.0.7:80" 2000000000 a2]
        ++ dial_events demo_world 3 ["mail.example.com:80"; "mail.example.com:443"])%list
    /\ pingCount = 2%nat
    /\ forall ip w0,
         trace (snd (measureLatency ip w0)) =
         (trace w0
          ++ [EvDial "tcp" (JoinHostPort ip "80") timeout
                     (dial_answer w0 (tick w0) (JoinHostPort ip "80"));
              EvDial "tcp" (JoinHostPort ip "80") timeout
                     (dial_answer w0 (S (tick w0)) (JoinHostPort ip "80"))])%list.
Proof.
  refine (latency_sampler_dials_port_80 demo_config "mail" demo_world
            [ip_mail] "10.0.0.7" _).
  repeat split. discriminate.
Defined.

(** ** [measureLatency] *)

Lemma successes_bound : forall w k addr n,
  (List.length (successes w k addr n) <= n)%nat.
Proof.
  intros w k addr n. revert k. induction n as [|n IH]; intros k; simpl; [lia|].
  rewrite length_app. specialize (IH (S k)).
  destruct (connected (dial_answer w k addr)); simpl; lia.
Qed.

Lemma sum_bound : forall es b,
  Forall (fun e => 0 <= e < b) es ->
  sum es <= Z.of_nat (List.length es) * (b - 1).
Proof.
  induction 1 as [|e es He _ IH]; [simpl; lia|].
  cbn [sum fold_right List.length]. fold (sum es). lia.
Qed.

Lemma measureLatency_value : forall ip w,
  Forall (fun e => 0 <= e < 2 ^ 62)
         (successes w (tick w) (JoinHostPort ip "80") pingCount) ->
  fst (measureLatency ip w) =
  let es := successes w (tick w) (JoinHostPort ip "80") pingCount in
  if Z.of_nat (List.length es) =? 0 then 0%Q
  else (inject_Z (Milliseconds (sum es)) / inject_Z (Z.of_nat (List.length es)))%Q.
Proof.
  intros ip w B. cbv zeta.
  set (es := successes w (tick w) (JoinHostPort ip "80") pingCount) in *.
  assert (NN : Forall (fun e => 0 <= e) es).
  { eapply Forall_impl; [|exact B]. simpl. intros; lia. }
  pose proof (sum_bound _ _ B) as SB.
  pose proof (successes_bound w (tick w) (JoinHostPort ip "80") pingCount) as LB.
  fold es in LB. unfold pingCount in LB.
  unfold measureLatency, bind.
  rewrite measureLatency_loop_spec; fold es; auto; try lia.
  rewrite !Z.add_0_l.
  destruct (Z.of_nat (List.length es) =? 0); reflexivity.
Qed.

(** C4: when no attempt succeeds [measureLatency] returns 0; when [s >= 1]
    attempts succeed it returns the sum of the elapsed times of exactly
    those [s] attempts, cut down to whole milliseconds, divided by [s].
    Failed attempts add nothing to the sum or to the divisor.  Elapsed
    times are taken in [0, 2^62) nanoseconds, where the [int64] sum of
    two of them does not wrap. *)
Theorem measureLatency_average : forall ip w es,
  es = successes w (tick w) (JoinHostPort ip "80") pingCount ->
  Forall (fun e => 0 <= e < 2 ^ 62) es ->
  (es = [] -> fst (measureLatency ip w) = 0%Q)
  /\ (es <> [] ->
      fst (measureLatency ip w)
      = (inject_Z (Z.quot (sum es) 1000000) / inject_Z (Z.of_nat (List.length es)))%Q).
Proof.
  intros ip w es E B. subst es.
  rewrite (measureLatency_value ip w B). cbv zeta.
  set (es := successes w (tick w) (JoinHostPort ip "80") pingCount) in *.
  split; intros H.
  - now rewrite H.
  - destruct es as [|e es']; [contradiction|].
    replace (Z.of_nat (List.length (e :: es')) =? 0) with false; [reflexivity|].
    symmetry. apply Z.eqb_neq. simpl. lia.
Qed.

Lemma measureLatency_average_witness :
  fst (measureLatency "93.184.216.34" demo_world) = (3 # 2)%Q
  /\ fst (measureLatency "10.0.0.7" demo_world) = 0%Q.
Proof.
  split.
  - destruct (measureLatency_average "93.184.216.34" demo_world
                [1700000; 1700000] eq_refl) as [_ H].
    + repeat constructor; lia.
    + rewrite H; [reflexivity | discriminate].
  - destruct (measureLatency_average "10.0.0.7" demo_world [] eq_refl) as [H _].
    + constructor.
    + now apply H.
Defined.

(** The value returned is not always the mean: with two successful
    attempts of 0.7 ms each the mean is 0.7 ms and the value is 1/2. *)
Lemma measureLatency_not_the_mean :
  successes fast_world (tick fast_world) (JoinHostPort "10.0.0.1" "80") pingCount
  = [700000; 700000]
  /\ fst (measureLatency "10.0.0.1" fast_world) = (1 # 2)%Q
  /\ (mean_ms [700000; 700000]%Z == 7 # 10)%Q
  /\ (fst (measureLatency "10.0.0.1" fast_world) < mean_ms [700000; 700000]%Z)%Q.
Proof.
  repeat split.
Qed.

(** ** [saveResults] *)

Lemma ReadFile_WriteFile_same : forall {Data} name (d : Data) fs,
  ReadFile name (WriteFile name d fs) = Some d.
Proof. intros. unfold ReadFile, WriteFile. now rewrite String.eqb_refl. Qed.

Lemma ReadFile_WriteFile_other : forall {Data} name n (d : Data) fs,
  n <> name -> ReadFile n (WriteFile name d fs) = ReadFile n fs.
Proof.
  intros Data name n d fs H. unfold ReadFile, WriteFile.
  destruct (String.eqb_spec n name); [contradiction | reflexivity].
Qed.

(** C8, for the [saveResults] that first reads the file (lines 373-391):
    when the file is readable and parses to [old], the file written holds
    the encoding of [old] followed by the new results in their order, no
    other file changes, and with a codec that reads back what it wrote
    the stored sequence grows by exactly the new results. *)
Theorem saveResults_appends :
  forall (Data : Type) (MarshalIndent : list Result -> option Data)
         (Unmarshal : Data -> list Result * bool)
         (newResults old : list Result) (fs : FS Data) (data out : Data),
  ReadFile resultFile fs = Some data ->
  Unmarshal data = (old, false) ->
  MarshalIndent (old ++ newResults)%list = Some out ->
  ReadFile resultFile (saveResults Data MarshalIndent Unmarshal newResults fs)
  = Some out
  /\ (forall name, name <> resultFile ->
        ReadFile name (saveResults Data MarshalIndent Unmarshal newResults fs)
        = ReadFile name fs)
  /\ (Unmarshal out = ((old ++ newResults)%list, false) ->
      stored Data Unmarshal (saveResults Data MarshalIndent Unmarshal newResults fs)
      = (stored Data Unmarshal fs ++ newResults)%list).
Proof.
  intros Data MarshalIndent Unmarshal newResults old fs data out R U M.
  unfold saveResults, stored. rewrite R, U. cbn [fst]. rewrite M.
  split; [apply ReadFile_WriteFile_same|]. split.
  - intros name H. now apply ReadFile_WriteFile_other.
  - intros RT. now rewrite ReadFile_WriteFile_same, RT.
Qed.

Lemma saveResults_appends_witness :
  ReadFile resultFile
    (saveResults (list Result) plain_marshal plain_unmarshal
       [demo_result "b.example.com"; demo_result "c.example.com"]
       (WriteFile resultFile [demo_result "a.example.com"] (fun _ => None)))
  = Some [demo_result "a.example.com"; demo_result "b.example.com";
          demo_result "c.example.com"].
Proof.
  exact (proj1 (saveResults_appends (list Result) plain_marshal plain_unmarshal
                  [demo_result "b.example.com"; demo_result "c.example.com"]
                  [demo_result "a.example.com"]
                  (WriteFile resultFile [demo_result "a.example.com"] (fun _ => None))
                  [demo_result "a.example.com"] _ eq_refl eq_refl eq_refl)).
Defined.

(** The [saveResults] of lines 163-170 replaces: a store that holds one
    result holds only the new one after the call. *)
Lemma earlier_saveResults_replaces :
  Earlier.stored (list Earlier.Result) plain_unmarshal
    (WriteFile Earlier.resultFile [earlier_a] (fun _ => None)) = [earlier_a]
  /\ Earlier.stored (list Earlier.Result) plain_unmarshal
       (Earlier.saveResults (list Earlier.Result) plain_marshal [earlier_b]
          (WriteFile Earlier.resultFile [earlier_a] (fun _ => None)))
     = [earlier_b]
  /\ [earlier_b] <> ([earlier_a] ++ [earlier_b])%list.
Proof.
  repeat split. discriminate.
Qed.

(* ===================================================================== *)
(** * Further properties *)
(* ===================================================================== *)

(** Every step of a reachable pool is one of the moves: the panics of
    [main_step] and [worker_step] are never met. *)
Lemma step_Moves : forall cfg c p p',
  reachable cfg p -> step cfg c p = Some p' -> Moves cfg c p p'.
Proof.
  intros cfg c p p' R H. pose proof (Inv_reachable _ _ R) as I.
  unfold step in H. rewrite (inv_panic _ _ I) in H.
  destruct c as [|i w].
  - unfold main_step in H.
    destruct (mainpc p) as [i | [|sub rest] | | | | acc | acc] eqn:PC.
    + destruct (i <? maxWorkers)%nat eqn:L; inversion H; subst p'.
      * eapply Move_spawn; eauto. now apply Nat.ltb_lt.
      * eapply Move_spawned; eauto. now apply Nat.ltb_ge.
    + inversion H; subst p'. now apply Move_fed.
    + assert (JC : jobs_closed p = false)
        by (rewrite (inv_closed _ _ I), PC; reflexivity).
      rewrite JC in H at 1.
      pose proof (inv_len _ _ I) as LEN. rewrite PC in LEN.
      cbn [unfed List.length] in LEN.
      destruct (List.length (jobs p) <? List.length (subdomains cfg))%nat eqn:L;
        [|apply Nat.ltb_ge in L; lia].
      inversion H; subst p'. now apply Move_feed.
    + assert (JC : jobs_closed p = false)
        by (rewrite (inv_closed _ _ I), PC; reflexivity).
      rewrite JC in H at 1.
      inversion H; subst p'. now apply Move_close_jobs.
    + destruct (wg p =? 0) eqn:W; inversion H; subst p'.
      apply Move_wait; [exact PC | now apply Z.eqb_eq].
    + assert (RC : results_closed p = false)
        by (rewrite (inv_rclosed _ _ I); unfold draining; now rewrite PC).
      rewrite RC in H at 1.
      inversion H; subst p'. now apply Move_close_results.
    + destruct (results p) as [|res rest] eqn:Rs.
      * assert (RC : results_closed p = true)
          by (rewrite (inv_rclosed _ _ I); unfold draining; now rewrite PC).
        rewrite RC in H at 1.
        inversion H; subst p'. now apply Move_drained.
      * inversion H; subst p'. eapply Move_drain; eauto.
    + discriminate.
  - unfold worker_step in H.
    destruct (nth_error (workers p) i) as [[ | sub | sub res | sub | | ]|] eqn:N;
      try discriminate.
    + destruct (jobs p) as [|sub rest] eqn:J.
      * destruct (jobs_closed p) eqn:C; inversion H; subst p'.
        now apply Move_leave.
      * inversion H; subst p'. eapply Move_receive; eauto.
    + destruct (fst (scanJob (domain cfg) (ports cfg) sub w)) as [r|] eqn:S;
        inversion H; subst p'.
      * now apply Move_resolved.
      * now apply Move_unresolved.
    + pose proof (total_nth_le alive_n _ _ _ N) as A.
      pose proof (total_nth_le pending_n _ _ _ N) as Pn.
      cbn [alive_n returned pending_n] in A, Pn.
      pose proof (inv_wg _ _ I) as WG. pose proof (inv_len _ _ I) as LEN.
      pose proof (inv_cap _ _ I) as CAP. pose proof (inv_shut _ _ I) as SH.
      assert (RC : results_closed p = false).
      { rewrite (inv_rclosed _ _ I). destruct (draining p) eqn:D; [|reflexivity].
        exfalso. unfold draining in D. unfold shut_down in SH.
        destruct (mainpc p); try discriminate D; specialize (SH eq_refl); lia. }
      rewrite RC in H at 1.
      destruct (List.length (results p) <? List.length (subdomains cfg))%nat eqn:L;
        [|apply Nat.ltb_ge in L; lia].
      inversion H; subst p'. now apply Move_send.
    + inversion H; subst p'. now apply Move_count.
    + pose proof (total_nth_le alive_n _ _ _ N) as A.
      cbn [alive_n returned] in A. pose proof (inv_wg _ _ I) as WG.
      destruct (wg p - 1 <? 0) eqn:W; [apply Z.ltb_lt in W; lia|].
      inversion H; subst p'. now apply Move_done.
Qed.

(** ** More on the pool *)

Lemma held_is_candidate : forall cfg p i pc sub,
  reachable cfg p -> nth_error (workers p) i = Some pc ->
  In sub (holding pc) -> In sub (subdomains cfg).
Proof.
  intros cfg p i pc sub R N H. pose proof (Inv_reachable _ _ R) as I.
  pose proof (inv_occ _ _ I sub) as O.
  pose proof (total_nth_le (fun pc => occ sub (holding pc)) _ _ _ N) as T.
  cbv beta in T.
  assert (P : (0 < occ sub (holding pc))%nat)
    by (unfold occ; apply count_occ_In; exact H).
  apply (count_occ_In string_dec). unfold occ in *. lia.
Qed.

Lemma open_ports_incl : forall w k host ps, incl (open_ports w k host ps) ps.
Proof.
  intros w k host ps. revert k.
  induction ps as [|p ps IH]; intros k; simpl; [apply incl_refl|].
  destruct (connected (dial_answer w k (JoinHostPort host p))).
  - apply incl_cons; [now left | apply incl_tl, IH].
  - apply incl_tl, IH.
Qed.

Lemma scanJob_result : forall dom ps sub w r,
  fst (scanJob dom ps sub w) = Some r ->
  Reachable r = true /\ Host r = sub ++ "." ++ dom
  /\ IPAddress r <> "" /\ incl (OpenPorts r) ps.
Proof.
  intros dom ps sub w r H.
  destruct (scanJob dom ps sub w) as [o w'] eqn:E. cbn [fst] in H. subst o.
  destruct (scanJob_some_resolved _ _ _ _ _ _ E) as (addrs & ipv4 & Rs).
  pose proof (scanJob_resolved dom ps sub w addrs ipv4 Rs) as SJ. cbv zeta in SJ.
  rewrite SJ in E. injection E as <- _. cbn [Reachable Host IPAddress OpenPorts].
  destruct Rs as (_ & _ & NE).
  repeat split; auto. apply open_ports_incl.
Qed.

Lemma Sound_reachable : forall cfg p, reachable cfg p -> Sound cfg p.
Proof.
  intros cfg p R. induction R as [|p c p' R IH S].
  - constructor; simpl; auto. intros pc sub r [].
  - apply step_Moves in S; [|exact R]. destruct IH as [IR IA IS].
    assert (KEEP : forall i b,
               (forall sub r, b = AtSend sub r -> well_formed cfg r) ->
               forall pc sub r, In pc (set_nth i b (workers p)) ->
                                pc = AtSend sub r -> well_formed cfg r).
    { intros i b Hb pc sub r Hin E. apply In_set_nth in Hin.
      destruct Hin as [-> | Hin]; eauto. }
    destruct S; constructor;
      cbn [results mainpc workers set_main set_worker sent counted acc_of];
      rewrite ?H in *; cbn [acc_of] in *; auto;
      try (apply KEEP; intros; discriminate).
    + intros pc sub r Hin E. apply in_app_or in Hin.
      destruct Hin as [Hin | [<- | []]]; [eauto | discriminate].
    + rewrite H0 in IR. now inversion IR.
    + rewrite H0 in IR. inversion IR; subst.
      destruct (Reachable res); [|exact IA].
      apply Forall_app. split; [exact IA | now constructor].
    + apply KEEP. intros sub0 r E. inversion E; subst.
      destruct (scanJob_result _ _ _ _ _ H0) as (Rb & Hh & Ia & Op).
      repeat split; auto. exists sub0. split; [|exact Hh].
      eapply held_is_candidate; eauto. now left.
    + apply Forall_app. split; [exact IR|]. constructor; [|constructor].
      eapply IS; [eapply nth_error_In; eauto | reflexivity].
Qed.

Lemma occ_map_app : forall {A} (f : A -> string) h l1 l2,
  occ h (map f (l1 ++ l2)) = (occ h (map f l1) + occ h (map f l2))%nat.
Proof. intros. now rewrite map_app, occ_app. Qed.

Ltac tally_pose :=
  repeat match goal with
  | N : nth_error (workers ?p) ?i = Some ?a
    |- context [total ?f (set_nth ?i ?b (workers ?p))] =>
      lazymatch goal with
      | _ : (total f (set_nth i b (workers p)) + _ = _)%nat |- _ => fail
      | _ => pose proof (total_set_nth f _ _ _ b N)
      end
  end.

Ltac tally_simpl :=
  cbv beta in *; cbn [out_of done_of map List.length acc_of] in *;
  rewrite ?occ_nil, ?occ_one, ?occ_cons, ?occ_map_app, ?length_app,
          ?total_app in *;
  cbv beta in *; cbn [out_of done_of map List.length acc_of] in *;
  rewrite ?occ_nil, ?occ_one, ?occ_cons in *.

Lemma Tally_reachable : forall cfg p, reachable cfg p -> Tally cfg p.
Proof.
  intros cfg p R. induction R as [|p c p' R IH S].
  - constructor; simpl; auto; try lia; intros pc sub r [].
  - apply step_Moves in S; [|exact R]. destruct IH as [TS TH TL].
    assert (KEEP : forall i b,
               (forall sub r, b = AtSend sub r -> Host r = sub ++ "." ++ domain cfg) ->
               forall pc sub r, In pc (set_nth i b (workers p)) ->
                                pc = AtSend sub r ->
                                Host r = sub ++ "." ++ domain cfg).
    { intros i b Hb pc sub r Hin E. apply In_set_nth in Hin.
      destruct Hin as [-> | Hin]; eauto. }
    destruct S; constructor;
      cbn [results mainpc workers set_main set_worker sent counted acc_of
           progressed];
      try (intros h; specialize (TH h));
      rewrite ?H in *; rewrite ?H0 in *;
      try solve [apply KEEP; intros; discriminate];
      try solve [tally_pose; tally_simpl; auto; try lia;
                 try (destruct (Reachable res)); tally_simpl; lia].
    + intros pc sub r Hin E. apply in_app_or in Hin.
      destruct Hin as [Hin | [<- | []]]; [eauto | discriminate].
    + apply KEEP. intros sub0 r E. inversion E; subst.
      now destruct (scanJob_result _ _ _ _ _ H0) as (_ & Hh & _).
    + destruct (scanJob_result _ _ _ _ _ H0) as (_ & Hh & _).
      tally_pose; tally_simpl. rewrite Hh in *. lia.
Qed.

Lemma saved_channel_empty : forall cfg p allResults,
  reachable cfg p -> mainpc p = MSave allResults -> results p = [].
Proof.
  intros cfg p acc R. revert acc. induction R as [|p c p' R IH S]; intros acc E.
  - discriminate E.
  - pose proof (step_Moves _ _ _ _ R S) as M.
    destruct M; cbn [mainpc results set_main set_worker sent counted] in *;
      try discriminate E; try assumption.
    all: exfalso;
      match goal with
      | N : nth_error (workers ?q) _ = Some _, Rq : reachable _ ?q |- _ =>
          assert (SD : shut_down q = true) by (unfold shut_down; now rewrite E);
          destruct (shutdown_workers_returned _ _ Rq SD) as [_ Ret];
          specialize (Ret _ (nth_error_In _ _ N)); discriminate Ret
      end.
Qed.

Lemma steady_record : forall L D e w, steady L D w -> steady L D (record e w).
Proof. intros L D e w S k x. exact (S k x). Qed.

Lemma steady_after : forall L D evs w, steady L D w -> steady L D (after w evs).
Proof. intros L D evs w S k x. exact (S k x). Qed.

Lemma open_ports_steady : forall L D w1 w2 k1 k2 host ps,
  steady L D w1 -> steady L D w2 ->
  open_ports w1 k1 host ps = open_ports w2 k2 host ps.
Proof.
  intros L D w1 w2 k1 k2 host ps S1 S2. revert k1 k2.
  induction ps as [|p ps IH]; intros k1 k2; simpl; [reflexivity|].
  rewrite (proj2 (S1 k1 _)), (proj2 (S2 k2 _)).
  destruct (connected (D (JoinHostPort host p))); now rewrite (IH (S k1) (S k2)).
Qed.

Lemma measureLatency_loop_steady : forall L D n ip total success w1 w2,
  steady L D w1 -> steady L D w2 ->
  fst (measureLatency_loop n ip total success w1)
  = fst (measureLatency_loop n ip total success w2).
Proof.
  intros L D n. induction n as [|n IH]; intros ip total success w1 w2 S1 S2.
  - reflexivity.
  - cbn [measureLatency_loop]. unfold bind, DialTimeout.
    rewrite (proj2 (S1 (tick w1) _)), (proj2 (S2 (tick w2) _)).
    destruct (connected (D (JoinHostPort ip "80")));
      apply IH; now apply steady_record.
Qed.

Lemma measureLatency_steady : forall L D ip w1 w2,
  steady L D w1 -> steady L D w2 ->
  fst (measureLatency ip w1) = fst (measureLatency ip w2).
Proof.
  intros L D ip w1 w2 S1 S2. unfold measureLatency, bind.
  pose proof (measureLatency_loop_steady L D pingCount ip 0 0 w1 w2 S1 S2) as E.
  destruct (measureLatency_loop pingCount ip 0 0 w1) as [[t1 s1] w1'].
  destruct (measureLatency_loop pingCount ip 0 0 w2) as [[t2 s2] w2'].
  cbn [fst] in E. injection E as -> ->.
  destruct (s2 =? 0); reflexivity.
Qed.

Lemma scanJob_steady : forall L D dom ps sub w1 w2,
  steady L D w1 -> steady L D w2 ->
  fst (scanJob dom ps sub w1) = fst (scanJob dom ps sub w2).
Proof.
  intros L D dom ps sub w1 w2 S1 S2.
  pose proof (proj1 (S1 (tick w1) (sub ++ "." ++ dom))) as L1.
  pose proof (proj1 (S2 (tick w2) (sub ++ "." ++ dom))) as L2.
  destruct (L (sub ++ "." ++ dom)) as [addrs|] eqn:E.
  - destruct (String.eqb_spec (firstIPv4 addrs) "") as [B | NB].
    + rewrite !scanJob_unresolved; [reflexivity | right | right];
        exists addrs; auto.
    + rewrite (scanJob_resolved dom ps sub w1 addrs (firstIPv4 addrs));
        [|repeat split; auto].
      rewrite (scanJob_resolved dom ps sub w2 addrs (firstIPv4 addrs));
        [|repeat split; auto].
      cbn [fst]. f_equal. f_equal.
      * apply (measureLatency_steady L D); now apply steady_after.
      * now apply (open_ports_steady L D).
  - rewrite !scanJob_unresolved; [reflexivity | now left | now left].
Qed.

Lemma scan_steady : forall L D cfg sub w,
  steady L D w -> fst (scanJob (domain cfg) (ports cfg) sub w) = scan L D cfg sub.
Proof.
  intros L D cfg sub w S. unfold scan. apply (scanJob_steady L D); [exact S|].
  intros k x. split; reflexivity.
Qed.

Lemma expected_app : forall L D cfg l1 l2,
  expected L D cfg (l1 ++ l2) = (expected L D cfg l1 ++ expected L D cfg l2)%list.
Proof. intros. unfold expected. apply flat_map_app. Qed.

Lemma occR_app : forall x l1 l2, occR x (l1 ++ l2) = (occR x l1 + occR x l2)%nat.
Proof. intros; apply count_occ_app. Qed.

Lemma expected_nil : forall L D cfg, expected L D cfg [] = [].
Proof. reflexivity. Qed.

Lemma expected_one : forall L D cfg sub,
  expected L D cfg [sub]
  = match scan L D cfg sub with Some r => [r] | None => [] end.
Proof. intros. unfold expected. simpl. now rewrite app_nil_r. Qed.

Lemma occR_nil : forall x, occR x [] = 0%nat.
Proof. reflexivity. Qed.

Lemma occR_one : forall x y,
  occR x [y] = if Result_eq_dec y x then 1%nat else 0%nat.
Proof. intros. unfold occR. simpl. now destruct (Result_eq_dec y x). Qed.

Lemma occR_cons : forall x y l,
  occR x (y :: l) = ((if Result_eq_dec y x then 1 else 0) + occR x l)%nat.
Proof. intros. unfold occR. simpl. now destruct (Result_eq_dec y x). Qed.

Ltac faithful_simpl :=
  cbv beta in *; cbn [out_of done_of acc_of] in *;
  rewrite ?expected_app, ?occR_app, ?total_app, ?expected_nil in *;
  cbv beta in *; cbn [out_of done_of acc_of] in *;
  rewrite ?expected_nil, ?occR_nil, ?occR_one, ?occR_cons in *.

Lemma Faithful_step : forall L D cfg c p p',
  reachable cfg p -> calm L D c -> step cfg c p = Some p' ->
  Faithful L D cfg p -> Faithful L D cfg p'.
Proof.
  intros L D cfg c p p' R C S [FS FC].
  pose proof (Sound_reachable _ _ R) as SD.
  apply step_Moves in S; [|exact R].
  assert (KEEP : forall i b,
             (forall sub r, b = AtSend sub r -> scan L D cfg sub = Some r) ->
             forall pc sub r, In pc (set_nth i b (workers p)) ->
                              pc = AtSend sub r -> scan L D cfg sub = Some r).
  { intros i b Hb pc sub r Hin E. apply In_set_nth in Hin.
    destruct Hin as [-> | Hin]; eauto. }
  destruct S; constructor;
    cbn [results mainpc workers set_main set_worker sent counted acc_of
         progressed];
    try (intros x; specialize (FC x));
    rewrite ?H in *; rewrite ?H0 in *;
    try solve [apply KEEP; intros; discriminate];
    try solve [tally_pose; faithful_simpl; auto; lia].
  - intros pc sub r Hin E. apply in_app_or in Hin.
    destruct Hin as [Hin | [<- | []]]; [eauto | discriminate].
  - destruct SD as [SR _ _]. rewrite H0 in SR. inversion SR as [|? ? W _]; subst.
    destruct W as (Rb & _). rewrite Rb. faithful_simpl. lia.
  - rewrite (scan_steady L D cfg sub w C) in H0.
    tally_pose; faithful_simpl. rewrite expected_one, H0 in *.
    faithful_simpl. lia.
  - apply KEEP. intros sub0 r E. inversion E; subst.
    now rewrite <- (scan_steady L D cfg sub0 w C).
  - rewrite (scan_steady L D cfg sub w C) in H0.
    tally_pose; faithful_simpl. rewrite expected_one, H0 in *.
    faithful_simpl. lia.
Qed.

Lemma Faithful_init : forall L D cfg, Faithful L D cfg init.
Proof. intros. constructor; simpl; auto. intros pc sub r []. Qed.

Lemma Faithful_run : forall L D cfg cs p p',
  reachable cfg p -> Faithful L D cfg p -> Forall (calm L D) cs ->
  run cfg cs p = Some p' -> Faithful L D cfg p'.
Proof.
  intros L D cfg cs. induction cs as [|c cs IH]; intros p p' R F C H; simpl in H.
  - now inversion H; subst.
  - destruct (step cfg c p) as [q|] eqn:S; [|discriminate].
    inversion C; subst.
    eapply IH; [eapply reach_step; eauto | eapply Faithful_step; eauto | auto | exact H].
Qed.

Lemma expected_Permutation : forall L D cfg l1 l2,
  Permutation l1 l2 -> Permutation (expected L D cfg l1) (expected L D cfg l2).
Proof. intros. unfold expected. now apply Permutation_flat_map. Qed.

(** On a steady network the results [main] holds when it reaches
    [saveResults] are, counted one by one, those of the jobs counted. *)
Lemma saved_results_counted : forall L D cfg cs p allResults,
  Forall (calm L D) cs ->
  run cfg cs init = Some p ->
  mainpc p = MSave allResults ->
  forall x, occR x allResults = occR x (expected L D cfg (progressed p)).
Proof.
  intros L D cfg cs p acc C H E x.
  pose proof (run_reachable _ _ _ _ (reach_init cfg) H) as R.
  assert (SD : shut_down p = true) by (unfold shut_down; now rewrite E).
  destruct (shutdown_workers_returned _ _ R SD) as [_ Ret].
  destruct (Faithful_run L D cfg cs init p (reach_init cfg)
              (Faithful_init L D cfg) C H) as [_ FC].
  specialize (FC x).
  rewrite E, (saved_channel_empty _ _ _ R E) in FC. cbn [acc_of] in FC.
  rewrite (all_returned_total (fun pc => occR x (out_of pc))) in FC;
    [|exact Ret | intros pc Hr; destruct pc; try discriminate; reflexivity].
  rewrite (all_returned_total (fun pc => occR x (expected L D cfg (done_of pc))))
    in FC;
    [|exact Ret | intros pc Hr; destruct pc; try discriminate; reflexivity].
  unfold occR in FC. simpl in FC. unfold occR. lia.
Qed.

Lemma occ_flat_map_holding : forall x ws,
  occ x (flat_map holding ws) = total (fun pc => occ x (holding pc)) ws.
Proof.
  intros x ws. induction ws as [|pc ws IH]; simpl; [reflexivity|].
  now rewrite occ_app, IH.
Qed.

Lemma length_flat_map_holding : forall ws,
  (List.length (flat_map holding ws) <= List.length ws)%nat.
Proof.
  induction ws as [|pc ws IH]; simpl; [lia|].
  rewrite length_app. destruct pc; simpl; lia.
Qed.

Lemma queue_is_a_segment : forall cfg p,
  reachable cfg p ->
  exists taken, subdomains cfg = (taken ++ jobs p ++ unfed cfg (mainpc p))%list.
Proof.
  intros cfg p R. induction R as [|p c p' R [taken E] S].
  - exists []. reflexivity.
  - apply step_Moves in S; [|exact R].
    destruct S; cbn [jobs mainpc set_main set_worker sent counted];
      rewrite ?H in *; rewrite ?H0 in *; cbn [unfed] in *;
      try (exists taken; exact E).
    + exists taken. rewrite E. rewrite <- (app_assoc (jobs p)). reflexivity.
    + exists (taken ++ [sub])%list. rewrite E. rewrite <- (app_assoc taken).
      reflexivity.
Qed.

(** X3: the workers take the candidates in the order of the word list:
    at any time the list is the candidates taken so far, then the ones
    waiting on [jobs], then the ones [main] has still to send; and the
    candidates taken are those in a worker's hand or already counted. *)
Theorem jobs_taken_in_order : forall cfg p,
  reachable cfg p ->
  exists taken,
    subdomains cfg = (taken ++ jobs p ++ unfed cfg (mainpc p))%list
    /\ Permutation taken (flat_map holding (workers p) ++ progressed p).
Proof.
  intros cfg p R. destruct (queue_is_a_segment _ _ R) as [taken E].
  exists taken. split; [exact E|].
  apply (Permutation_count_occ string_dec). intros x.
  pose proof (inv_occ _ _ (Inv_reachable _ _ R) x) as O.
  assert (C : occ x (subdomains cfg)
              = (occ x taken + occ x (jobs p) + occ x (unfed cfg (mainpc p)))%nat).
  { rewrite E, !occ_app. lia. }
  fold (occ x taken). fold (occ x (flat_map holding (workers p) ++ progressed p)).
  rewrite occ_app, occ_flat_map_holding. lia.
Qed.

Lemma jobs_taken_in_order_witness :
  exists taken,
    ["www"; "nope"; "mail"] = (taken ++ [] ++ [])%list
    /\ Permutation taken ([] ++ ["nope"; "www"; "mail"]).
Proof.
  exact (jobs_taken_in_order demo_config demo_final demo_reachable).
Defined.

(** X1: no schedule of the pool is longer than [6 N + 607] steps for [N]
    candidates: whatever the scheduler and the network do, the pool
    stops. *)
Theorem schedules_are_bounded : forall cfg cs p,
  run cfg cs init = Some p ->
  (List.length cs <= 6 * List.length (subdomains cfg) + 607)%nat.
Proof.
  intros cfg cs p H. pose proof (run_bounded _ _ _ _ H) as B.
  unfold steps_left at 2 in B. cbn in B. lia.
Qed.

Lemma schedules_are_bounded_witness :
  (List.length demo_schedule <= 6 * 3 + 607)%nat.
Proof. exact (schedules_are_bounded demo_config demo_schedule demo_final demo_run). Defined.

(** X2: the pool bounds the concurrency: there are never more than
    [maxWorkers] workers, so never more than [maxWorkers] candidates out
    of the queue and not yet counted. *)
Theorem jobs_in_hand_bounded : forall cfg p,
  reachable cfg p ->
  (List.length (workers p) <= maxWorkers)%nat
  /\ (List.length (flat_map holding (workers p)) <= maxWorkers)%nat.
Proof.
  intros cfg p R. pose proof (inv_spawned _ _ (Inv_reachable _ _ R)) as S.
  assert (L : (List.length (workers p) <= maxWorkers)%nat)
    by (destruct (mainpc p); lia).
  split; [exact L|]. pose proof (length_flat_map_holding (workers p)). lia.
Qed.

Lemma jobs_in_hand_bounded_witness :
  (List.length (workers demo_final) <= 200)%nat
  /\ (List.length (flat_map holding (workers demo_final)) <= 200)%nat.
Proof. exact (jobs_in_hand_bounded demo_config demo_final demo_reachable). Defined.

(** X4: in a reachable pool [main] waits only at [wg.Wait()], while the
    wait group is not at zero, and a worker waits only at its range over
    an empty [jobs] that is still open: no send on [jobs] or [results]
    ever finds the buffer full, and the drain never finds [results] open
    and empty. *)
Theorem blocked_only_at_wait_and_range : forall cfg p,
  reachable cfg p ->
  (main_step cfg p = None ->
   (mainpc p = MWait /\ wg p <> 0) \/ exists allResults, mainpc p = MSave allResults)
  /\ (forall i w,
        worker_step cfg i w p = None ->
        nth_error (workers p) i = None
        \/ nth_error (workers p) i = Some Returned
        \/ (nth_error (workers p) i = Some AtRange
            /\ jobs p = [] /\ jobs_closed p = false)).
Proof.
  intros cfg p R. pose proof (Inv_reachable _ _ R) as I. split.
  - intros H. unfold main_step in H.
    destruct (mainpc p) as [i | [|sub rest] | | | | acc | acc] eqn:PC.
    + destruct (i <? maxWorkers)%nat; discriminate H.
    + discriminate H.
    + exfalso. pose proof (inv_closed _ _ I) as JC. rewrite PC in JC.
      cbn [past_close] in JC. rewrite JC in H.
      pose proof (inv_len _ _ I) as LEN. rewrite PC in LEN.
      cbn [unfed List.length] in LEN.
      destruct (List.length (jobs p) <? List.length (subdomains cfg))%nat eqn:L;
        [discriminate H | apply Nat.ltb_ge in L; lia].
    + destruct (jobs_closed p); discriminate H.
    + left. split; [reflexivity|].
      destruct (wg p =? 0) eqn:W; [discriminate H | now apply Z.eqb_neq].
    + destruct (results_closed p); discriminate H.
    + exfalso. pose proof (inv_rclosed _ _ I) as RC. unfold draining in RC.
      rewrite PC in RC. rewrite RC in H.
      destruct (results p); discriminate H.
    + right. now exists acc.
  - intros i w H. unfold worker_step in H.
    destruct (nth_error (workers p) i) as [[ | sub | sub res | sub | | ]|] eqn:N;
      auto.
    + right. right. split; [reflexivity|].
      destruct (jobs p); [|discriminate H].
      destruct (jobs_closed p); [discriminate H | auto].
    + destruct (fst (scanJob (domain cfg) (ports cfg) sub w)); discriminate H.
    + exfalso. destruct (results_closed p); [discriminate H|].
      pose proof (total_nth_le pending_n _ _ _ N) as Pn. cbn [pending_n] in Pn.
      pose proof (inv_len _ _ I) as LEN. pose proof (inv_cap _ _ I) as CAP.
      destruct (List.length (results p) <? List.length (subdomains cfg))%nat eqn:L;
        [discriminate H | apply Nat.ltb_ge in L; lia].
    + discriminate H.
    + destruct (wg p - 1 <? 0); discriminate H.
Qed.

Lemma demo_waiting_reachable : reachable demo_config demo_waiting.
Proof.
  apply (run_reachable demo_config (repeat RunMain 206) init);
    [apply reach_init | vm_compute; reflexivity].
Qed.

Lemma blocked_witness :
  main_step demo_config demo_waiting = None
  /\ mainpc demo_waiting = MWait /\ wg demo_waiting = 200.
Proof.
  assert (B : main_step demo_config demo_waiting = None)
    by (vm_compute; reflexivity).
  split; [exact B|].
  destruct (proj1 (blocked_only_at_wait_and_range demo_config demo_waiting
                     demo_waiting_reachable) B) as [[E _] | [a E]].
  - split; [exact E | vm_compute; reflexivity].
  - exfalso. vm_compute in E. discriminate E.
Defined.

(** X5: every result on the channel or in [allResults] was built by a
    worker for a candidate of the list: it is reachable, its host is that
    candidate joined to the domain, it has an address, and its open ports
    are among the requested ones. *)
Theorem results_are_well_formed : forall cfg p,
  reachable cfg p ->
  Forall (well_formed cfg) (results p ++ acc_of (mainpc p)).
Proof.
  intros cfg p R. destruct (Sound_reachable _ _ R) as [SR SA _].
  apply Forall_app. split; assumption.
Qed.

Lemma results_are_well_formed_witness :
  Forall (well_formed demo_config)
    [mkResult "mail.example.com" "10.0.0.7" 0 true [];
     mkResult "www.example.com" "93.184.216.34" (3 # 2) true ["80"]].
Proof.
  exact (results_are_well_formed demo_config demo_final demo_reachable).
Defined.

(** X6: a candidate gives at most one result: the results handed to
    [saveResults] are no more than the candidates, and for every host no
    more than the times its candidate stands in the list. *)
Theorem at_most_one_result_per_job : forall cfg p allResults,
  reachable cfg p -> mainpc p = MSave allResults ->
  (List.length allResults <= List.length (subdomains cfg))%nat
  /\ forall h,
       (occ h (map Host allResults)
        <= occ h (map (fun sub => sub ++ "." ++ domain cfg) (subdomains cfg)))%nat.
Proof.
  intros cfg p acc R E.
  assert (SD : shut_down p = true) by (unfold shut_down; now rewrite E).
  destruct (shutdown_workers_returned _ _ R SD) as [_ Ret].
  pose proof (shutdown_progressed _ _ R SD) as P.
  destruct (Tally_reachable _ _ R) as [_ TH TL]. rewrite E in *. cbn [acc_of] in *.
  split.
  - rewrite (all_returned_total (fun pc => List.length (done_of pc))) in TL;
      [|exact Ret | intros pc Hr; destruct pc; try discriminate; reflexivity].
    rewrite <- (Permutation_length P). lia.
  - intros h. specialize (TH h).
    rewrite (all_returned_total
               (fun pc => occ h (map (fun sub => sub ++ "." ++ domain cfg)
                                     (done_of pc)))) in TH;
      [|exact Ret | intros pc Hr; destruct pc; try discriminate; reflexivity].
    assert (PE : occ h (map (fun sub => sub ++ "." ++ domain cfg) (progressed p))
                 = occ h (map (fun sub => sub ++ "." ++ domain cfg) (subdomains cfg))).
    { unfold occ. apply Permutation_count_occ. now apply Permutation_map. }
    lia.
Qed.

Lemma at_most_one_result_witness :
  (2 <= 3)%nat
  /\ forall h,
       (occ h ["mail.example.com"; "www.example.com"]
        <= occ h ["www.example.com"; "nope.example.com"; "mail.example.com"])%nat.
Proof.
  exact (at_most_one_result_per_job demo_config demo_final _ demo_reachable
           (proj1 demo_outcome)).
Defined.

(** X7: on a network whose answers depend only on the host and the
    address asked, the results handed to [saveResults] are, up to their
    order, the results of scanning each candidate on its own, whatever
    the schedule: the [Reachable] test of the drain drops none, and no
    result is lost or made twice. *)
Theorem results_independent_of_schedule : forall L D cfg cs p allResults,
  Forall (calm L D) cs ->
  run cfg cs init = Some p ->
  mainpc p = MSave allResults ->
  Permutation allResults (expected L D cfg (subdomains cfg)).
Proof.
  intros L D cfg cs p acc C H E.
  pose proof (run_reachable _ _ _ _ (reach_init cfg) H) as R.
  assert (SD : shut_down p = true) by (unfold shut_down; now rewrite E).
  apply Permutation_trans with (expected L D cfg (progressed p)).
  - apply (Permutation_count_occ Result_eq_dec). intros x.
    exact (saved_results_counted L D cfg cs p acc C H E x).
  - apply expected_Permutation. exact (shutdown_progressed _ _ R SD).
Qed.

Lemma calm_schedule_calm :
  Forall (calm (lookup_answer demo_world 0) (dial_answer demo_world 0))
         calm_schedule.
Proof.
  assert (S : steady (lookup_answer demo_world 0) (dial_answer demo_world 0)
                     demo_world)
    by (intros k x; split; reflexivity).
  unfold calm_schedule.
  apply Forall_app; split; [|apply Forall_app; split; [|apply Forall_app; split]].
  - apply Forall_forall. intros c H. apply repeat_spec in H. now subst.
  - apply Forall_forall. intros c H. apply in_map_iff in H.
    destruct H as (i & <- & _). exact S.
  - apply Forall_forall. intros c H. apply in_flat_map in H.
    destruct H as (i & _ & [<- | [<- | []]]); exact S.
  - apply Forall_forall. intros c H. apply repeat_spec in H. now subst.
Qed.

Lemma results_independent_witness :
  Permutation
    [mkResult "mail.example.com" "10.0.0.7" 0 true [];
     mkResult "www.example.com" "93.184.216.34" (3 # 2) true ["80"]]
    (expected (lookup_answer demo_world 0) (dial_answer demo_world 0)
              demo_config ["www"; "nope"; "mail"]).
Proof.
  apply (results_independent_of_schedule
           (lookup_answer demo_world 0) (dial_answer demo_world 0)
           demo_config calm_schedule calm_final).
  - exact calm_schedule_calm.
  - vm_compute. reflexivity.
  - vm_compute. reflexivity.
Defined.

(** X8: when [main] reaches [saveResults] the pool is at rest: both
    channels are closed and empty, so no job was left behind and no
    result is still under way, the wait group is at zero, and neither
    [main] nor any worker has a step left in the pool. *)
Theorem pool_ends_at_rest : forall cfg p allResults,
  reachable cfg p -> mainpc p = MSave allResults ->
  jobs p = [] /\ results p = []
  /\ jobs_closed p = true /\ results_closed p = true
  /\ wg p = 0
  /\ forall c, step cfg c p = None.
Proof.
  intros cfg p acc R E. pose proof (Inv_reachable _ _ R) as I.
  assert (SD : shut_down p = true) by (unfold shut_down; now rewrite E).
  destruct (shutdown_workers_returned _ _ R SD) as [Len Ret].
  assert (J : jobs p = [] /\ jobs_closed p = true).
  { destruct (workers p) as [|pc ws] eqn:W; [simpl in Len; discriminate Len|].
    assert (Rp : returned pc = true) by (apply Ret; now left).
    apply (inv_exited _ _ I pc); [rewrite W; now left|].
    destruct pc; try discriminate; reflexivity. }
  destruct J as [J JC].
  repeat split; auto.
  - exact (saved_channel_empty _ _ _ R E).
  - rewrite (inv_rclosed _ _ I). unfold draining. now rewrite E.
  - exact (inv_shut _ _ I SD).
  - intros c. unfold step. rewrite (inv_panic _ _ I).
    destruct c as [|i w].
    + unfold main_step. now rewrite E.
    + unfold worker_step.
      destruct (nth_error (workers p) i) as [pc|] eqn:N; [|reflexivity].
      specialize (Ret pc (nth_error_In _ _ N)).
      destruct pc; try discriminate; reflexivity.
Qed.

Lemma pool_ends_at_rest_witness :
  jobs demo_final = [] /\ results demo_final = []
  /\ jobs_closed demo_final = true /\ results_closed demo_final = true
  /\ wg demo_final = 0
  /\ forall c, step demo_config c demo_final = None.
Proof.
  exact (pool_ends_at_rest demo_config demo_final _ demo_reachable
           (proj1 demo_outcome)).
Defined.

(** ** More on [saveResults] *)

(** X9: with a codec that encodes every sequence and reads back what it
    wrote, [saveResults] makes the stored sequence grow by exactly the
    new results, whatever the store held: nothing when the file is
    missing, what [Unmarshal] left when the file did not parse.  Two
    calls store what one call with both sequences stores, so saving the
    same results twice stores them twice. *)
Theorem saveResults_grows_store :
  forall (Data : Type) (MarshalIndent : list Result -> option Data)
         (Unmarshal : Data -> list Result * bool),
  (forall rs, exists out, MarshalIndent rs = Some out /\ fst (Unmarshal out) = rs) ->
  forall (a b : list Result) (fs : FS Data),
    stored Data Unmarshal (saveResults Data MarshalIndent Unmarshal a fs)
    = (stored Data Unmarshal fs ++ a)%list
    /\ stored Data Unmarshal
         (saveResults Data MarshalIndent Unmarshal b
            (saveResults Data MarshalIndent Unmarshal a fs))
       = stored Data Unmarshal
           (saveResults Data MarshalIndent Unmarshal (a ++ b)%list fs).
Proof.
  intros Data M U RT.
  assert (G : forall a fs, stored Data U (saveResults Data M U a fs)
                           = (stored Data U fs ++ a)%list).
  { intros a fs. unfold saveResults, stored.
    destruct (RT ((match ReadFile resultFile fs with
                   | Some data => fst (U data)
                   | None => []
                   end) ++ a)%list) as (out & Mo & Uo).
    rewrite Mo, ReadFile_WriteFile_same. exact Uo. }
  intros a b fs. split; [apply G|].
  rewrite !G. now rewrite app_assoc.
Qed.

Lemma saveResults_grows_store_witness :
  stored (list Result) plain_unmarshal
    (saveResults (list Result) plain_marshal plain_unmarshal
       [demo_result "b.example.com"]
       (saveResults (list Result) plain_marshal plain_unmarshal
          [demo_result "b.example.com"] (fun _ => None)))
  = stored (list Result) plain_unmarshal
      (saveResults (list Result) plain_marshal plain_unmarshal
         [demo_result "b.example.com"; demo_result "b.example.com"]
         (fun _ => None)).
Proof.
  refine (proj2 (saveResults_grows_store (list Result) plain_marshal
                   plain_unmarshal _ [demo_result "b.example.com"]
                   [demo_result "b.example.com"] (fun _ => None))).
  intros rs. exists rs. split; reflexivity.
Defined.

(** X10: [saveResults] writes to the result file only, and to no file at
    all when the encoding fails: every other file, and in that case the
    whole store, reads as before. *)
Theorem saveResults_touches_one_file :
  forall (Data : Type) (MarshalIndent : list Result -> option Data)
         (Unmarshal : Data -> list Result * bool)
         (newResults : list Result) (fs : FS Data),
  (forall name, name <> resultFile ->
     ReadFile name (saveResults Data MarshalIndent Unmarshal newResults fs)
     = ReadFile name fs)
  /\ (MarshalIndent (stored Data Unmarshal fs ++ newResults)%list = None ->
      forall name,
        ReadFile name (saveResults Data MarshalIndent Unmarshal newResults fs)
        = ReadFile name fs).
Proof.
  intros Data M U new fs. unfold saveResults, stored. split.
  - intros name H.
    destruct (M _); [now apply ReadFile_WriteFile_other | reflexivity].
  - intros F name. now rewrite F.
Qed.

(** X11: a result file that is missing, or that [Unmarshal] rejects
    without leaving a result, is replaced by the new results alone: the
    decoding error is not looked at. *)
Theorem saveResults_starts_afresh :
  forall (Data : Type) (MarshalIndent : list Result -> option Data)
         (Unmarshal : Data -> list Result * bool)
         (newResults : list Result) (fs : FS Data) (out : Data),
  ReadFile resultFile fs = None
  \/ (exists data, ReadFile resultFile fs = Some data
                   /\ Unmarshal data = ([], true)) ->
  MarshalIndent newResults = Some out ->
  ReadFile resultFile (saveResults Data MarshalIndent Unmarshal newResults fs)
  = Some out.
Proof.
  intros Data M U new fs out H Mo. unfold saveResults.
  destruct H as [H | (data & H & E)]; rewrite H; [|rewrite E]; cbn [fst app];
    rewrite Mo; apply ReadFile_WriteFile_same.
Qed.

Lemma saveResults_starts_afresh_witness :
  ReadFile resultFile
    (saveResults (list Result) plain_marshal (fun _ => ([], true))
       [demo_result "b.example.com"]
       (WriteFile resultFile [demo_result "a.example.com"] (fun _ => None)))
  = Some [demo_result "b.example.com"].
Proof.
  apply (saveResults_starts_afresh (list Result) plain_marshal
           (fun _ => ([], true))).
  - right. exists [demo_result "a.example.com"]. split; reflexivity.
  - reflexivity.
Defined.

(** X12: the [saveResults] of lines 163-170 keeps the last write only:
    after two calls every file reads as after the second call alone, so
    saving the same results twice is the same as saving them once. *)
Theorem earlier_saveResults_last_write_wins :
  forall (Data : Type) (MarshalIndent : list Earlier.Result -> option Data)
         (a b : list Earlier.Result) (fs : FS Data) (out : Data),
  MarshalIndent b = Some out ->
  forall name,
    ReadFile name (Earlier.saveResults Data MarshalIndent b
                     (Earlier.saveResults Data MarshalIndent a fs))
    = ReadFile name (Earlier.saveResults Data MarshalIndent b fs).
Proof.
  intros Data M a b fs out Mb name. unfold Earlier.saveResults. rewrite Mb.
  unfold ReadFile, WriteFile.
  destruct (String.eqb name Earlier.resultFile) eqn:E; [reflexivity|].
  destruct (M a); [|reflexivity].
  cbv beta. now rewrite E.
Qed.

Lemma earlier_last_write_witness :
  ReadFile Earlier.resultFile
    (Earlier.saveResults (list Earlier.Result) plain_marshal [earlier_b]
       (Earlier.saveResults (list Earlier.Result) plain_marshal
          [earlier_a] (fun _ => None)))
  = ReadFile Earlier.resultFile
      (Earlier.saveResults (list Earlier.Result) plain_marshal
         [earlier_b] (fun _ => None)).
Proof.
  exact (earlier_saveResults_last_write_wins (list Earlier.Result) plain_marshal
           [earlier_a] [earlier_b] (fun _ => None) [earlier_b] eq_refl
           Earlier.resultFile).
Defined.

(** ** More on [parsePorts] *)

Lemma take_drop_append : forall k s, (take k s ++ drop k s)%string = s.
Proof.
  induction k as [|k IH]; intros [|c t]; simpl; try reflexivity.
  now rewrite IH.
Qed.

Lemma drop_drop : forall a b s, drop a (drop b s) = drop (b + a) s.
Proof.
  intros a b. induction b as [|b IH]; intros s; simpl; [reflexivity|].
  destruct s as [|c t]; [now destruct a | apply IH].
Qed.

Lemma trimLeftSpace_drop : forall fuel s, exists k, trimLeftSpace fuel s = drop k s.
Proof.
  induction fuel as [|fuel IH]; intros s; simpl.
  - now exists 0%nat.
  - destruct s as [|c t]; [now exists 0%nat|].
    destruct (DecodeRuneInString (String c t)) as [r size].
    destruct (IsSpace r); [|now exists 0%nat].
    destruct (IH (drop size (String c t))) as (k & E).
    exists (size + k)%nat. now rewrite E, drop_drop.
Qed.

(** [TrimSpace] returns a piece of its argument. *)
Lemma TrimSpace_piece : forall s, exists a b, s = (a ++ TrimSpace s ++ b)%string.
Proof.
  intros s. unfold TrimSpace, TrimLeftSpace.
  destruct (trimLeftSpace_drop (String.length s) s) as (k & E). rewrite E.
  unfold TrimRightSpace.
  set (stop := Z.to_nat _).
  exists (take k s), (drop stop (drop k s)).
  now rewrite take_drop_append, take_drop_append.
Qed.

Lemma append_assoc : forall a b c : string, ((a ++ b) ++ c = a ++ (b ++ c))%string.
Proof.
  induction a as [|x a IH]; intros b c; simpl; [reflexivity | now rewrite IH].
Qed.

Lemma Split_not_nil : forall s sep, Split s sep <> [].
Proof.
  intros [|c t] sep; simpl; [discriminate|].
  destruct (Ascii.eqb c sep); [discriminate|].
  destruct (Split t sep); discriminate.
Qed.

(** No segment of [Split] holds the separator. *)
Lemma Split_no_sep : forall sep s,
  Forall (fun seg => containsByte sep seg = false) (Split s sep).
Proof.
  intros sep. induction s as [|c t IH]; simpl.
  - now repeat constructor.
  - destruct (Ascii.eqb c sep) eqn:E.
    + now constructor.
    + destruct (Split t sep) as [|h rest].
      * constructor; [simpl; now rewrite E | constructor].
      * inversion IH; subst. constructor; [simpl; now rewrite E | assumption].
Qed.

(** Joining the segments with the separator gives the string back. *)
Lemma Split_join : forall sep s,
  String.concat (String sep "") (Split s sep) = s.
Proof.
  intros sep. induction s as [|c t IH]; simpl; [reflexivity|].
  destruct (Ascii.eqb_spec c sep) as [E|NE].
  - subst c. pose proof (Split_not_nil t sep) as N.
    destruct (Split t sep) as [|h rest]; [contradiction|].
    cbn [String.concat]. cbn [String.concat] in IH. rewrite IH. reflexivity.
  - pose proof (Split_not_nil t sep) as N.
    destruct (Split t sep) as [|h rest]; [contradiction|].
    destruct rest as [|h' rest]; rewrite <- IH; reflexivity.
Qed.

Lemma concat_piece : forall sep x l,
  In x l -> exists a b, String.concat sep l = (a ++ x ++ b)%string.
Proof.
  intros sep x. induction l as [|y l IH]; intros H; [contradiction|].
  destruct H as [E|H].
  - subst y. destruct l as [|z l].
    + exists "", "". simpl. induction x as [|c x IHx]; simpl; [reflexivity|].
      now rewrite <- IHx.
    + exists "", (sep ++ String.concat sep (z :: l))%string. reflexivity.
  - destruct (IH H) as (a & b & E). destruct l as [|z l]; [contradiction|].
    exists (y ++ sep ++ a)%string, b.
    change (String.concat sep (y :: z :: l))
      with (y ++ sep ++ String.concat sep (z :: l))%string.
    rewrite E. now rewrite !append_assoc.
Qed.

Lemma containsByte_piece : forall c a x b,
  containsByte c (a ++ x ++ b) = false -> containsByte c x = false.
Proof.
  intros c a x b H. rewrite !containsByte_append in H.
  apply orb_false_elim in H as [_ H]. now apply orb_false_elim in H as [H _].
Qed.

(** X13: every port [parsePorts] returns is a non-empty piece of the
    input that holds no comma. *)
Theorem parsePorts_ports_are_clean : forall input,
  Forall (fun port => port <> ""
                      /\ containsByte "," port = false
                      /\ exists a b, input = (a ++ port ++ b)%string)
         (parsePorts input).
Proof.
  intros input. unfold parsePorts.
  destruct (String.eqb input ""); [constructor|].
  rewrite parsePorts_loop_filter. cbn [app].
  apply Forall_forall. intros port H.
  apply filter_In in H as [H NE]. apply in_map_iff in H as (seg & E & H).
  destruct (TrimSpace_piece seg) as (a & b & P). rewrite E in P.
  split; [|split].
  - intros B. rewrite B in NE. discriminate NE.
  - pose proof (Split_no_sep "," input) as F.
    rewrite Forall_forall in F. specialize (F _ H).
    rewrite P in F. now apply containsByte_piece in F.
  - destruct (concat_piece "," seg _ H) as (a' & b' & Q).
    rewrite Split_join in Q. exists (a' ++ a)%string, (b ++ b')%string.
    rewrite Q, P. now rewrite !append_assoc.
Qed.

Lemma Split_clean : forall sep s,
  containsByte sep s = false -> Split s sep = [s].
Proof.
  intros sep. induction s as [|c t IH]; simpl; intros H; [reflexivity|].
  apply orb_false_elim in H as [E H]. rewrite E, (IH H). reflexivity.
Qed.

Lemma Split_append : forall sep a b,
  containsByte sep a = false ->
  Split (a ++ String sep b) sep = a :: Split b sep.
Proof.
  intros sep. induction a as [|c a IH]; simpl; intros b H.
  - now rewrite Ascii.eqb_refl.
  - apply orb_false_elim in H as [E H]. rewrite E, (IH b H). reflexivity.
Qed.

Lemma Split_concat : forall sep p ps,
  Forall (fun x => containsByte sep x = false) (p :: ps) ->
  Split (String.concat (String sep "") (p :: ps)) sep = p :: ps.
Proof.
  intros sep p ps. revert p. induction ps as [|q ps IH]; intros p F.
  - simpl. apply Split_clean. now inversion F.
  - inversion F as [|? ? Hp Hq]; subst.
    change (String.concat (String sep "") (p :: q :: ps))
      with (p ++ String sep (String.concat (String sep "") (q :: ps)))%string.
    rewrite (Split_append _ _ _ Hp). now rewrite (IH q Hq).
Qed.

(** X14: [parsePorts] undoes joining with commas: for ports that are not
    empty, hold no comma and have no white space around them, parsing
    the comma-separated list gives the ports back. *)
Theorem parsePorts_of_joined : forall ps,
  Forall (fun p => p <> "" /\ containsByte "," p = false /\ TrimSpace p = p) ps ->
  parsePorts (String.concat "," ps) = ps.
Proof.
  intros ps F. destruct ps as [|p ps]; [reflexivity|].
  unfold parsePorts.
  assert (Sp : Split (String.concat "," (p :: ps)) "," = p :: ps).
  { apply Split_concat. eapply Forall_impl; [|exact F]. now intros x (_ & H & _). }
  destruct (String.eqb_spec (String.concat "," (p :: ps)) "") as [E|_].
  - rewrite E in Sp. simpl in Sp. inversion Sp; subst.
    inversion F as [|? ? (N & _) _]. now elim N.
  - rewrite Sp, parsePorts_loop_filter. cbn [app].
    clear Sp. induction F as [|x l (N & _ & T) _ IH]; [reflexivity|].
    cbn [map filter]. rewrite T.
    destruct (String.eqb_spec x ""); [contradiction|]. simpl. now rewrite IH.
Qed.

Lemma parsePorts_of_joined_witness :
  parsePorts "80,443,8080" = ["80"; "443"; "8080"].
Proof.
  apply (parsePorts_of_joined ["80"; "443"; "8080"]).
  repeat constructor; (discriminate || reflexivity).
Defined.

(** ** More on [measureLatency] *)

Lemma Milliseconds_bounds : forall d, 0 <= d ->
  0 <= Milliseconds d
  /\ 1000000 * Milliseconds d <= d < 1000000 * Milliseconds d + 1000000.
Proof.
  intros d H. unfold Milliseconds.
  rewrite Z.quot_div_nonneg by lia.
  pose proof (Z.div_pos d 1000000 H ltac:(lia)).
  pose proof (Z.mul_div_le d 1000000 ltac:(lia)).
  pose proof (Z.mul_succ_div_gt d 1000000 ltac:(lia)). lia.
Qed.

(** X15: when an attempt succeeds, the value of [measureLatency] is at
    most the mean of the elapsed times of the successful attempts and
    less than one millisecond under it; it is never negative, and it is
    a whole number of half milliseconds. *)
Theorem measureLatency_precision : forall ip w es,
  es = successes w (tick w) (JoinHostPort ip "80") pingCount ->
  Forall (fun e => 0 <= e < 2 ^ 62) es ->
  es <> [] ->
  (0 <= fst (measureLatency ip w))%Q
  /\ (fst (measureLatency ip w) <= mean_ms es)%Q
  /\ (mean_ms es < fst (measureLatency ip w) + 1)%Q
  /\ exists n : Z, (fst (measureLatency ip w) == n # 2)%Q.
Proof.
  intros ip w es E B NE.
  pose proof (measureLatency_value ip w) as V. cbv zeta in V.
  rewrite <- E in V. specialize (V B). rewrite V. clear V.
  pose proof (successes_bound w (tick w) (JoinHostPort ip "80") pingCount) as LB.
  rewrite <- E in LB. unfold pingCount in LB. clear E.
  assert (NN : 0 <= sum es).
  { clear - B. induction B as [|e es He _ IH]; [simpl; lia|].
    cbn [sum fold_right]. fold (sum es). lia. }
  destruct (Milliseconds_bounds _ NN) as (M0 & M1 & M2).
  unfold mean_ms. set (m := Milliseconds (sum es)) in *. set (t := sum es) in *.
  clearbody m t.
  destruct es as [|a [|b [|c es]]]; [contradiction| | |simpl in LB; lia];
    cbn [List.length Z.of_nat Pos.of_succ_nat Pos.succ Z.eqb];
    [change (1000000 * 1) with 1000000 | change (1000000 * 2) with 2000000];
    unfold Qle, Qlt, Qeq, Qdiv, Qmult, Qinv, Qplus, inject_Z;
    cbn [Qnum Qden];
    (repeat split; [lia | lia | lia |]).
  - exists (2 * m). lia.
  - exists m. lia.
Qed.

Lemma measureLatency_precision_witness :
  (0 <= fst (measureLatency "10.0.0.1" fast_world))%Q
  /\ (fst (measureLatency "10.0.0.1" fast_world) <= mean_ms [700000; 700000]%Z)%Q
  /\ (mean_ms [700000; 700000]%Z < fst (measureLatency "10.0.0.1" fast_world) + 1)%Q
  /\ exists n : Z, (fst (measureLatency "10.0.0.1" fast_world) == n # 2)%Q.
Proof.
  apply (measureLatency_precision "10.0.0.1" fast_world [700000; 700000] eq_refl).
  - repeat constructor; lia.
  - discriminate.
Defined.

(** ** The calls of any round *)

Lemma dial_events_Forall : forall (P : Event -> Prop) w addrs k,
  (forall a ans, In a addrs -> P (EvDial "tcp" a timeout ans)) ->
  Forall P (dial_events w k addrs).
Proof.
  intros P w. induction addrs as [|a l IH]; intros k H; simpl; constructor.
  - apply H. now left.
  - apply IH. intros b ans I. apply H. now right.
Qed.

(** X16: whatever the network answers, a round of [worker] makes one
    lookup, of the candidate host, and then at most [2 + len(ports)]
    dials, each over TCP under the two-second limit, to port 80 of the
    address it reports or to a requested port of the host; a round that
    sends nothing makes the lookup only. *)
Theorem round_calls_are_bounded : forall dom ps sub w,
  let host := sub ++ "." ++ dom in
  let sent := fst (scanJob dom ps sub w) in
  exists dials,
    snd (scanJob dom ps sub w)
    = after w (EvLookupIP host (lookup_answer w (tick w) host) :: dials)
    /\ (List.length dials <= pingCount + List.length ps)%nat
    /\ Forall (round_call host ps sent) dials
    /\ Forall (fun e => match e with EvDial _ _ _ _ => True | _ => False end) dials
    /\ (sent = None -> dials = []).
Proof.
  intros dom ps sub w host sent. subst sent.
  destruct (lookup_answer w (tick w) host) as [addrs|] eqn:L.
  - destruct (String.eqb_spec (firstIPv4 addrs) "") as [E | NE].
    + rewrite scanJob_unresolved by (right; exists addrs; auto).
      fold host. rewrite L. exists []. simpl. repeat split; auto; lia.
    + rewrite (scanJob_resolved dom ps sub w addrs (firstIPv4 addrs))
        by (repeat split; auto).
      cbv zeta. fold host. cbn [fst snd].
      eexists. split; [reflexivity|]. split; [|split; [|split]].
      * rewrite length_app, !dial_events_length, repeat_length, length_map. lia.
      * apply Forall_app. split; apply dial_events_Forall; intros a ans I.
        -- apply repeat_spec in I. subst a. repeat split.
           left. eexists. split; reflexivity.
        -- apply in_map_iff in I as (port & E & I). subst a. repeat split.
           right. exists port. auto.
      * apply Forall_app. split; apply dial_events_Forall; intros; exact I.
      * discriminate.
  - rewrite scanJob_unresolved by now left.
    fold host. rewrite L. exists []. simpl. repeat split; auto; lia.
Qed.

(** ** When a round sends a result *)

Lemma not_all_blank : forall addrs,
  ~ Forall (fun a => isIPv4 a = false) addrs <->
  Exists (fun a => isIPv4 a = true) addrs.
Proof.
  induction addrs as [|a l IH]; split; intros H.
  - elim H. constructor.
  - inversion H.
  - destruct (isIPv4 a) eqn:E; [now left|]. right. apply IH.
    intros F. apply H. now constructor.
  - intros F. inversion F as [|? ? Fa Fl]; subst.
    inversion H as [? ? Ha | ? ? Hl]; subst; [congruence|].
    now apply IH in Hl.
Qed.

(** X22: a round of [worker] sends a result exactly when the lookup
    answers, without an error, with a list that holds an address of IPv4
    form; the result then carries the candidate host and is marked
    reachable. *)
Theorem result_iff_IPv4_address : forall dom ps sub w,
  let host := sub ++ "." ++ dom in
  ((exists r, fst (scanJob dom ps sub w) = Some r) <->
   (exists addrs, lookup_answer w (tick w) host = Some addrs
                  /\ Exists (fun a => isIPv4 a = true) addrs))
  /\ (forall r, fst (scanJob dom ps sub w) = Some r ->
                Host r = host /\ Reachable r = true /\ IPAddress r <> "").
Proof.
  intros dom ps sub w host. split; [split|].
  - intros (r & H).
    destruct (scanJob dom ps sub w) as [o w'] eqn:S. cbn [fst] in H. subst o.
    destruct (scanJob_some_resolved _ _ _ _ _ _ S) as (addrs & ipv4 & L & F & NE).
    exists addrs. split; [exact L|]. apply not_all_blank.
    intros B. apply firstIPv4_none in B. congruence.
  - intros (addrs & L & E).
    rewrite (scanJob_resolved dom ps sub w addrs (firstIPv4 addrs)).
    + cbv zeta. cbn [fst]. eauto.
    + split; [exact L|]. split; [reflexivity|].
      intros B. apply not_all_blank in E. apply E.
      now apply firstIPv4_blank_iff.
  - intros r H.
    destruct (scanJob dom ps sub w) as [o w'] eqn:S. cbn [fst] in H. subst o.
    destruct (scanJob_some_resolved _ _ _ _ _ _ S) as (addrs & ipv4 & R).
    rewrite (scanJob_resolved dom ps sub w addrs ipv4 R) in S. cbv zeta in S.
    inversion S; subst r. cbn. destruct R as (_ & _ & NE). auto.
Qed.

(** ** [readSubdomains] *)

Example readSubdomains_sample :
  readSubdomains (Some ("www" ++ cr ++ nl ++ nl ++ "  mail " ++ nl ++ "api"))
  = (["www"; "mail"; "api"], None)
  /\ readSubdomains (Some "") = ([], None)
  /\ readSubdomains (Some (nl ++ nl)) = ([], None).
Proof. repeat split. Qed.

Lemma IndexByte_range : forall s c, -1 <= IndexByte s c < Z.of_nat (String.length s).
Proof.
  induction s as [|a t IH]; intros c; simpl String.length; cbn [IndexByte]; [lia|].
  destruct (Ascii.eqb a c); [lia|]. specialize (IH c).
  destruct (IndexByte t c <? 0) eqn:E; [lia|]. apply Z.ltb_ge in E. lia.
Qed.

(** [Split] through [IndexByte]: the first segment ends at the first
    separator. *)
Lemma Split_IndexByte : forall sep s,
  let i := IndexByte s sep in
  Split s sep =
  if 0 <=? i then take (Z.to_nat i) s :: Split (drop (Z.to_nat (i + 1)) s) sep
  else [s].
Proof.
  intros sep. induction s as [|a t IH]; [reflexivity|].
  cbv zeta in *. cbn [IndexByte Split].
  destruct (Ascii.eqb a sep) eqn:E; [reflexivity|].
  pose proof (IndexByte_range t sep) as R.
  rewrite IH. destruct (IndexByte t sep <? 0) eqn:N.
  - apply Z.ltb_lt in N.
    replace (0 <=? IndexByte t sep) with false by (symmetry; apply Z.leb_gt; lia).
    reflexivity.
  - apply Z.ltb_ge in N.
    replace (0 <=? IndexByte t sep) with true by (symmetry; apply Z.leb_le; lia).
    replace (0 <=? IndexByte t sep + 1) with true by (symmetry; apply Z.leb_le; lia).
    replace (Z.to_nat (IndexByte t sep + 1 + 1))
      with (S (S (Z.to_nat (IndexByte t sep)))) by lia.
    replace (Z.to_nat (IndexByte t sep + 1)) with (S (Z.to_nat (IndexByte t sep))) by lia.
    reflexivity.
Qed.

Lemma length_take_le : forall n s, (String.length (take n s) <= n)%nat.
Proof.
  induction n as [|n IH]; intros [|c t]; simpl; try lia. specialize (IH t). lia.
Qed.

Lemma length_take : forall n s,
  (n <= String.length s)%nat -> String.length (take n s) = n.
Proof.
  induction n as [|n IH]; intros [|c t]; simpl; intros H; try lia.
  rewrite IH; lia.
Qed.

Lemma length_drop : forall n s,
  String.length (drop n s) = (String.length s - n)%nat.
Proof.
  induction n as [|n IH]; intros [|c t]; simpl; try lia. apply IH.
Qed.

(** The loop of [readSubdomains] reads the lines [lines_read] gives. *)
Lemma readSubdomains_loop_spec : forall fuel rest subs,
  (String.length rest < fuel)%nat ->
  readSubdomains_loop fuel rest subs =
  ((subs ++ entries (map dropCR (fst (lines_read (Split rest "010")))))%list,
   snd (lines_read (Split rest "010"))).
Proof.
  induction fuel as [|fuel IH]; intros rest subs L; [lia|].
  cbn [readSubdomains_loop]. unfold Scan.
  destruct (String.eqb_spec rest "") as [E|NE].
  { subst rest. simpl. now rewrite app_nil_r. }
  rewrite (Split_IndexByte "010" rest). cbv zeta.
  pose proof (IndexByte_range rest "010") as R.
  destruct (0 <=? IndexByte rest "010") eqn:I.
  - apply Z.leb_le in I.
    set (i := IndexByte rest "010") in *.
    pose proof (Split_cons (drop (Z.to_nat (i + 1)) rest) "010") as (h & tl & Sp).
    cbn [lines_read]. rewrite Sp. rewrite <- Sp.
    unfold fits. rewrite length_take by lia. rewrite Z2Nat.id by lia.
    destruct (i <? MaxScanTokenSize); [|simpl; now rewrite app_nil_r].
    assert (L' : (String.length (drop (Z.to_nat (i + 1)) rest) < fuel)%nat).
    { rewrite length_drop. lia. }
    destruct (lines_read (Split (drop (Z.to_nat (i + 1)) rest) "010"))
      as [ls err] eqn:LR.
    cbn [fst snd map]. unfold entries. cbn [map filter].
    destruct (String.eqb (TrimSpace (dropCR (take (Z.to_nat i) rest))) "");
      rewrite (IH _ _ L'), LR; cbn [fst snd negb]; [reflexivity|].
    unfold entries. now rewrite <- app_assoc.
  - cbn [lines_read].
    destruct (String.eqb_spec rest ""); [contradiction|].
    unfold fits.
    destruct (Z.of_nat (String.length rest) <? MaxScanTokenSize);
      [|simpl; now rewrite app_nil_r].
    cbn [fst snd map]. unfold entries. cbn [map filter].
    assert (E0 : forall k l, readSubdomains_loop k "" l = (l, None))
      by (intros [|k] l; reflexivity).
    destruct (String.eqb (TrimSpace (dropCR rest)) ""); rewrite E0; cbn [negb];
      [now rewrite app_nil_r | reflexivity].
Qed.

(** *** A carriage return at the end does not change [TrimSpace] *)

Ltac bool_facts :=
  repeat match goal with
         | H : (_ || _) = false |- _ => apply orb_false_elim in H; destruct H
         | H : (_ <? _) = true |- _ => apply Z.ltb_lt in H
         | H : (_ <? _) = false |- _ => apply Z.ltb_ge in H
         | H : (_ <? _)%nat = true |- _ => apply Nat.ltb_lt in H
         | H : (_ <? _)%nat = false |- _ => apply Nat.ltb_ge in H
         | H : (_ <=? _)%nat = true |- _ => apply Nat.leb_le in H
         | H : (_ <=? _)%nat = false |- _ => apply Nat.leb_gt in H
         end.

Ltac decode_cases :=
  repeat match goal with
         | |- context [if ?b then _ else _] =>
             let E := fresh "E" in destruct b eqn:E
         end;
  try reflexivity; try discriminate;
  bool_facts; cbn [String.length] in *; try lia.

(** The bytes of a string decode alike when a carriage return follows. *)
Lemma decode_append_cr : forall c t,
  DecodeRuneInString (String c t ++ cr) = DecodeRuneInString (String c t).
Proof.
  intros c t. unfold cr, DecodeRuneInString. cbn [append].
  destruct (byteZ c <? RuneSelf); [reflexivity|].
  destruct (first (byteZ c)) as [[[sz lo] hi]|] eqn:F; [|reflexivity].
  destruct (first_range _ _ _ _ F) as (Hsz & Hlo & Hhi).
  destruct t as [|c1 [|c2 [|c3 t3]]]; cbn [append String.length];
    change (byteZ "013") with 13; change (continuation 13) with false;
    cbn [negb]; decode_cases.
Qed.

(** A rune takes at least one byte and no more than the string has. *)
Lemma decode_width : forall c t,
  (1 <= snd (DecodeRuneInString (String c t)) <= String.length (String c t))%nat.
Proof.
  intros c t. unfold DecodeRuneInString.
  destruct (byteZ c <? RuneSelf); [simpl; lia|].
  destruct (first (byteZ c)) as [[[sz lo] hi]|] eqn:F; [|simpl; lia].
  destruct t as [|c1 [|c2 [|c3 t3]]];
    repeat match goal with
           | |- context [if ?b then _ else _] => destruct b
           end; simpl; lia.
Qed.

Lemma drop_append : forall n a b,
  (n <= String.length a)%nat -> drop n (a ++ b) = (drop n a ++ b)%string.
Proof.
  induction n as [|n IH]; intros [|c a] b H; simpl in *; try reflexivity; try lia.
  apply IH. lia.
Qed.

Lemma take_append : forall n a b,
  (n <= String.length a)%nat -> take n (a ++ b) = take n a.
Proof.
  induction n as [|n IH]; intros [|c a] b H; simpl in *; try reflexivity; try lia.
  rewrite IH; [reflexivity | lia].
Qed.

Lemma take_all : forall s, take (String.length s) s = s.
Proof. induction s as [|c s IH]; simpl; [reflexivity | now rewrite IH]. Qed.

Lemma get_append : forall n a b,
  (n < String.length a)%nat -> String.get n (a ++ b) = String.get n a.
Proof.
  induction n as [|n IH]; intros [|c a] b H; simpl in *; try reflexivity; try lia.
  apply IH. lia.
Qed.

Lemma get_last : forall a c, String.get (String.length a) (a ++ String c "") = Some c.
Proof. induction a as [|x a IH]; intros c; simpl; [reflexivity | apply IH]. Qed.

(** [TrimLeftSpace] of a string followed by a carriage return. *)
Lemma trimLeftSpace_cr : forall n y,
  (String.length y <= n)%nat ->
  trimLeftSpace (S n) (y ++ cr) =
  match trimLeftSpace n y with
  | EmptyString => EmptyString
  | z => (z ++ cr)%string
  end.
Proof.
  induction n as [|n IH]; intros y L.
  - destruct y; [reflexivity | simpl in L; lia].
  - destruct y as [|c t].
    + reflexivity.
    + change (trimLeftSpace (S (S n)) (String c t ++ cr))
        with (let '(r, size) := DecodeRuneInString (String c t ++ cr) in
              if IsSpace r then trimLeftSpace (S n) (drop size (String c t ++ cr))
              else (String c t ++ cr)%string).
      change (trimLeftSpace (S n) (String c t))
        with (let '(r, size) := DecodeRuneInString (String c t) in
              if IsSpace r then trimLeftSpace n (drop size (String c t))
              else String c t).
      rewrite decode_append_cr.
      pose proof (decode_width c t) as W.
      destruct (DecodeRuneInString (String c t)) as [r size]. cbn [snd] in W.
      destruct (IsSpace r); [|reflexivity].
      rewrite drop_append by lia. apply IH.
      rewrite length_drop. cbn [String.length] in *. lia.
Qed.

Lemma scanStart_le : forall fuel s start lim, scanStart fuel s start lim <= start.
Proof.
  induction fuel as [|fuel IH]; intros s start lim; simpl; [lia|].
  destruct (start <? lim); [lia|].
  destruct (RuneStart (byteAt s start)); [lia|].
  specialize (IH s (start - 1) lim). lia.
Qed.

(** The last rune of a non-empty string takes at least one byte and no
    more than the string has. *)
Lemma decodeLast_width : forall s, s <> "" ->
  (1 <= snd (DecodeLastRuneInString s) <= String.length s)%nat.
Proof.
  intros s NE. unfold DecodeLastRuneInString.
  assert (P : (0 < String.length s)%nat) by (destruct s; [contradiction | simpl; lia]).
  destruct (Z.of_nat (String.length s) =? 0) eqn:Z0; [apply Z.eqb_eq in Z0; lia|].
  destruct (byteAt s (Z.of_nat (String.length s) - 1) <? RuneSelf); [simpl; lia|].
  set (start := Z.max 0 (scanStart 5 s (Z.of_nat (String.length s) - 2)
                           (Z.max 0 (Z.of_nat (String.length s) - 4)))).
  pose proof (scanStart_le 5 s (Z.of_nat (String.length s) - 2)
                (Z.max 0 (Z.of_nat (String.length s) - 4))) as SL.
  destruct (DecodeRuneInString (drop (Z.to_nat start) s)) as [r size].
  destruct (start + Z.of_nat size =? Z.of_nat (String.length s)) eqn:E;
    [|simpl; lia].
  apply Z.eqb_eq in E. cbn [snd]. subst start. lia.
Qed.

Lemma lastIndexNotSpace_append : forall fuel z x i,
  (i <= String.length z)%nat ->
  lastIndexNotSpace fuel (z ++ x) i = lastIndexNotSpace fuel z i.
Proof.
  induction fuel as [|fuel IH]; intros z x i L; [reflexivity|].
  cbn [lastIndexNotSpace]. destruct i as [|i]; [reflexivity|].
  rewrite take_append by lia.
  destruct (DecodeLastRuneInString (take (S i) z)) as [r size].
  destruct (IsSpace r); [apply IH; lia | reflexivity].
Qed.

Lemma lastIndexNotSpace_range : forall fuel s i,
  (i <= String.length s)%nat ->
  -1 <= lastIndexNotSpace fuel s i < Z.of_nat i \/
  (i = 0%nat /\ lastIndexNotSpace fuel s i = -1).
Proof.
  induction fuel as [|fuel IH]; intros s i L; [simpl; destruct i; [right; auto | left; lia]|].
  cbn [lastIndexNotSpace]. destruct i as [|i]; [right; auto|]. left.
  assert (NE : take (S i) s <> "").
  { destruct s; [simpl in L; lia | discriminate]. }
  pose proof (decodeLast_width _ NE) as W. rewrite length_take in W by lia.
  destruct (DecodeLastRuneInString (take (S i) s)) as [r size]. cbn [snd] in W.
  destruct (IsSpace r); [|lia].
  destruct (IH s (S i - size)%nat ltac:(lia)) as [H | [_ H]]; lia.
Qed.

Lemma byteAt_append : forall a b i,
  0 <= i < Z.of_nat (String.length a) -> byteAt (a ++ b) i = byteAt a i.
Proof.
  intros a b i H. unfold byteAt. rewrite get_append by lia. reflexivity.
Qed.

(** [TrimRightSpace] of a string followed by a carriage return. *)
Lemma TrimRightSpace_cr : forall z, TrimRightSpace (z ++ cr) = TrimRightSpace z.
Proof.
  intros z. unfold TrimRightSpace.
  rewrite length_append. change (String.length cr) with 1%nat.
  rewrite Nat.add_1_r.
  assert (E : lastIndexNotSpace (S (String.length z)) (z ++ cr) (S (String.length z))
              = lastIndexNotSpace (String.length z) z (String.length z)).
  { cbn [lastIndexNotSpace].
    replace (take (S (String.length z)) (z ++ cr)) with (z ++ cr)%string.
    2:{ rewrite <- (take_all (z ++ cr)) at 1. f_equal.
        rewrite length_append. simpl. lia. }
    assert (D : DecodeLastRuneInString (z ++ cr) = (13, 1%nat)).
    { unfold DecodeLastRuneInString. rewrite length_append.
      change (String.length cr) with 1%nat.
      replace (Z.of_nat (String.length z + 1) =? 0) with false
        by (symmetry; apply Z.eqb_neq; lia).
      replace (Z.of_nat (String.length z + 1) - 1) with (Z.of_nat (String.length z)) by lia.
      unfold byteAt. rewrite Nat2Z.id. unfold cr. rewrite get_last. reflexivity. }
    rewrite D. change (IsSpace 13) with true. cbv iota.
    replace (S (String.length z) - 1)%nat with (String.length z) by lia.
    apply lastIndexNotSpace_append. lia. }
  rewrite E. clear E.
  set (i := lastIndexNotSpace (String.length z) z (String.length z)).
  destruct (lastIndexNotSpace_range (String.length z) z (String.length z) (le_n _))
    as [R | [Z0 R]]; fold i in R.
  - destruct (0 <=? i) eqn:P; cbn [andb].
    + apply Z.leb_le in P. rewrite byteAt_append by lia.
      rewrite drop_append by lia.
      assert (NE : exists c t, drop (Z.to_nat i) z = String c t).
      { pose proof (length_drop (Z.to_nat i) z) as LD.
        destruct (drop (Z.to_nat i) z) as [|c t]; [simpl in LD; lia | eauto]. }
      destruct NE as (c & t & NE). rewrite NE, decode_append_cr.
      pose proof (decode_width c t) as W.
      pose proof (f_equal String.length NE) as LN. rewrite length_drop in LN.
      rewrite <- LN in W.
      destruct (RuneSelf <=? byteAt z i); apply take_append; lia.
    + apply Z.leb_gt in P. apply take_append. lia.
  - rewrite R. cbn [Z.leb andb]. simpl. destruct z; [reflexivity | discriminate].
Qed.

Lemma take_but_last : forall x c,
  String.get (String.length x - 1) x = Some c ->
  x = (take (String.length x - 1) x ++ String c "")%string.
Proof.
  induction x as [|a x IH]; intros c G; [discriminate G|].
  destruct x as [|a' x'].
  - simpl in G. inversion G. reflexivity.
  - replace (String.length (String a (String a' x')) - 1)%nat
      with (S (String.length (String a' x') - 1)) in * by (simpl; lia).
    cbn [String.get] in G. cbn [take append]. f_equal. now apply IH.
Qed.

Lemma dropCR_cases : forall x, dropCR x = x \/ x = (dropCR x ++ cr)%string.
Proof.
  intros x. unfold dropCR.
  destruct (0 <? Z.of_nat (String.length x)) eqn:P; cbn [andb]; [|now left].
  apply Z.ltb_lt in P.
  destruct (byteAt x (Z.of_nat (String.length x) - 1) =? 13) eqn:B; [|now left].
  right. apply Z.eqb_eq in B. unfold byteAt in B.
  replace (Z.to_nat (Z.of_nat (String.length x) - 1))
    with (String.length x - 1)%nat in * by lia.
  destruct (String.get (String.length x - 1) x) as [c|] eqn:G; [|discriminate B].
  assert (c = "013"%char).
  { rewrite <- (ascii_N_embedding c). unfold byteZ in B.
    replace (N_of_ascii c) with 13%N by lia. reflexivity. }
  subst c. now apply take_but_last.
Qed.

(** [TrimSpace] does not see the carriage return [dropCR] removes. *)
Lemma TrimSpace_dropCR : forall x, TrimSpace (dropCR x) = TrimSpace x.
Proof.
  intros x. destruct (dropCR_cases x) as [E | E]; [now rewrite E|].
  rewrite E at 2. set (y := dropCR x). clearbody y. clear E x.
  unfold TrimSpace, TrimLeftSpace.
  rewrite length_append. change (String.length cr) with 1%nat. rewrite Nat.add_1_r.
  rewrite trimLeftSpace_cr by lia.
  destruct (trimLeftSpace (String.length y) y) as [|c z] eqn:T; [reflexivity|].
  now rewrite TrimRightSpace_cr.
Qed.

Lemma entries_dropCR : forall ls, entries (map dropCR ls) = entries ls.
Proof.
  intros ls. unfold entries. rewrite map_map. f_equal.
  apply map_ext. apply TrimSpace_dropCR.
Qed.

Lemma readSubdomains_lines : forall content,
  readSubdomains (Some content)
  = (entries (fst (lines_read (Split content "010"))),
     snd (lines_read (Split content "010"))).
Proof.
  intros content. unfold readSubdomains.
  rewrite readSubdomains_loop_spec by lia. now rewrite entries_dropCR.
Qed.

Lemma lines_read_fit : forall segs,
  Forall (fun seg => fits seg = true) segs ->
  snd (lines_read segs) = None
  /\ entries (fst (lines_read segs)) = entries segs.
Proof.
  induction segs as [|seg more IH]; intros F; [split; reflexivity|].
  inversion F as [|? ? Fs Fm]; subst. specialize (IH Fm).
  destruct more as [|seg' more'].
  - cbn [lines_read]. rewrite Fs.
    destruct (String.eqb_spec seg ""); [subst; split; reflexivity | split; reflexivity].
  - change (lines_read (seg :: seg' :: more'))
      with (if fits seg
            then let '(ls, err) := lines_read (seg' :: more') in (seg :: ls, err)
            else ([], Some ErrTooLong)).
    rewrite Fs. destruct (lines_read (seg' :: more')) as [ls err].
    cbn [fst snd] in *. destruct IH as [E1 E2]. split; [exact E1|].
    unfold entries in *. cbn [map filter]. now rewrite E2.
Qed.

Lemma lines_read_unfit : forall before line after,
  Forall (fun seg => fits seg = true) before ->
  fits line = false ->
  lines_read (before ++ line :: after) = (before, Some ErrTooLong).
Proof.
  induction before as [|b bs IH]; intros line after F U.
  - cbn [app]. destruct after as [|a after'].
    + cbn [lines_read]. rewrite U.
      destruct (String.eqb_spec line ""); [subst; discriminate U | reflexivity].
    + change (lines_read (line :: a :: after'))
        with (if fits line
              then let '(ls, err) := lines_read (a :: after') in (line :: ls, err)
              else ([], Some ErrTooLong)).
      now rewrite U.
  - inversion F as [|? ? Fb Fbs]; subst.
    cbn [app]. destruct (bs ++ line :: after)%list as [|x xs] eqn:E.
    { now destruct bs. }
    change (lines_read (b :: x :: xs))
      with (if fits b
            then let '(ls, err) := lines_read (x :: xs) in (b :: ls, err)
            else ([], Some ErrTooLong)).
    rewrite Fb, <- E, (IH line after Fbs U). reflexivity.
Qed.

(** X17: for a file whose lines all fit the buffer of the scanner,
    [readSubdomains] returns, without an error, the pieces of the file
    between the newlines, each trimmed of surrounding white space (the
    carriage return of a CRLF line end is such white space), the empty
    ones dropped, in their order. *)
Theorem readSubdomains_trimmed_lines : forall content,
  Forall (fun line => Z.of_nat (String.length line) < MaxScanTokenSize)
         (Split content "010") ->
  readSubdomains (Some content)
  = (filter (fun p => negb (String.eqb p ""))
            (map TrimSpace (Split content "010")),
     None).
Proof.
  intros content F. rewrite readSubdomains_lines.
  destruct (lines_read_fit (Split content "010")) as [E1 E2].
  { eapply Forall_impl; [|exact F]. intros seg H. unfold fits.
    now apply Z.ltb_lt. }
  rewrite E1, E2. reflexivity.
Qed.

Lemma readSubdomains_trimmed_lines_witness :
  readSubdomains (Some ("www" ++ cr ++ nl ++ nl ++ "  mail " ++ nl ++ "api"))
  = (["www"; "mail"; "api"], None).
Proof.
  apply (readSubdomains_trimmed_lines
           ("www" ++ cr ++ nl ++ nl ++ "  mail " ++ nl ++ "api")).
  repeat constructor.
Defined.

(** X18: a line of [MaxScanTokenSize] bytes or more stops the reading:
    [readSubdomains] returns [bufio.ErrTooLong] together with the
    entries of the lines before the first such line, and nothing of what
    follows it. *)
Theorem readSubdomains_line_too_long : forall content before line after,
  Split content "010" = (before ++ line :: after)%list ->
  Forall (fun l => Z.of_nat (String.length l) < MaxScanTokenSize) before ->
  MaxScanTokenSize <= Z.of_nat (String.length line) ->
  readSubdomains (Some content)
  = (filter (fun p => negb (String.eqb p "")) (map TrimSpace before),
     Some ErrTooLong).
Proof.
  intros content before line after Sp F U. rewrite readSubdomains_lines, Sp.
  rewrite lines_read_unfit; [reflexivity| |].
  - eapply Forall_impl; [|exact F]. intros seg H. unfold fits. now apply Z.ltb_lt.
  - unfold fits. now apply Z.ltb_ge.
Qed.

Lemma length_replicate : forall n c, String.length (replicate n c) = n.
Proof. induction n as [|n IH]; intros c; simpl; [reflexivity | now rewrite IH]. Qed.

Lemma Split_line : forall a b,
  containsByte "010" a = false ->
  Split (a ++ nl ++ b) "010" = a :: Split b "010".
Proof. intros a b H. apply (Split_append "010" a b H). Qed.

Lemma containsByte_replicate : forall n c d,
  Ascii.eqb c d = false -> containsByte d (replicate n c) = false.
Proof. induction n as [|n IH]; intros c d H; simpl; [reflexivity | now rewrite H, IH]. Qed.

Lemma readSubdomains_line_too_long_witness :
  readSubdomains (Some ("www" ++ nl ++ long_line ++ nl ++ "mail"))
  = (["www"], Some ErrTooLong).
Proof.
  apply (readSubdomains_line_too_long
           ("www" ++ nl ++ long_line ++ nl ++ "mail") ["www"] long_line ["mail"]).
  - rewrite (Split_line "www") by reflexivity.
    rewrite (Split_line long_line) by (apply containsByte_replicate; reflexivity).
    reflexivity.
  - repeat constructor.
  - unfold long_line. rewrite length_replicate. rewrite Z2Nat.id; [lia | discriminate].
Defined.

(** ** [main] *)

(** X19: the whole program on a steady network, with a codec that reads
    back what it wrote: when the candidate file is read without an
    error, whatever the schedule of the goroutines, [main] ends with the
    result file holding what it held before followed by the results of
    the candidates of the file, each scanned once with the ports parsed
    from the input, in some order; no other file changes. *)
Theorem main_stores_the_scan :
  forall (Data : Type) (MarshalIndent : list Result -> option Data)
         (Unmarshal : Data -> list Result * bool)
         L D domain portInput wordlist subs cs (fs fs' : FS Data),
  (forall rs, exists out, MarshalIndent rs = Some out /\ fst (Unmarshal out) = rs) ->
  readSubdomains wordlist = (subs, None) ->
  Forall (calm L D) cs ->
  main Data MarshalIndent Unmarshal domain portInput wordlist cs fs = Some fs' ->
  exists found,
    Permutation found
      (expected L D (mkConfig domain (parsePorts portInput) subs) subs)
    /\ stored Data Unmarshal fs' = (stored Data Unmarshal fs ++ found)%list
    /\ forall name, name <> resultFile -> ReadFile name fs' = ReadFile name fs.
Proof.
  intros Data M U L D dom portInput wordlist subs cs fs fs' RT RS C H.
  unfold main in H. rewrite RS in H.
  destruct (run (mkConfig dom (parsePorts portInput) subs) cs init) as [p|] eqn:Rn;
    [|discriminate H].
  destruct (mainpc p) as [ | | | | | |acc] eqn:PC; try discriminate H.
  inversion H; subst fs'; clear H.
  exists acc. split; [|split].
  - pose proof (run_reachable _ _ _ _ (reach_init _) Rn) as R.
    assert (SD : shut_down p = true) by (unfold shut_down; now rewrite PC).
    apply Permutation_trans
      with (expected L D (mkConfig dom (parsePorts portInput) subs) (progressed p)).
    + apply (Permutation_count_occ Result_eq_dec). intros x.
      exact (saved_results_counted L D _ cs p acc C Rn PC x).
    + apply expected_Permutation. exact (shutdown_progressed _ _ R SD).
  - unfold saveResults, stored.
    destruct (RT ((match ReadFile resultFile fs with
                   | Some data => fst (U data)
                   | None => []
                   end) ++ acc)%list) as (out & Mo & Uo).
    rewrite Mo, ReadFile_WriteFile_same. exact Uo.
  - intros name NE. unfold saveResults.
    destruct (M _); [now apply ReadFile_WriteFile_other | reflexivity].
Qed.

Lemma main_stores_the_scan_witness :
  exists found,
    Permutation found
      (expected (lookup_answer demo_world 0) (dial_answer demo_world 0)
         (mkConfig "example.com" (parsePorts "80,443") ["www"; "nope"; "mail"])
         ["www"; "nope"; "mail"])
    /\ stored (list Result) plain_unmarshal
         (saveResults (list Result) plain_marshal plain_unmarshal
            (acc_of (mainpc calm_final)) (fun _ => None))
       = (stored (list Result) plain_unmarshal (fun _ => None) ++ found)%list
    /\ forall name, name <> resultFile ->
         ReadFile name
           (saveResults (list Result) plain_marshal plain_unmarshal
              (acc_of (mainpc calm_final)) (fun _ => None))
         = ReadFile name (fun _ : string => @None (list Result)).
Proof.
  apply (main_stores_the_scan (list Result) plain_marshal plain_unmarshal
           (lookup_answer demo_world 0) (dial_answer demo_world 0)
           "example.com" "80,443" (Some demo_wordlist) ["www"; "nope"; "mail"]
           calm_schedule (fun _ => None)).
  - intros rs. exists rs. split; reflexivity.
  - vm_compute. reflexivity.
  - exact calm_schedule_calm.
  - assert (RS : readSubdomains (Some demo_wordlist) = (["www"; "nope"; "mail"], None))
      by (vm_compute; reflexivity).
    assert (PP : parsePorts "80,443" = ["80"; "443"]) by (vm_compute; reflexivity).
    assert (Rn : run demo_config calm_schedule init = Some calm_final)
      by (vm_compute; reflexivity).
    assert (PC : mainpc calm_final = MSave (acc_of (mainpc calm_final)))
      by (vm_compute; reflexivity).
    unfold main. rewrite RS, PP. fold demo_config. rewrite Rn, PC. reflexivity.
Defined.

(** X20: when the candidate file cannot be opened, or holds a line that
    does not fit the scanner, [main] returns before it starts the pool:
    whatever the rest of the file holds, nothing is scanned and the
    file store is as it was. *)
Theorem main_stops_without_wordlist :
  forall (Data : Type) (MarshalIndent : list Result -> option Data)
         (Unmarshal : Data -> list Result * bool)
         domain portInput wordlist cs (fs : FS Data),
  wordlist = None
  \/ (exists content before line after,
        wordlist = Some content
        /\ Split content "010" = (before ++ line :: after)%list
        /\ Forall (fun l => Z.of_nat (String.length l) < MaxScanTokenSize) before
        /\ MaxScanTokenSize <= Z.of_nat (String.length line)) ->
  main Data MarshalIndent Unmarshal domain portInput wordlist cs fs = Some fs.
Proof.
  intros Data M U dom portInput wordlist cs fs
         [E | (content & before & line & after & E & Sp & F & Lg)];
    subst wordlist; unfold main; [reflexivity|].
  rewrite readSubdomains_lines, Sp, lines_read_unfit; [reflexivity| |].
  - eapply Forall_impl; [|exact F]. intros seg H. unfold fits. now apply Z.ltb_lt.
  - unfold fits. now apply Z.ltb_ge.
Qed.

Lemma main_stops_witness :
  main (list Result) plain_marshal plain_unmarshal "example.com" "80"
       (Some ("www" ++ nl ++ long_line ++ nl ++ "mail")) demo_schedule
       (fun _ => None)
  = Some (fun _ => None).
Proof.
  apply main_stops_without_wordlist. right.
  exists ("www" ++ nl ++ long_line ++ nl ++ "mail"), ["www"], long_line, ["mail"].
  split; [reflexivity|]. split; [|split].
  - rewrite (Split_line "www") by reflexivity.
    rewrite (Split_line long_line) by (apply containsByte_replicate; reflexivity).
    reflexivity.
  - repeat constructor.
  - unfold long_line. rewrite length_replicate. rewrite Z2Nat.id; [lia | discriminate].
Defined.

(** ** The [worker] of the first program *)

Lemma earlier_open_ports_record : forall e w k host l,
  EarlierWorker.open_ports (EarlierWorker.record e w) k host l
  = EarlierWorker.open_ports w k host l.
Proof.
  intros e w k host l. revert k.
  induction l as [|p l IH]; intros k; simpl; [reflexivity | now rewrite IH].
Qed.

Lemma earlier_dial_events_record : forall e w k host l,
  EarlierWorker.dial_events (EarlierWorker.record e w) k host l
  = EarlierWorker.dial_events w k host l.
Proof.
  intros e w k host l. revert k.
  induction l as [|p l IH]; intros k; simpl; [reflexivity | now rewrite IH].
Qed.

Lemma earlier_probePorts_spec : forall host ports open w,
  EarlierWorker.probePorts host ports open w
  = ((open ++ EarlierWorker.open_ports w (EarlierWorker.tick w) host ports)%list,
     EarlierWorker.after w
       (EarlierWorker.dial_events w (EarlierWorker.tick w) host ports)).
Proof.
  intros host ports. induction ports as [|port rest IH]; intros open w.
  - cbn. rewrite app_nil_r. unfold EarlierWorker.after. destruct w; simpl.
    now rewrite Nat.add_0_r, app_nil_r.
  - cbn [EarlierWorker.probePorts EarlierWorker.open_ports
         EarlierWorker.dial_events].
    unfold EarlierWorker.isPortOpen, EarlierWorker.DialTimeout.
    set (a := EarlierWorker.dial_answer w (EarlierWorker.tick w)
                (JoinHostPort host port)).
    set (e := EarlierWorker.EvDial "tcp" (JoinHostPort host port) timeout a).
    assert (A : forall o,
      EarlierWorker.probePorts host rest o (EarlierWorker.record e w)
      = ((o ++ EarlierWorker.open_ports w (S (EarlierWorker.tick w)) host rest)%list,
         EarlierWorker.after w
           (e :: EarlierWorker.dial_events w (S (EarlierWorker.tick w)) host rest))).
    { intros o. rewrite IH, earlier_open_ports_record, earlier_dial_events_record.
      unfold EarlierWorker.after, EarlierWorker.record.
      cbn [EarlierWorker.host_answer EarlierWorker.dial_answer EarlierWorker.tick
           EarlierWorker.trace List.length].
      rewrite <- app_assoc. cbn [app].
      now replace (S (EarlierWorker.tick w) + List.length
                     (EarlierWorker.dial_events w (S (EarlierWorker.tick w)) host rest))%nat
        with (EarlierWorker.tick w + S (List.length
                (EarlierWorker.dial_events w (S (EarlierWorker.tick w)) host rest)))%nat
        by lia. }
    destruct (connected a); rewrite A; [now rewrite <- app_assoc | reflexivity].
Qed.

Lemma earlier_dial_events_length : forall w k host ports,
  List.length (EarlierWorker.dial_events w k host ports) = List.length ports.
Proof.
  intros w k host ports. revert k.
  induction ports as [|p l IH]; intros k; simpl; [reflexivity | now rewrite IH].
Qed.

(** X21: a round of the [worker] of the first program sends a result
    exactly when [net.LookupHost] answers with at least one address, of
    whatever form; it then has dialled each requested port once, in
    order, and nothing else, and the result lists the ports that
    answered; otherwise the lookup is its only call. *)
Theorem earlier_round : forall dom ps sub w,
  let host := sub ++ "." ++ dom in
  let answer := EarlierWorker.host_answer w (EarlierWorker.tick w) host in
  let looked := EarlierWorker.EvLookupHost host answer in
  EarlierWorker.scanJob dom ps sub w =
  match answer with
  | Some (_ :: _) =>
      (Some (Earlier.mkResult host true
               (EarlierWorker.open_ports w (S (EarlierWorker.tick w)) host ps)),
       EarlierWorker.after w
         (looked :: EarlierWorker.dial_events w (S (EarlierWorker.tick w)) host ps))
  | _ => (None, EarlierWorker.after w [looked])
  end.
Proof.
  intros dom ps sub w host answer looked.
  unfold EarlierWorker.scanJob, EarlierWorker.LookupHost. fold host answer looked.
  assert (R : EarlierWorker.record looked w = EarlierWorker.after w [looked]).
  { unfold EarlierWorker.after, EarlierWorker.record. cbn. f_equal. lia. }
  destruct answer as [[|a l]|]; cbn [List.length Nat.eqb]; try (now rewrite R).
  destruct ps as [|p ps'].
  - cbn. now rewrite R.
  - cbn [List.length Nat.ltb Nat.leb]. rewrite earlier_probePorts_spec.
    rewrite earlier_open_ports_record, earlier_dial_events_record.
    cbn [app]. unfold EarlierWorker.after, EarlierWorker.record.
    cbn [EarlierWorker.host_answer EarlierWorker.dial_answer EarlierWorker.tick
         EarlierWorker.trace List.length].
    rewrite <- app_assoc. cbn [app].
    now replace (S (EarlierWorker.tick w) + List.length
                   (EarlierWorker.dial_events w (S (EarlierWorker.tick w)) host (p :: ps')))%nat
      with (EarlierWorker.tick w + S (List.length
              (EarlierWorker.dial_events w (S (EarlierWorker.tick w)) host (p :: ps'))))%nat
      by lia.
Qed.
